(** * Variable-redeclaration fixer of guarzo/eveDMV: a shallow embedding

    The development follows [src/fix_remaining_redeclarations.py]: the
    region locator ([fix_variable_in_content]), the assignment scanner and
    the live-range rewriter ([fix_function_variable]) and the file
    orchestrator ([fix_specific_file_issues]).  After it come the two
    archived scripts: [process_function] with its driver
    ([fix_all_occurrences_of_variable], [fix_file_variable_redeclarations])
    of [fix_all_remaining_vars.py], and [fix_accumulator_pattern] with its
    driver ([fix_variable_redeclarations], [process_file]) of
    [fix_all_variable_redeclarations.py].

    Text is a list of characters.  A character is an [ascii], read as the
    Unicode code point of the same number (0..255); the Python scripts work
    on [str], so the classes [\s] and [\w] below are the Unicode ones,
    restricted to that range.

    Every regular expression of the scripts is built by interpolating the
    variable name into a pattern.  The matchers below read the interpolated
    name literally, which is what [re] does for a name made of word
    characters only ([identifier]).  A replacement is a template for
    [re.sub]: it is inserted as it is when it holds no backslash, and after
    a group reference ([\1{new}\2]) when it is an identifier that does not
    start with a digit.

    Files are opened in text mode: reading turns a carriage return, with
    or without a line feed after it, into a line feed; opening for
    writing empties the file before anything is written, so a write that
    fails afterwards leaves the part that reached the file. *)

From Stdlib Require Import ZArith Ascii String Sorted.
From stdpp Require Import base option list strings gmap.

Local Open Scope list_scope.

(** ** Characters and text *)

Definition str := list ascii.

(** A literal, for readable examples. *)
Definition lit (s : string) : str := list_ascii_of_string s.
Arguments lit s%_string.

Definition code (c : ascii) : N := N_of_ascii c.

Definition between (lo hi n : N) : bool := ((lo <=? n) && (n <=? hi))%N.

(** [\s] of a [str] pattern: [str.isspace] on one character. *)
Definition is_space (c : ascii) : bool :=
  let n := code c in
  between 9 13 n || between 28 32 n || (n =? 133)%N || (n =? 160)%N.

(** [\w] of a [str] pattern: alphanumeric ([str.isalnum]) or underscore. *)
Definition is_word (c : ascii) : bool :=
  let n := code c in
  between 48 57 n || between 65 90 n || between 97 122 n || (n =? 95)%N
  || (n =? 170)%N || (n =? 178)%N || (n =? 179)%N || (n =? 181)%N
  || (n =? 185)%N || (n =? 186)%N || between 188 190 n
  || between 192 214 n || between 216 246 n || between 248 255 n.

(** The names the scripts are run on: a non-empty run of word characters. *)
Definition identifier (v : str) : bool :=
  match v with
  | [] => false
  | _ => forallb is_word v
  end.

Definition newline : ascii := "010"%char.

(** ** String primitives of Python *)

(** [s.split('\n')]: the lines of [s], at least one. *)
Fixpoint split_lines (s : str) : list str :=
  match s with
  | [] => [[]]
  | c :: s' =>
      if Ascii.eqb c newline then [] :: split_lines s'
      else match split_lines s' with
           | l :: ls => (c :: l) :: ls
           | [] => [[c]]
           end
  end.

(** ['\n'.join(lines)] *)
Fixpoint join_lines (ls : list str) : str :=
  match ls with
  | [] => []
  | [l] => l
  | l :: ls' => l ++ newline :: join_lines ls'
  end.

(** [s.startswith(p)], returning what follows the prefix. *)
Fixpoint strip_prefix (p s : str) : option str :=
  match p, s with
  | [], _ => Some s
  | a :: p', b :: s' => if Ascii.eqb a b then strip_prefix p' s' else None
  | _ :: _, [] => None
  end.

Definition starts_with (p s : str) : bool :=
  match strip_prefix p s with Some _ => true | None => false end.

(** [sub in s] *)
Fixpoint str_contains (sub s : str) : bool :=
  starts_with sub s ||
  match s with
  | [] => false
  | _ :: s' => str_contains sub s'
  end.

(** [s.replace(old, new)] for a non-empty [old]: every occurrence, left to
    right, without overlap.  [skip] counts the characters of the occurrence
    just replaced that are still to be passed over. *)
Fixpoint replace_from (old new : str) (skip : nat) (s : str) : str :=
  match s with
  | [] => []
  | c :: s' =>
      match skip with
      | S k => replace_from old new k s'
      | O =>
          if starts_with old s
          then new ++ replace_from old new (length old - 1) s'
          else c :: replace_from old new 0 s'
      end
  end.

(** For an empty [old] Python puts [new] before every character and at
    the end. *)
Definition str_replace (old new s : str) : str :=
  match old with
  | [] => new ++ flat_map (fun c => c :: new) s
  | _ => replace_from old new 0 s
  end.

(** ** Regular-expression primitives *)

(** Greedy [\s*]: no character it could give back starts any of the
    continuations used below, so the run is always taken whole. *)
Fixpoint skip_ws (s : str) : str :=
  match s with
  | c :: s' => if is_space c then skip_ws s' else s
  | [] => []
  end.

Fixpoint take_ws (s : str) : str :=
  match s with
  | c :: s' => if is_space c then c :: take_ws s' else []
  | [] => []
  end.

Fixpoint skip_word (s : str) : str :=
  match s with
  | c :: s' => if is_word c then skip_word s' else s
  | [] => []
  end.

Fixpoint take_word (s : str) : str :=
  match s with
  | c :: s' => if is_word c then c :: take_word s' else []
  | [] => []
  end.

(** [^\s*{var_name}\s*=] at the start of a line: what follows the [=]. *)
Definition assign_tail (var_name line : str) : option str :=
  match strip_prefix var_name (skip_ws line) with
  | Some r =>
      match skip_ws r with
      | "="%char :: t => Some t
      | _ => None
      end
  | None => None
  end.

(** [re.search(rf'^\s*{var_name}\s*=', line)] *)
Definition is_assignment_like (var_name line : str) : bool :=
  match assign_tail var_name line with Some _ => true | None => false end.

(** [re.search(rf'^\s*{var_name}\s*=(?!=)', line)] *)
Definition is_assignment (var_name line : str) : bool :=
  match assign_tail var_name line with
  | Some ("="%char :: _) => false
  | Some _ => true
  | None => false
  end.

(** [re.sub] of the anchored pattern [^\s*{var_name}\s*=], whose groups 1
    and 2 keep the leading whitespace and the whitespace with the [=], by
    [\1{new_var_name}\2]: at most the leading occurrence is replaced.  The
    new name is inserted as it is, which is what the template does for an
    identifier that does not start with a digit. *)
Definition sub_assignment (var_name new_var_name line : str) : str :=
  if is_assignment_like var_name line then
    match strip_prefix var_name (skip_ws line) with
    | Some r => take_ws line ++ new_var_name ++ r
    | None => line
    end
  else line.

(** [\b] between a previous character (if any) and a next one (if any). *)
Definition word_opt (c : option ascii) : bool :=
  match c with Some a => is_word a | None => false end.

Definition boundary (prev next : option ascii) : bool :=
  xorb (word_opt prev) (word_opt next).

(** [\b{old}\b] matching at the head of [s], where [prev] is the character
    before it. *)
Definition word_match_at (old : str) (prev : option ascii) (s : str) : bool :=
  match strip_prefix old s with
  | Some r => boundary prev (head s) && boundary (last old) (head r)
  | None => false
  end.

(** [re.sub(rf'\b{old}\b', new, line)] for a non-empty [old], scanning from
    the left; [skip] as in [replace_from].  [new] is inserted as it is,
    which is what [re.sub] does for a replacement without a backslash. *)
Fixpoint sub_word_from (old new : str) (prev : option ascii) (skip : nat)
    (s : str) : str :=
  match s with
  | [] => []
  | c :: s' =>
      match skip with
      | S k => sub_word_from old new (Some c) k s'
      | O =>
          if word_match_at old prev s
          then new ++ sub_word_from old new (Some c) (length old - 1) s'
          else c :: sub_word_from old new (Some c) 0 s'
      end
  end.

Definition sub_word (old new line : str) : str :=
  sub_word_from old new None 0 line.

(** [re.search(rf'^\s*{var_name}\s*$', line)] *)
Definition is_bare_reference (var_name line : str) : bool :=
  match strip_prefix var_name (skip_ws line) with
  | Some r => match skip_ws r with [] => true | _ => false end
  | None => false
  end.

(** [re.search(rf'^\s*{var_name}\s*\|>', line)] *)
Definition is_piped_reference (var_name line : str) : bool :=
  match strip_prefix var_name (skip_ws line) with
  | Some r => starts_with (lit "|>") (skip_ws r)
  | None => false
  end.

(** [re.search(rf'^\s*\{{\s*:ok\s*,\s*{var_name}\s*\}}', line)] *)
Definition is_ok_tuple_reference (var_name line : str) : bool :=
  match strip_prefix (lit "{") (skip_ws line) with
  | Some r1 =>
      match strip_prefix (lit ":ok") (skip_ws r1) with
      | Some r2 =>
          match strip_prefix (lit ",") (skip_ws r2) with
          | Some r3 =>
              match strip_prefix var_name (skip_ws r3) with
              | Some r4 => starts_with (lit "}") (skip_ws r4)
              | None => false
              end
          | None => false
          end
      | None => false
      end
  | None => false
  end.

(** The test of the final loop of [fix_function_variable]. *)
Definition is_final_reference (var_name line : str) : bool :=
  is_bare_reference var_name line
  || is_piped_reference var_name line
  || is_ok_tuple_reference var_name line.

(** ** Python lists *)

(** [range(start, stop)] *)
Definition py_range (start stop : nat) : list nat := seq start (stop - start).

(** [l[i]] for a possibly negative [i]; [None] is [IndexError]. *)
Definition py_getitem {A} (l : list A) (i : Z) : option A :=
  let n := Z.of_nat (length l) in
  if (i <? 0)%Z
  then (if (n + i <? 0)%Z then None else l !! Z.to_nat (n + i))
  else l !! Z.to_nat i.

(** ** The per-function rewriter: [fix_function_variable] *)

(** The scanner: indices of the lines that assign [var_name]. *)
Fixpoint scan_from (var_name : str) (i : nat) (lines : list str) : list nat :=
  match lines with
  | [] => []
  | line :: rest =>
      if is_assignment var_name line
      then i :: scan_from var_name (S i) rest
      else scan_from var_name (S i) rest
  end.

Definition find_assignment_lines (var_name : str) (lines : list str) : list nat :=
  scan_from var_name 0 lines.

(** [for j in range(start_line, end_line)]: lines that look like another
    assignment are skipped, the others get [current_var_name] replaced. *)
Fixpoint update_references (var_name current_var_name new_var_name : str)
    (js : list nat) (lines : list str) : option (list str) :=
  match js with
  | [] => Some lines
  | j :: js' =>
      line ← lines !! j;
      update_references var_name current_var_name new_var_name js'
        (if is_assignment_like var_name line then lines
         else <[j := sub_word current_var_name new_var_name line]> lines)
  end.

(** [for idx, line_idx in enumerate(assignment_lines)], from position [idx]
    on; the state is the list of lines and [current_var_name]. *)
Fixpoint rename_assignments (var_name : str) (replacements : list str)
    (idx : nat) (assignment_lines : list nat)
    (lines : list str) (current_var_name : str) : option (list str * str) :=
  match assignment_lines with
  | [] => Some (lines, current_var_name)
  | line_idx :: rest =>
      if length replacements <=? idx then Some (lines, current_var_name)
      else
        new_var_name ← replacements !! idx;
        line ← lines !! line_idx;
        let lines1 := <[line_idx := sub_assignment var_name new_var_name line]> lines in
        let start_line := line_idx + 1 in
        let end_line := match rest with
                        | next :: _ => next
                        | [] => length lines1
                        end in
        lines2 ← update_references var_name current_var_name new_var_name
                   (py_range start_line end_line) lines1;
        rename_assignments var_name replacements (S idx) rest lines2 new_var_name
  end.

(** [for i in range(len(lines) - 1, -1, -1)]: the first line, from the end,
    that passes [is_final_reference] is rewritten, and the loop stops. *)
Fixpoint fix_final_reference (var_name final_var_name : str)
    (indices : list nat) (lines : list str) : option (list str) :=
  match indices with
  | [] => Some lines
  | i :: indices' =>
      line ← lines !! i;
      if is_final_reference var_name line
      then Some (<[i := sub_word var_name final_var_name line]> lines)
      else fix_final_reference var_name final_var_name indices' lines
  end.

(** [range(n - 1, -1, -1)] *)
Definition py_range_down (n : nat) : list nat := rev (seq 0 n).

Definition fix_function_variable (func_content var_name : str)
    (replacements : list str) : option str :=
  let lines := split_lines func_content in
  let assignment_lines := find_assignment_lines var_name lines in
  if length assignment_lines <=? 1 then Some func_content
  else
    '(lines1, _) ← rename_assignments var_name replacements 0
                      assignment_lines lines var_name;
    final_var_name ←
      py_getitem replacements
        (Z.min (Z.of_nat (length assignment_lines) - 1)
               (Z.of_nat (length replacements) - 1));
    lines2 ← fix_final_reference var_name final_var_name
               (py_range_down (length lines1)) lines1;
    Some (join_lines lines2).

(** ** The naming strategies of [fix_variable_in_content] *)

Definition naming_strategies : list (str * list str) :=
  [ (lit "recommendations",
      [lit "initial_recommendations"; lit "base_recommendations";
       lit "tactical_recommendations"; lit "strategic_recommendations";
       lit "enhanced_recommendations"; lit "final_recommendations"]);
    (lit "factors",
      [lit "initial_factors"; lit "base_factors"; lit "numerical_factors";
       lit "tactical_factors"; lit "control_factors"; lit "final_factors"]);
    (lit "warnings",
      [lit "initial_warnings"; lit "critical_warnings"; lit "security_warnings";
       lit "performance_warnings"; lit "operational_warnings";
       lit "final_warnings"]);
    (lit "alerts",
      [lit "initial_alerts"; lit "critical_alerts"; lit "warning_alerts";
       lit "info_alerts"; lit "system_alerts"; lit "final_alerts"]);
    (lit "gaps",
      [lit "initial_gaps"; lit "coverage_gaps"; lit "skill_gaps";
       lit "resource_gaps"; lit "strategic_gaps"; lit "final_gaps"]);
    (lit "risks",
      [lit "initial_risks"; lit "operational_risks"; lit "security_risks";
       lit "financial_risks"; lit "strategic_risks"; lit "final_risks"]);
    (lit "risk_factors",
      [lit "initial_risk_factors"; lit "behavioral_risk_factors";
       lit "environmental_risk_factors"; lit "operational_risk_factors";
       lit "strategic_risk_factors"; lit "final_risk_factors"]);
    (lit "anomalies",
      [lit "initial_anomalies"; lit "behavioral_anomalies";
       lit "statistical_anomalies"; lit "temporal_anomalies";
       lit "pattern_anomalies"; lit "final_anomalies"]);
    (lit "suggestions",
      [lit "initial_suggestions"; lit "improvement_suggestions";
       lit "optimization_suggestions"; lit "tactical_suggestions";
       lit "strategic_suggestions"; lit "final_suggestions"]);
    (lit "actions",
      [lit "initial_actions"; lit "immediate_actions"; lit "remedial_actions";
       lit "preventive_actions"; lit "long_term_actions"; lit "final_actions"]);
    (lit "improvements",
      [lit "initial_improvements"; lit "priority_improvements";
       lit "performance_improvements"; lit "quality_improvements";
       lit "strategic_improvements"; lit "final_improvements"]);
    (lit "confidence_factors",
      [lit "initial_confidence_factors"; lit "data_confidence_factors";
       lit "analysis_confidence_factors"; lit "prediction_confidence_factors";
       lit "validation_confidence_factors"; lit "final_confidence_factors"]);
    (lit "parts",
      [lit "initial_parts"; lit "header_parts"; lit "body_parts";
       lit "footer_parts"; lit "metadata_parts"; lit "final_parts"]);
    (lit "report",
      [lit "initial_report"; lit "summary_report"; lit "detailed_report";
       lit "analysis_report"; lit "metrics_report"; lit "final_report"]);
    (lit "suggested_additions",
      [lit "initial_suggested_additions"; lit "tactical_suggested_additions";
       lit "strategic_suggested_additions";
       lit "operational_suggested_additions";
       lit "enhancement_suggested_additions";
       lit "final_suggested_additions"]) ].

(** [d.get(key)] on a dict written as its list of items. *)
Fixpoint dict_get {V} (d : list (str * V)) (key : str) : option V :=
  match d with
  | [] => None
  | (k, v) :: d' => if bool_decide (k = key) then Some v else dict_get d' key
  end.

(** The default of [naming_strategies.get(var_name, ...)]. *)
Definition generic_names (var_name : str) : list str :=
  [ lit "initial_" ++ var_name; lit "base_" ++ var_name;
    lit "enhanced_" ++ var_name; lit "processed_" ++ var_name;
    lit "updated_" ++ var_name; lit "final_" ++ var_name ].

Definition replacements_for (var_name : str) : list str :=
  default (generic_names var_name) (dict_get naming_strategies var_name).

(** ** The region locator

    [function_pattern] is
    [(defp?\s+\w+.*?(?=\n\s*defp?\s|\n\s*@|\nend\n|\Z))] under [re.DOTALL]. *)

(** [defp?\s] at the head of [s]. *)
Definition def_keyword (s : str) : option str :=
  match strip_prefix (lit "def") s with
  | Some ("p"%char :: t) => Some t
  | other => other
  end.

Definition head_is (P : ascii -> bool) (s : str) : bool :=
  match s with c :: _ => P c | [] => false end.

(** [defp?\s+\w+] at the head of [s]: what follows the name. *)
Definition function_header (s : str) : option str :=
  r ← def_keyword s;
  if head_is is_space r
  then (if head_is is_word (skip_ws r) then Some (skip_word (skip_ws r)) else None)
  else None.

(** The first three alternatives of the lookahead, each starting with a
    line break. *)
Definition stop_marker (s : str) : bool :=
  match s with
  | c :: t =>
      Ascii.eqb c newline &&
      (match def_keyword (skip_ws t) with
       | Some r => head_is is_space r
       | None => false
       end
       || starts_with (lit "@") (skip_ws t)
       || starts_with (lit "end" ++ [newline]) t)
  | [] => false
  end.

(** The whole lookahead: a stop marker, or the end of the text ([\Z]). *)
Definition stop_here (s : str) : bool :=
  match s with
  | [] => true
  | _ => stop_marker s
  end.

(** The lazy [.*?]: the shortest run of characters after which the
    lookahead holds. *)
Fixpoint body_until_stop (s : str) : str :=
  if stop_here s then []
  else match s with
       | c :: s' => c :: body_until_stop s'
       | [] => []
       end.

(** The match of [function_pattern] at the head of [s], if there is one. *)
Definition function_match (s : str) : option str :=
  r ← function_header s;
  Some (take (length s - length r) s ++ body_until_stop r).

(** [re.finditer]: matches from the left, the search resuming at the end
    of the previous match; [skip] counts the characters of that match
    still to be passed over. *)
Fixpoint finditer_from (skip : nat) (s : str) : list str :=
  match s with
  | [] => []
  | _ :: s' =>
      match skip with
      | S k => finditer_from k s'
      | O =>
          match function_match s with
          | Some m => m :: finditer_from (length m - 1) s'
          | None => finditer_from 0 s'
          end
      end
  end.

Definition find_functions (content : str) : list str := finditer_from 0 content.

(** ** [fix_variable_in_content] *)

(** The body of [for func_match in functions]. *)
Definition fix_one_function (var_name : str) (replacements : list str)
    (content func_content : str) : option str :=
  if str_contains (var_name ++ lit " =") func_content then
    new_func ← fix_function_variable func_content var_name replacements;
    Some (if bool_decide (new_func = func_content) then content
          else str_replace func_content new_func content)
  else Some content.

Fixpoint fix_functions (var_name : str) (replacements : list str)
    (functions : list str) (content : str) : option str :=
  match functions with
  | [] => Some content
  | func_content :: rest =>
      content' ← fix_one_function var_name replacements content func_content;
      fix_functions var_name replacements rest content'
  end.

Definition fix_variable_in_content (content var_name : str) : option str :=
  fix_functions var_name (replacements_for var_name)
    (find_functions content) content.

(** ** The file orchestrator: [fix_specific_file_issues] *)

Inductive exn := OSError | IndexError.

(** A file: its characters, whether it can be opened for reading and
    for writing, and how many characters the device takes when the file
    is written again ([None]: as many as are given). *)
Record file := File {
  file_data : str;
  file_readable : bool;
  file_writable : bool;
  file_room : option nat
}.

(** What a call does to the outside: a completed write, a write that
    failed after [open] had emptied the file ([kept] is what reached the
    file), a printed error line. *)
Inductive event :=
  | Wrote (filepath : string) (data : str)
  | Truncated (filepath : string) (kept : str)
  | PrintedError (filepath : string) (e : exn).

Record world := World {
  files : gmap string file;
  trace : list event
}.

Definition carriage_return : ascii := "013"%char.

(** Text mode ([newline=None]) on input: a carriage return with the line
    feed after it, and a carriage return alone, are read as one line
    feed. *)
Fixpoint universal_newlines (s : str) : str :=
  match s with
  | [] => []
  | c :: s' =>
      if Ascii.eqb c carriage_return then
        newline :: match s' with
                   | c' :: s'' =>
                       if Ascii.eqb c' newline then universal_newlines s''
                       else universal_newlines s'
                   | [] => []
                   end
      else c :: universal_newlines s'
  end.

(** [open(filepath, 'r')] and [f.read()] *)
Definition read_file (w : world) (filepath : string) : exn + str :=
  match files w !! filepath with
  | Some f =>
      if file_readable f then inr (universal_newlines (file_data f))
      else inl OSError
  | None => inl OSError
  end.

(** What the device takes of [content], and whether that is all of it. *)
Definition taken (f : file) (content : str) : str :=
  match file_room f with
  | Some room => take room content
  | None => content
  end.

Definition room_for (f : file) (content : str) : bool :=
  match file_room f with
  | Some room => bool_decide (length content ≤ room)
  | None => true
  end.

(** [open(filepath, 'w')], [f.write(content)] and the close at the end of
    the [with] block, on a system whose line separator is the line feed.
    [open] fails on a file that is not writable and leaves it as it was;
    otherwise it empties the file, and when the device does not take the
    whole of [content] the file keeps what was taken and the exception is
    raised.  The result is the world left and the exception, if any. *)
Definition write_file (w : world) (filepath : string) (content : str)
    : world * option exn :=
  match files w !! filepath with
  | Some f =>
      if file_writable f then
        if room_for f content then
          (World (<[filepath := File content (file_readable f) true (file_room f)]>
                    (files w))
                 (trace w ++ [Wrote filepath content]), None)
        else
          (World (<[filepath := File (taken f content) (file_readable f) true
                                     (file_room f)]> (files w))
                 (trace w ++ [Truncated filepath (taken f content)]),
           Some OSError)
      else (w, Some OSError)
  | None =>
      (World (<[filepath := File content true true None]> (files w))
             (trace w ++ [Wrote filepath content]), None)
  end.

(** [print(f"Error processing {filepath}: {e}")] *)
Definition print_error (w : world) (filepath : string) (e : exn) : world :=
  World (files w) (trace w ++ [PrintedError filepath e]).

(** [vars_to_fix]: a dict keeps its keys in insertion order. *)
Fixpoint dict_append (d : list (str * list str)) (key value : str)
    : list (str * list str) :=
  match d with
  | [] => [(key, [value])]
  | (k, v) :: d' =>
      if bool_decide (k = key) then (k, v ++ [value]) :: d'
      else (k, v) :: dict_append d' key value
  end.

Definition group_issues (var_issues : list (str * str)) : list (str * list str) :=
  fold_left (fun d '(var_name, line_num) => dict_append d var_name line_num)
    var_issues [].

(** [for var_name in vars_to_fix: content = fix_variable_in_content(...)] *)
Fixpoint fix_variables (var_names : list str) (content : str) : option str :=
  match var_names with
  | [] => Some content
  | var_name :: rest =>
      content' ← fix_variable_in_content content var_name;
      fix_variables rest content'
  end.

(** The [try] block: the world it leaves, and the value it returns or the
    exception it raises. *)
Definition try_fix_file (w : world) (filepath : string)
    (var_issues : list (str * str)) : world * (exn + bool) :=
  match read_file w filepath with
  | inl e => (w, inl e)
  | inr original_content =>
      match fix_variables (map fst (group_issues var_issues)) original_content with
      | None => (w, inl IndexError)
      | Some content =>
          if bool_decide (content = original_content) then (w, inr false)
          else match write_file w filepath content with
               | (w', Some e) => (w', inl e)
               | (w', None) => (w', inr true)
               end
      end
  end.

(** [except Exception as e: print(...); return False] *)
Definition fix_specific_file_issues (w : world) (filepath : string)
    (var_issues : list (str * str)) : world * bool :=
  match try_fix_file w filepath var_issues with
  | (w', inr changed) => (w', changed)
  | (w', inl e) => (print_error w' filepath e, false)
  end.

(** The loop of [main] over [files_with_issues.items()], with its
    [fixed_count]. *)
Fixpoint fix_all_files (w : world) (todo : list (string * list (str * str)))
    (fixed_count : nat) : world * nat :=
  match todo with
  | [] => (w, fixed_count)
  | (filepath, issues) :: rest =>
      let '(w', changed) := fix_specific_file_issues w filepath issues in
      fix_all_files w' rest (if changed then S fixed_count else fixed_count)
  end.

(** ** Words of a line

    The vocabulary of the statements below: a line cut into its maximal
    runs of word characters and its single other characters. *)

Fixpoint tokens (s : str) : list str :=
  match s with
  | [] => []
  | c :: s' =>
      if is_word c && head_is is_word s'
      then match tokens s' with
           | t :: ts => (c :: t) :: ts
           | [] => [[c]]
           end
      else [c] :: tokens s'
  end.

(** What [sub_word] does to one token. *)
Definition rename_token (old new t : str) : str :=
  if bool_decide (t = old) then new else t.

(** Where the identifier [name] stands in a line, token by token. *)
Definition occurrences (name line : str) : list bool :=
  (fun t => bool_decide (t = name)) <$> tokens line.

Definition proper_substring (a b : str) : bool :=
  str_contains a b && negb (bool_decide (a = b)).

(** What the loop of [update_references] does to the line it visits. *)
Definition update_line (var_name current_var_name new_var_name line : str) : str :=
  if is_assignment_like var_name line then line
  else sub_word current_var_name new_var_name line.

(** The replacement names the proofs need: at least one, each an
    identifier, none the variable itself. *)
Definition names_ok (var_name : str) (replacements : list str) : Prop :=
  replacements ≠ [] ∧ Forall (fun n => identifier n = true) replacements
  ∧ var_name ∉ replacements.

(** What the rewriter may do to a line that is not an assignment site:
    nothing, or replace one name ([var_name] or a replacement) by a
    replacement, as whole words, on a line that does not look like an
    assignment. *)
Inductive rewrites (var_name : str) (replacements : list str) : str → str → Prop :=
  | rewrites_refl line : rewrites var_name replacements line line
  | rewrites_word old new line line' :
      rewrites var_name replacements line line' →
      is_assignment_like var_name line' = false →
      old ∈ var_name :: replacements → new ∈ replacements →
      rewrites var_name replacements line (sub_word old new line').

(** The character before the position reached after passing over [u]. *)
Definition last_or (prev : option ascii) (u : str) : option ascii :=
  match last u with Some c => Some c | None => prev end.

(** A single line: a text without a line break. *)
Definition no_newline (l : str) : Prop := newline ∉ l.

Global Instance names_ok_dec var_name replacements :
  Decision (names_ok var_name replacements).
Proof. unfold names_ok. apply _. Defined.

(** ** Example texts *)

Definition text (ls : list string) : str := join_lines (lit <$> ls).

Definition dquote : ascii := "034"%char.
Definition quoted (s : string) : str := dquote :: lit s ++ [dquote].
Arguments quoted s%_string.

(** Scenario A of the specification, the result it expects and the result
    the rewriter gives. *)
Definition scenario_A : str :=
  join_lines
    [ lit "recommendations = []";
      lit "recommendations = [recommendations, " ++ quoted "x" ++ lit "]";
      lit "recommendations" ].

Definition scenario_A_expected : str :=
  join_lines
    [ lit "initial_recommendations = []";
      lit "base_recommendations = [initial_recommendations, " ++ quoted "x" ++ lit "]";
      lit "base_recommendations" ].

Definition scenario_A_rewritten : str :=
  join_lines
    [ lit "initial_recommendations = []";
      lit "base_recommendations = [recommendations, " ++ quoted "x" ++ lit "]";
      lit "base_recommendations" ].

(** A function that starts a pipeline on its argument, reassigns it twice
    and ends on a call: no reference stands alone below the last
    assignment. *)
Definition piped_argument : str :=
  text [ "def notify(alerts) do";
         "  alerts";
         "  |> Enum.each(&log/1)";
         "  alerts = [:cpu | alerts]";
         "  alerts = [:disk | alerts]";
         "  send_all(alerts)";
         "end" ]%string.

Definition piped_argument_rewritten : str :=
  text [ "def notify(alerts) do";
         "  critical_alerts";
         "  |> Enum.each(&log/1)";
         "  initial_alerts = [:cpu | alerts]";
         "  critical_alerts = [:disk | alerts]";
         "  send_all(alerts)";
         "end" ]%string.

(** The same function after the loop over the assignments, before the
    final loop. *)
Definition piped_argument_renamed : str :=
  text [ "def notify(alerts) do";
         "  alerts";
         "  |> Enum.each(&log/1)";
         "  initial_alerts = [:cpu | alerts]";
         "  critical_alerts = [:disk | alerts]";
         "  send_all(alerts)";
         "end" ]%string.

(** Eight assignments to a name with six replacement names. *)
Definition eight_assignments : str :=
  text [ "def f do";
         "  scratch = 0";
         "  scratch = 1";
         "  scratch = 2";
         "  scratch = 3";
         "  scratch = 4";
         "  scratch = 5";
         "  scratch = 6";
         "  scratch = 7";
         "end";
         "" ]%string.

Definition eight_assignments_once : str :=
  text [ "def f do";
         "  initial_scratch = 0";
         "  base_scratch = 1";
         "  enhanced_scratch = 2";
         "  processed_scratch = 3";
         "  updated_scratch = 4";
         "  final_scratch = 5";
         "  scratch = 6";
         "  scratch = 7";
         "end";
         "" ]%string.


Definition one_file (filepath : string) (content : str) : world :=
  World {[ filepath := File content true true None ]} [].

(** The same file on a device that takes [room] characters. *)
Definition one_small_file (filepath : string) (content : str) (room : nat) : world :=
  World {[ filepath := File content true true (Some room) ]} [].

Definition scratch_issue : list (str * str) := [(lit "scratch", lit "2")].

(** A region that already uses the first replacement name of [risk]. *)
Definition risk_region : str :=
  text [ "def score(user) do";
         "  initial_risk = lookup(user)";
         "  risk = 1";
         "  risk = 2";
         "  combine(initial_risk)";
         "end" ]%string.

Definition risk_region_rewritten : str :=
  text [ "def score(user) do";
         "  initial_risk = lookup(user)";
         "  initial_risk = 1";
         "  base_risk = 2";
         "  combine(base_risk)";
         "end" ]%string.

(** A region with a longer and a shorter name around [risk_factors]. *)
Definition risk_factors_region : str :=
  text [ "def assess(risk) do";
         "  risk_factors = []";
         "  all_risk_factors_summary = summary(risk)";
         "  risk_factors = [risk | risk_factors]";
         "  {:ok, risk_factors}";
         "end" ]%string.

(** An outer definition that encloses an inner one. *)
Definition nested_definitions : str :=
  text [ "def outer do";
         "  def inner do";
         "    :ok";
         "  end";
         "end";
         "" ]%string.

(** Two assignments written without a space before the [=]. *)
Definition tight_assignments : str :=
  text [ "def f do";
         "  total= 1";
         "  total= total + 1";
         "  total";
         "end" ]%string.

Definition single_assignment : str :=
  text [ "def f do";
         "  total = 1";
         "  total";
         "end" ]%string.





(** Two functions, the text of the first being the start of the text of
    the second. *)
Definition shared_text : str :=
  text [ "def f do"; "  x = 1"; "  x = 2"; "@a";
         "def f do"; "  x = 1"; "  x = 2"; "  x = 3"; "  x = 4" ]%string.

Definition shared_text_once : str :=
  text [ "def f do"; "  initial_x = 1"; "  base_x = 2"; "@a";
         "def f do"; "  initial_x = 1"; "  base_x = 2"; "  x = 3"; "  x = 4" ]%string.

Definition shared_text_twice : str :=
  text [ "def f do"; "  initial_x = 1"; "  base_x = 2"; "@a";
         "def f do"; "  initial_x = 1"; "  base_x = 2";
         "  initial_x = 3"; "  base_x = 4" ]%string.

Definition x_issue : list (str * str) := [(lit "x", lit "2")].


(** ** The archived rewriter: [process_function]

    The function that [fix_all_occurrences_of_variable] of
    [src/archive/refactoring_scripts/fix_all_remaining_vars.py] applies to
    the text of each function; [var_name] and [replacements] are the
    variables of the enclosing function it reads. *)

(** [\b{old}\b(?!\s*=)] matching at the head of [s]. *)
Definition word_match_unassigned (old : str) (prev : option ascii) (s : str) : bool :=
  match strip_prefix old s with
  | Some r =>
      boundary prev (head s) && boundary (last old) (head r)
      && negb (head_is (Ascii.eqb "="%char) (skip_ws r))
  | None => false
  end.

(** [re.sub(rf'\b{old}\b(?!\s*=)', new, line)] for a non-empty [old]. *)
Fixpoint sub_unassigned_from (old new : str) (prev : option ascii) (skip : nat)
    (s : str) : str :=
  match s with
  | [] => []
  | c :: s' =>
      match skip with
      | S k => sub_unassigned_from old new (Some c) k s'
      | O =>
          if word_match_unassigned old prev s
          then new ++ sub_unassigned_from old new (Some c) (length old - 1) s'
          else c :: sub_unassigned_from old new (Some c) 0 s'
      end
  end.

Definition sub_unassigned (old new line : str) : str :=
  sub_unassigned_from old new None 0 line.

(** [re.search(rf'\b{name}\b', line)] *)
Fixpoint has_word_from (name : str) (prev : option ascii) (s : str) : bool :=
  word_match_at name prev s
  || match s with
     | c :: s' => has_word_from name (Some c) s'
     | [] => false
     end.

Definition has_word (name line : str) : bool := has_word_from name None line.

(** [re.search(rf'{var_name}\s*=', line)], anywhere in the line. *)
Fixpoint has_assignment (var_name s : str) : bool :=
  match strip_prefix var_name s with
  | Some r => head_is (Ascii.eqb "="%char) (skip_ws r)
  | None => false
  end
  || match s with
     | _ :: s' => has_assignment var_name s'
     | [] => false
     end.

(** [for j in range(start, end)], with [prev_name] looked up in
    [used_names] on each line that is rewritten. *)
Fixpoint update_references_archived (var_name new_name : str)
    (used_names : list str) (idx : nat) (js : list nat) (lines : list str)
    : option (list str) :=
  match js with
  | [] => Some lines
  | j :: js' =>
      line ← lines !! j;
      if is_assignment_like var_name line
      then update_references_archived var_name new_name used_names idx js' lines
      else
        prev_name ← (if 0 <? idx then used_names !! (idx - 1) else Some var_name);
        update_references_archived var_name new_name used_names idx js'
          (<[j := sub_unassigned prev_name new_name line]> lines)
  end.

(** [for idx, line_idx in enumerate(assignments)], from position [idx] on;
    the state is the list of lines and [used_names]. *)
Fixpoint rename_assignments_archived (var_name : str) (replacements : list str)
    (idx : nat) (assignments : list nat)
    (lines : list str) (used_names : list str) : option (list str * list str) :=
  match assignments with
  | [] => Some (lines, used_names)
  | line_idx :: rest =>
      if length replacements <=? idx then Some (lines, used_names)
      else
        new_name ← replacements !! idx;
        let used_names1 := used_names ++ [new_name] in
        line ← lines !! line_idx;
        let lines1 := <[line_idx := sub_assignment var_name new_name line]> lines in
        let start := line_idx + 1 in
        let stop := match rest with
                    | next :: _ => next
                    | [] => length lines1
                    end in
        lines2 ← update_references_archived var_name new_name used_names1 idx
                   (py_range start stop) lines1;
        rename_assignments_archived var_name replacements (S idx) rest lines2 used_names1
  end.

(** [for i in range(len(lines) - 1, assignments[-1], -1)]: every line that
    holds the variable as a word and no assignment to it is rewritten. *)
Fixpoint fix_final_references_archived (var_name final_name : str)
    (indices : list nat) (lines : list str) : option (list str) :=
  match indices with
  | [] => Some lines
  | i :: indices' =>
      line ← lines !! i;
      fix_final_references_archived var_name final_name indices'
        (if has_word var_name line && negb (has_assignment var_name line)
         then <[i := sub_word var_name final_name line]> lines
         else lines)
  end.

(** [range(n - 1, last, -1)] *)
Definition py_range_down_to (n last : nat) : list nat := rev (py_range (last + 1) n).

Definition process_function (func_content var_name : str)
    (replacements : list str) : option str :=
  if negb (str_contains (var_name ++ lit " =") func_content) then Some func_content
  else
    let lines := split_lines func_content in
    let assignments := find_assignment_lines var_name lines in
    if length assignments <=? 1 then Some func_content
    else
      '(lines1, used_names) ← rename_assignments_archived var_name replacements 0
                                 assignments lines [];
      match used_names with
      | [] => Some (join_lines lines1)
      | _ =>
          final_name ← py_getitem used_names (-1);
          last_assignment ← py_getitem assignments (-1);
          lines2 ← fix_final_references_archived var_name final_name
                     (py_range_down_to (length lines1) last_assignment) lines1;
          Some (join_lines lines2)
      end.

(** The fallback of [naming_strategies.get] in the archived script: seven
    names. *)
Definition generic_names_archived (var_name : str) : list str :=
  [ lit "initial_" ++ var_name; lit "base_" ++ var_name; lit "processed_" ++ var_name;
    lit "enhanced_" ++ var_name; lit "updated_" ++ var_name; lit "modified_" ++ var_name;
    lit "final_" ++ var_name ].

(** ** The archived rewriter: [fix_accumulator_pattern]

    The rewriter of
    [src/archive/refactoring_scripts/fix_all_variable_redeclarations.py]. *)

(** [s.replace(old, new, 1)]: the first occurrence only. *)
Fixpoint replace_first (old new s : str) : str :=
  match strip_prefix old s with
  | Some r => new ++ r
  | None =>
      match s with
      | [] => []
      | c :: s' => c :: replace_first old new s'
      end
  end.

(** [line.replace(f'{old_var} =', f'{new_var} =', 1)] *)
Definition replace_assignment (old_var new_var line : str) : str :=
  replace_first (old_var ++ lit " =") (new_var ++ lit " =") line.

(** The scanner: the lines that pass [re.match(rf'\s*{var_name}\s*=', line)],
    which has no lookahead. *)
Fixpoint scan_like_from (var_name : str) (i : nat) (lines : list str) : list nat :=
  match lines with
  | [] => []
  | line :: rest =>
      if is_assignment_like var_name line
      then i :: scan_like_from var_name (S i) rest
      else scan_like_from var_name (S i) rest
  end.

Definition find_var_assignments (var_name : str) (lines : list str) : list nat :=
  scan_like_from var_name 0 lines.

(** [for idx, line_num in enumerate(var_assignments)]: a site beyond the
    replacement names is passed over and the loop goes on.  The inner loop
    is the one of [update_references], where the name replaced ([old_var])
    is the variable itself at every site. *)
Fixpoint rename_assignments_accumulator (var_name : str) (replacement_names : list str)
    (idx : nat) (var_assignments : list nat) (lines : list str) : option (list str) :=
  match var_assignments with
  | [] => Some lines
  | line_num :: rest =>
      if idx <? length replacement_names then
        new_var ← replacement_names !! idx;
        line ← lines !! line_num;
        let lines1 := <[line_num := replace_assignment var_name new_var line]> lines in
        let start_line := line_num + 1 in
        let end_line := match rest with
                        | next :: _ => next
                        | [] => length lines1
                        end in
        lines2 ← update_references var_name var_name new_var
                   (py_range start_line end_line) lines1;
        rename_assignments_accumulator var_name replacement_names (S idx) rest lines2
      else rename_assignments_accumulator var_name replacement_names (S idx) rest lines
  end.

(** The test of the final loop: [var_name in line and not '=' in line]. *)
Definition is_return_line (var_name line : str) : bool :=
  str_contains var_name line && negb (str_contains (lit "=") line).

(** [for i in range(len(lines) - 1, -1, -1)]: at the first line, from the
    end, that holds the variable and no [=], the loop stops; [last_var] is
    looked up only there. *)
Fixpoint fix_final_return (var_name : str) (replacement_names : list str)
    (var_assignments : list nat) (indices : list nat) (lines : list str)
    : option (list str) :=
  match indices with
  | [] => Some lines
  | i :: indices' =>
      line ← lines !! i;
      if is_return_line var_name line then
        match var_assignments with
        | [] => Some lines
        | _ =>
            last_var ←
              py_getitem replacement_names
                (Z.min (Z.of_nat (length var_assignments) - 1)
                       (Z.of_nat (length replacement_names) - 1));
            Some (<[i := sub_word var_name last_var line]> lines)
        end
      else fix_final_return var_name replacement_names var_assignments indices' lines
  end.

Definition fix_accumulator_pattern (func_content var_name : str)
    (replacement_names : list str) : option str :=
  let lines := split_lines func_content in
  let var_assignments := find_var_assignments var_name lines in
  if length var_assignments <=? 1 then Some func_content
  else
    lines1 ← rename_assignments_accumulator var_name replacement_names 0
               var_assignments lines;
    lines2 ← fix_final_return var_name replacement_names var_assignments
               (py_range_down (length lines1)) lines1;
    Some (join_lines lines2).

(** The names [fix_alerts_pattern] passes for [alerts]. *)
Definition alerts_names_accumulator : list str :=
  [ lit "initial_alerts"; lit "base_alerts"; lit "critical_alerts";
    lit "warning_alerts"; lit "info_alerts"; lit "final_alerts" ].

(** ** The archived driver: [fix_variable_redeclarations]

    Each [fix_..._pattern] finds the functions with
    [re.findall(r'(defp?\s+\w+[^}]+?\n\s*end)', content, re.DOTALL)] and
    replaces in [content] the text of each one that holds the literal
    [var =] more than once. *)

(** A line break, whitespace and [end] at the head of [s]: what follows. *)
Definition end_marker (s : str) : option str :=
  match s with
  | c :: r => if Ascii.eqb c newline then strip_prefix (lit "end") (skip_ws r) else None
  | [] => None
  end.

(** The lazy run of characters other than a closing brace, at least one,
    up to the first end marker: what follows the marker. *)
Fixpoint body_to_end (s : str) : option str :=
  match s with
  | [] => None
  | c :: s' =>
      if Ascii.eqb c "}"%char then None
      else match end_marker s' with
           | Some rest => Some rest
           | None => body_to_end s'
           end
  end.

(** The match of the pattern at the head of [s].  The name is first taken
    whole; when that fails, the name gives back characters to the lazy
    run, which helps only if the end marker follows the name at once. *)
Definition accumulator_match (s : str) : option str :=
  r ← def_keyword s;
  if head_is is_space r && head_is is_word (skip_ws r) then
    let name := take_word (skip_ws r) in
    let after := skip_word (skip_ws r) in
    match body_to_end after with
    | Some rest => Some (take (length s - length rest) s)
    | None =>
        if 2 <=? length name
        then rest ← end_marker after; Some (take (length s - length rest) s)
        else None
    end
  else None.

(** [re.findall]: matches from the left, without overlap. *)
Fixpoint findall_from (skip : nat) (s : str) : list str :=
  match s with
  | [] => []
  | _ :: s' =>
      match skip with
      | S k => findall_from k s'
      | O =>
          match accumulator_match s with
          | Some m => m :: findall_from (length m - 1) s'
          | None => findall_from 0 s'
          end
      end
  end.

Definition find_functions_accumulator (content : str) : list str :=
  findall_from 0 content.

(** [s.count(sub)] for a non-empty [sub]: occurrences from the left,
    without overlap. *)
Fixpoint count_from (sub : str) (skip : nat) (s : str) : nat :=
  match s with
  | [] => 0
  | _ :: s' =>
      match skip with
      | S k => count_from sub k s'
      | O =>
          if starts_with sub s then S (count_from sub (length sub - 1) s')
          else count_from sub 0 s'
      end
  end.

Definition str_count (sub s : str) : nat := count_from sub 0 s.

(** One [if] of the loop body: a function that holds the literal more
    than once is rewritten and its text replaced in [content]. *)
Definition fix_accumulator_in (var_name : str) (names : list str)
    (func content : str) : option str :=
  if str_contains (var_name ++ lit " =") func
     && (1 <? str_count (var_name ++ lit " =") func)
  then new_func ← fix_accumulator_pattern func var_name names;
       Some (str_replace func new_func content)
  else Some content.

(** The body of [for func in functions], one [if] for each variable of
    the pattern. *)
Fixpoint fix_targets_in (targets : list (str * list str)) (func content : str)
    : option str :=
  match targets with
  | [] => Some content
  | (var_name, names) :: rest =>
      content' ← fix_accumulator_in var_name names func content;
      fix_targets_in rest func content'
  end.

Fixpoint fix_functions_accumulator (targets : list (str * list str))
    (functions : list str) (content : str) : option str :=
  match functions with
  | [] => Some content
  | func :: rest =>
      content' ← fix_targets_in targets func content;
      fix_functions_accumulator targets rest content'
  end.

(** A [fix_..._pattern] function, for the variables it names. *)
Definition fix_pattern (targets : list (str * list str)) (content : str) : option str :=
  fix_functions_accumulator targets (find_functions_accumulator content) content.

Definition fix_recommendations_pattern : str → option str :=
  fix_pattern
    [ (lit "recommendations",
       [ lit "initial_recommendations"; lit "base_recommendations";
         lit "enhanced_recommendations"; lit "tactical_recommendations";
         lit "strategic_recommendations"; lit "final_recommendations" ]) ].

Definition fix_factors_pattern : str → option str :=
  fix_pattern
    [ (lit "factors",
       [ lit "initial_factors"; lit "base_factors"; lit "risk_factors";
         lit "confidence_factors"; lit "weighted_factors"; lit "final_factors" ]) ].

Definition fix_alerts_pattern : str → option str :=
  fix_pattern [ (lit "alerts", alerts_names_accumulator) ].

Definition fix_warnings_pattern : str → option str :=
  fix_pattern
    [ (lit "warnings",
       [ lit "initial_warnings"; lit "base_warnings"; lit "critical_warnings";
         lit "security_warnings"; lit "performance_warnings"; lit "final_warnings" ]) ].

Definition fix_risks_pattern : str → option str :=
  fix_pattern
    [ (lit "risks",
       [ lit "initial_risks"; lit "base_risks"; lit "operational_risks";
         lit "security_risks"; lit "financial_risks"; lit "final_risks" ]);
      (lit "risk_factors",
       [ lit "initial_risk_factors"; lit "base_risk_factors";
         lit "behavioral_risk_factors"; lit "environmental_risk_factors";
         lit "operational_risk_factors"; lit "final_risk_factors" ]) ].

Definition fix_gaps_pattern : str → option str :=
  fix_pattern
    [ (lit "gaps",
       [ lit "initial_gaps"; lit "coverage_gaps"; lit "skill_gaps";
         lit "resource_gaps"; lit "strategic_gaps"; lit "final_gaps" ]) ].

Definition fix_anomalies_pattern : str → option str :=
  fix_pattern
    [ (lit "anomalies",
       [ lit "initial_anomalies"; lit "behavioral_anomalies";
         lit "statistical_anomalies"; lit "temporal_anomalies";
         lit "pattern_anomalies"; lit "final_anomalies" ]) ].

Definition fix_suggestions_pattern : str → option str :=
  fix_pattern
    [ (lit "suggestions",
       [ lit "initial_suggestions"; lit "improvement_suggestions";
         lit "optimization_suggestions"; lit "tactical_suggestions";
         lit "strategic_suggestions"; lit "final_suggestions" ]) ].

Definition fix_actions_pattern : str → option str :=
  fix_pattern
    [ (lit "actions",
       [ lit "initial_actions"; lit "immediate_actions"; lit "remedial_actions";
         lit "preventive_actions"; lit "long_term_actions"; lit "final_actions" ]) ].

Definition fix_improvements_pattern : str → option str :=
  fix_pattern
    [ (lit "improvements",
       [ lit "initial_improvements"; lit "priority_improvements";
         lit "performance_improvements"; lit "quality_improvements";
         lit "strategic_improvements"; lit "final_improvements" ]) ].

(** The ten patterns, in the order of the calls. *)
Definition fix_variable_redeclarations (content : str) : option str :=
  content ← fix_recommendations_pattern content;
  content ← fix_factors_pattern content;
  content ← fix_alerts_pattern content;
  content ← fix_warnings_pattern content;
  content ← fix_risks_pattern content;
  content ← fix_gaps_pattern content;
  content ← fix_anomalies_pattern content;
  content ← fix_suggestions_pattern content;
  content ← fix_actions_pattern content;
  fix_improvements_pattern content.

(** ** [process_file] of the archived driver *)

(** The lines [process_file] prints: [Fixed: ...] after a write,
    [Error processing ...] in the handler. *)
Inductive printed :=
  | Fixed (filepath : string)
  | ErrorProcessing (filepath : string) (e : exn).

(** The world after the call, what was printed, and the value returned. *)
Definition process_file (w : world) (filepath : string)
    : world * list printed * bool :=
  match read_file w filepath with
  | inl e => (w, [ErrorProcessing filepath e], false)
  | inr original_content =>
      match fix_variable_redeclarations original_content with
      | None => (w, [ErrorProcessing filepath IndexError], false)
      | Some content =>
          if bool_decide (content = original_content) then (w, [], false)
          else match write_file w filepath content with
               | (w', Some e) => (w', [ErrorProcessing filepath e], false)
               | (w', None) => (w', [Fixed filepath], true)
               end
      end
  end.

(** ** The archived driver: [fix_all_occurrences_of_variable]

    [src/archive/refactoring_scripts/fix_all_remaining_vars.py]: its
    naming strategies, its function pattern and the [re.sub] that applies
    [process_function] to every match. *)

Definition naming_strategies_archived : list (str * list str) :=
  [ (lit "recommendations",
     [ lit "initial_recommendations"; lit "base_recommendations";
       lit "activity_recommendations"; lit "tactical_recommendations";
       lit "strategic_recommendations"; lit "operational_recommendations";
       lit "enhanced_recommendations"; lit "priority_recommendations";
       lit "final_recommendations" ]);
    (lit "factors",
     [ lit "initial_factors"; lit "base_factors"; lit "risk_factors";
       lit "confidence_factors"; lit "weight_factors"; lit "score_factors";
       lit "analysis_factors"; lit "final_factors" ]);
    (lit "warnings",
     [ lit "initial_warnings"; lit "critical_warnings"; lit "security_warnings";
       lit "performance_warnings"; lit "operational_warnings"; lit "system_warnings";
       lit "final_warnings" ]);
    (lit "alerts",
     [ lit "initial_alerts"; lit "critical_alerts"; lit "warning_alerts";
       lit "info_alerts"; lit "system_alerts"; lit "user_alerts"; lit "final_alerts" ]);
    (lit "risks",
     [ lit "initial_risks"; lit "operational_risks"; lit "security_risks";
       lit "financial_risks"; lit "strategic_risks"; lit "compliance_risks";
       lit "final_risks" ]);
    (lit "risk_factors",
     [ lit "initial_risk_factors"; lit "behavioral_risk_factors";
       lit "environmental_risk_factors"; lit "operational_risk_factors";
       lit "strategic_risk_factors"; lit "system_risk_factors"; lit "final_risk_factors" ]);
    (lit "gaps",
     [ lit "initial_gaps"; lit "coverage_gaps"; lit "skill_gaps"; lit "resource_gaps";
       lit "capability_gaps"; lit "strategic_gaps"; lit "final_gaps" ]);
    (lit "anomalies",
     [ lit "initial_anomalies"; lit "behavioral_anomalies"; lit "statistical_anomalies";
       lit "temporal_anomalies"; lit "pattern_anomalies"; lit "system_anomalies";
       lit "final_anomalies" ]);
    (lit "suggestions",
     [ lit "initial_suggestions"; lit "improvement_suggestions";
       lit "optimization_suggestions"; lit "tactical_suggestions";
       lit "strategic_suggestions"; lit "operational_suggestions";
       lit "final_suggestions" ]);
    (lit "actions",
     [ lit "initial_actions"; lit "immediate_actions"; lit "remedial_actions";
       lit "preventive_actions"; lit "corrective_actions"; lit "long_term_actions";
       lit "final_actions" ]);
    (lit "confidence_factors",
     [ lit "initial_confidence_factors"; lit "data_confidence_factors";
       lit "analysis_confidence_factors"; lit "prediction_confidence_factors";
       lit "validation_confidence_factors"; lit "model_confidence_factors";
       lit "final_confidence_factors" ]);
    (lit "suggested_additions",
     [ lit "initial_suggested_additions"; lit "tactical_suggested_additions";
       lit "strategic_suggested_additions"; lit "operational_suggested_additions";
       lit "enhancement_suggested_additions"; lit "optimization_suggested_additions";
       lit "final_suggested_additions" ]);
    (lit "parts",
     [ lit "initial_parts"; lit "header_parts"; lit "body_parts"; lit "content_parts";
       lit "footer_parts"; lit "metadata_parts"; lit "final_parts" ]);
    (lit "report",
     [ lit "initial_report"; lit "summary_report"; lit "detailed_report";
       lit "analysis_report"; lit "metrics_report"; lit "comprehensive_report";
       lit "final_report" ]);
    (lit "patterns",
     [ lit "initial_patterns"; lit "behavioral_patterns"; lit "temporal_patterns";
       lit "usage_patterns"; lit "access_patterns"; lit "query_patterns";
       lit "final_patterns" ]);
    (lit "results",
     [ lit "initial_results"; lit "processed_results"; lit "filtered_results";
       lit "validated_results"; lit "transformed_results"; lit "aggregated_results";
       lit "final_results" ]) ].

(** [naming_strategies.get(var_name, ...)] with its fallback of seven
    names. *)
Definition replacements_archived (var_name : str) : list str :=
  default (generic_names_archived var_name)
          (dict_get naming_strategies_archived var_name).

(** The function pattern is
    [((?:defp?|def)\s+\w+(?:\([^)]*\))?\s*do\s*(?:(?!(?:defp?|def)\s+\w+)[\s\S])*?\n\s*end)].
    The matcher below follows the order in which [re] explores it. *)

(** The text after the first closing parenthesis. *)
Fixpoint after_close (s : str) : option str :=
  match s with
  | [] => None
  | c :: s' => if Ascii.eqb c ")"%char then Some s' else after_close s'
  end.

(** The optional parameter list: taken up to the first closing
    parenthesis when there is one, skipped otherwise. *)
Definition skip_params (s : str) : str :=
  match s with
  | c :: t =>
      if Ascii.eqb c "("%char
      then match after_close t with Some r => r | None => s end
      else s
  | [] => s
  end.

(** The lazy run of characters at none of which a definition header
    starts, up to the first end marker: what follows the marker. *)
Fixpoint lazy_to_end (s : str) : option str :=
  match end_marker s with
  | Some rest => Some rest
  | None =>
      match s with
      | [] => None
      | _ :: s' =>
          match function_header s with
          | Some _ => None
          | None => lazy_to_end s'
          end
      end
  end.

(** What follows [do]: the whitespace is first taken whole and the end
    marker looked for after it; when that fails the whitespace gives
    back characters, which helps only if it holds a line break and [end]
    follows it. *)
Definition body_after_do (s : str) : option str :=
  match lazy_to_end (skip_ws s) with
  | Some rest => Some rest
  | None =>
      if existsb (Ascii.eqb newline) (take_ws s)
      then strip_prefix (lit "end") (skip_ws s)
      else None
  end.

(** The texts that follow a [do] found inside the name, tried from the
    right when the name taken whole leads to no match. *)
Definition do_inside (name after : str) : list str :=
  omap (fun i => strip_prefix (lit "do") (drop i name ++ after))
       (rev (seq 1 (length name - 1))).

Fixpoint first_match (candidates : list str) : option str :=
  match candidates with
  | [] => None
  | s :: rest =>
      match body_after_do s with
      | Some r => Some r
      | None => first_match rest
      end
  end.

(** The match of the function pattern at the head of [s]. *)
Definition archived_match (s : str) : option str :=
  r ← def_keyword s;
  if head_is is_space r && head_is is_word (skip_ws r) then
    let name := take_word (skip_ws r) in
    let after := skip_word (skip_ws r) in
    rest ← first_match
             (option_list (strip_prefix (lit "do") (skip_ws (skip_params after)))
              ++ do_inside name after);
    Some (take (length s - length rest) s)
  else None.

(** [re.sub(func_pattern, process_function, content)]: every match, from
    the left and without overlap, is replaced by what the function
    returns for it. *)
Fixpoint sub_functions_from (f : str → option str) (skip : nat) (s : str)
    : option str :=
  match s with
  | [] => Some []
  | c :: s' =>
      match skip with
      | S k => sub_functions_from f k s'
      | O =>
          match archived_match s with
          | Some m =>
              new_func ← f m;
              rest ← sub_functions_from f (length m - 1) s';
              Some (new_func ++ rest)
          | None =>
              rest ← sub_functions_from f 0 s';
              Some (c :: rest)
          end
      end
  end.

Definition fix_all_occurrences_of_variable (content var_name : str) : option str :=
  sub_functions_from
    (fun func_content => process_function func_content var_name
                           (replacements_archived var_name))
    0 content.

(** ** [fix_file_variable_redeclarations] of the archived driver

    The loop runs over [set(variables)], whose order of iteration the
    source does not fix: [order] is that order, a list without
    duplicates of the variables given. *)

Definition iteration_order (variables order : list str) : Prop :=
  NoDup order ∧ ∀ v, v ∈ order ↔ v ∈ variables.

(** [for var_name in set(variables): content = ...] *)
Fixpoint fix_variables_archived (order : list str) (content : str) : option str :=
  match order with
  | [] => Some content
  | var_name :: rest =>
      content' ← fix_all_occurrences_of_variable content var_name;
      fix_variables_archived rest content'
  end.

(** The [try] block. *)
Definition try_fix_file_archived (w : world) (filepath : string)
    (order : list str) : world * (exn + bool) :=
  match read_file w filepath with
  | inl e => (w, inl e)
  | inr original_content =>
      match fix_variables_archived order original_content with
      | None => (w, inl IndexError)
      | Some content =>
          if bool_decide (content = original_content) then (w, inr false)
          else match write_file w filepath content with
               | (w', Some e) => (w', inl e)
               | (w', None) => (w', inr true)
               end
      end
  end.

(** [except Exception as e: print(...); return False] *)
Definition fix_file_variable_redeclarations (w : world) (filepath : string)
    (order : list str) : world * bool :=
  match try_fix_file_archived w filepath order with
  | (w', inr changed) => (w', changed)
  | (w', inl e) => (print_error w' filepath e, false)
  end.

(** ** Vocabulary of the further properties *)

(** One token before and after the rewrite: kept, or a name of the
    variable replaced by a replacement name. *)
Definition token_renamed (var_name : str) (replacements : list str)
    (t t' : str) : Prop :=
  t' = t ∨ (t ∈ var_name :: replacements ∧ t' ∈ replacements).

(** A text made of stretches outside the regions ([gaps]) and of regions,
    in turn; there is one gap more than there are regions. *)
Fixpoint weave (gaps regions : list str) : str :=
  match gaps, regions with
  | g :: gaps', r :: regions' => g ++ r ++ weave gaps' regions'
  | g :: _, [] => g
  | [], _ => []
  end.

(** The names of a list in the order of their first occurrence, the ones
    in [seen] left out. *)
Fixpoint unseen_names (seen names : list str) : list str :=
  match names with
  | [] => []
  | x :: rest =>
      if bool_decide (x ∈ seen) then unseen_names seen rest
      else x :: unseen_names (x :: seen) rest
  end.

(** The line numbers reported for one variable, in the order of the
    report. *)
Definition lines_reported (var_name : str) (var_issues : list (str * str)) : list str :=
  (filter (fun issue => issue.1 = var_name) var_issues).*2.

(** The number of writes recorded in a trace. *)
Definition is_write (e : event) : bool :=
  match e with Wrote _ _ => true | _ => false end.

Definition writes_in (events : list event) : nat :=
  length (List.filter is_write events).

(** The backslash: the one character that a replacement template of
    [re.sub] does not insert as it is. *)
Definition backslash : ascii := "092"%char.

Definition is_digit (c : ascii) : bool := between 48 57 (code c).

(** A name that the template [\1{name}\2] inserts as it is: an identifier
    that does not start with a digit, which would be read together with
    the [\1] before it. *)
Definition plain_name (name : str) : bool :=
  identifier name && negb (head_is is_digit name).

(** A replacement name of the form qualifier, underscore, variable. *)
Definition qualified (var_name name : str) : bool :=
  let q := take (length name - S (length var_name)) name in
  identifier q && bool_decide (name = q ++ "_"%char :: var_name).

(** What every entry of [naming_strategies] is checked for. *)
Definition strategy_well_formed (entry : str * list str) : bool :=
  let '(key, names) := entry in
  bool_decide (length names = 6)
  && bool_decide (NoDup names)
  && forallb (qualified key) names
  && bool_decide (head names = Some (lit "initial_" ++ key))
  && bool_decide (last names = Some (lit "final_" ++ key)).

(** The variables the archived driver looks for, in the order of its
    patterns. *)
Definition accumulator_variables : list str :=
  [ lit "recommendations"; lit "factors"; lit "alerts"; lit "warnings";
    lit "risks"; lit "risk_factors"; lit "gaps"; lit "anomalies";
    lit "suggestions"; lit "actions"; lit "improvements" ].

(** A text with two functions, the first with a tuple in its body. *)
Definition tuple_function : str :=
  text [ "def f do";
         "  alerts = []";
         "  alerts = [1 | alerts]";
         "  {:ok, alerts}";
         "end";
         "def g do";
         "  1";
         "end" ]%string.

(** A file with two assignments to [alerts] in a function without a
    brace. *)
Definition alerts_function : str :=
  text [ "def f do";
         "  alerts = []";
         "  alerts = [1 | alerts]";
         "  alerts";
         "end" ]%string.

(** The functions the archived pattern finds in a text, from the left
    and without overlap: the matches [re.sub] replaces. *)
Fixpoint archived_functions_from (skip : nat) (s : str) : list str :=
  match s with
  | [] => []
  | _ :: s' =>
      match skip with
      | S k => archived_functions_from k s'
      | O =>
          match archived_match s with
          | Some m => m :: archived_functions_from (length m - 1) s'
          | None => archived_functions_from 0 s'
          end
      end
  end.

Definition archived_functions (content : str) : list str :=
  archived_functions_from 0 content.

(** A function with three assignments to [factors] and one to
    [risk_factors], which is also the third replacement name of
    [factors]. *)
Definition factors_function : str :=
  text [ "def f do";
         "  factors = 1";
         "  factors = 2";
         "  factors = 3";
         "  risk_factors = 0";
         "  factors";
         "end" ]%string.


(** * Properties *)

(** ** Characters *)

Lemma ascii_eqb_true (a b : ascii) : Ascii.eqb a b = true ↔ a = b.
Proof. apply Ascii.eqb_eq. Qed.

Lemma space_not_word (c : ascii) : is_space c = true → is_word c = false.
Proof. destruct c as [[] [] [] [] [] [] [] []]; vm_compute; congruence. Qed.

Lemma word_not_space (c : ascii) : is_word c = true → is_space c = false.
Proof.
  intros Hw. destruct (is_space c) eqn:Hs; [|done].
  apply space_not_word in Hs. congruence.
Qed.

Lemma identifier_inv (v : str) :
  identifier v = true → ∃ c v', v = c :: v' ∧ is_word c = true ∧ forallb is_word v' = true.
Proof.
  destruct v as [|c v']; [done|]. simpl. intros [? ?]%andb_true_iff. eauto.
Qed.

Lemma identifier_forallb (v : str) : identifier v = true → forallb is_word v = true.
Proof. destruct v; [done|]. done. Qed.



(** ** Prefixes *)

Lemma strip_prefix_Some (p s r : str) : strip_prefix p s = Some r ↔ s = p ++ r.
Proof.
  revert s. induction p as [|a p IH]; intros s; simpl.
  - split; [by intros [= ->]|by intros ->].
  - destruct s as [|b s]; [done|].
    destruct (Ascii.eqb a b) eqn:E.
    + apply ascii_eqb_true in E as ->. rewrite IH. split; [by intros ->|by intros [= ->]].
    + split; [done|]. intros [= -> ->]. by rewrite Ascii.eqb_refl in E.
Qed.

Lemma strip_prefix_app (p r : str) : strip_prefix p (p ++ r) = Some r.
Proof. by apply strip_prefix_Some. Qed.

Lemma starts_with_true (p s : str) : starts_with p s = true ↔ ∃ r, s = p ++ r.
Proof.
  unfold starts_with. destruct (strip_prefix p s) as [r|] eqn:E.
  - apply strip_prefix_Some in E. split; eauto.
  - split; [done|]. intros [r ->]. by rewrite strip_prefix_app in E.
Qed.

(** ** Whitespace runs *)

Lemma take_skip_ws (s : str) : take_ws s ++ skip_ws s = s.
Proof. induction s as [|c s IH]; simpl; [done|]. destruct (is_space c); simpl; congruence. Qed.

Lemma take_ws_spaces (s : str) : forallb is_space (take_ws s) = true.
Proof. induction s as [|c s IH]; simpl; [done|]. destruct (is_space c) eqn:E; simpl; [|done]. by rewrite E. Qed.

Lemma skip_ws_head (s : str) : head_is is_space (skip_ws s) = false.
Proof. induction s as [|c s IH]; simpl; [done|]. destruct (is_space c) eqn:E; simpl; [done|]. by rewrite E. Qed.

Lemma skip_ws_app (ws s : str) :
  forallb is_space ws = true → skip_ws (ws ++ s) = skip_ws s.
Proof. induction ws as [|c ws IH]; simpl; [done|]. intros [-> ?]%andb_true_iff. auto. Qed.

Lemma take_ws_app (ws s : str) :
  forallb is_space ws = true → take_ws (ws ++ s) = ws ++ take_ws s.
Proof. induction ws as [|c ws IH]; simpl; [done|]. intros [-> ?]%andb_true_iff. f_equal; auto. Qed.

Lemma skip_ws_id (s : str) : head_is is_space s = false → skip_ws s = s.
Proof. destruct s as [|c s]; simpl; [done|]. by intros ->. Qed.

Lemma take_ws_nil (s : str) : head_is is_space s = false → take_ws s = [].
Proof. destruct s as [|c s]; simpl; [done|]. by intros ->. Qed.

Lemma head_is_app_word (v r : str) :
  identifier v = true → head_is is_space (v ++ r) = false.
Proof.
  intros (c & v' & -> & Hc & _)%identifier_inv. simpl. by apply word_not_space.
Qed.

(** ** Lines *)

Lemma split_lines_nonempty (s : str) : split_lines s ≠ [].
Proof. destruct s as [|c s]; simpl; [done|]. destruct (Ascii.eqb c newline); [done|]. by destruct (split_lines s). Qed.

Lemma join_split_lines (s : str) : join_lines (split_lines s) = s.
Proof.
  induction s as [|c s IH]; [done|]. simpl.
  destruct (Ascii.eqb c newline) eqn:E.
  - apply ascii_eqb_true in E as ->.
    pose proof (split_lines_nonempty s). simpl.
    destruct (split_lines s) eqn:Es; [done|]. by rewrite IH.
  - pose proof (split_lines_nonempty s).
    destruct (split_lines s) as [|l ls] eqn:Es; [done|].
    destruct ls; simpl in *; by rewrite <- IH.
Qed.

Lemma split_lines_no_newline (s : str) : Forall no_newline (split_lines s).
Proof.
  induction s as [|c s IH]; simpl.
  - repeat constructor. unfold no_newline. apply not_elem_of_nil.
  - destruct (Ascii.eqb c newline) eqn:E.
    + constructor; [|done]. unfold no_newline. apply not_elem_of_nil.
    + destruct (split_lines s) as [|l ls]; [repeat constructor|].
      * unfold no_newline. intros [<-|?%elem_of_nil]%elem_of_cons; [|done].
        by rewrite Ascii.eqb_refl in E.
      * inversion IH; subst. constructor; [|done].
        unfold no_newline in *. intros [<-|?]%elem_of_cons; [|done].
        by rewrite Ascii.eqb_refl in E.
Qed.

Lemma split_line_no_newline (l : str) : no_newline l → split_lines l = [l].
Proof.
  induction l as [|c l IH]; [done|]. unfold no_newline. intros H. simpl.
  destruct (Ascii.eqb c newline) eqn:E.
  - apply ascii_eqb_true in E as ->. exfalso. apply H. left.
  - rewrite IH; [done|]. intros ?. apply H. by right.
Qed.

Lemma split_lines_app (l s : str) :
  no_newline l → split_lines (l ++ newline :: s) = l :: split_lines s.
Proof.
  induction l as [|c l IH]; unfold no_newline; intros H; simpl.
  - done.
  - destruct (Ascii.eqb c newline) eqn:E.
    + apply ascii_eqb_true in E as ->. exfalso. apply H. left.
    + rewrite IH; [done|]. intros ?. apply H. by right.
Qed.

Lemma split_join_lines (ls : list str) :
  ls ≠ [] → Forall no_newline ls → split_lines (join_lines ls) = ls.
Proof.
  induction ls as [|l ls IH]; [done|]. intros _ H. inversion H as [|?? Hl Hls]; subst.
  destruct ls as [|l' ls].
  - simpl. by apply split_line_no_newline.
  - change (join_lines (l :: l' :: ls)) with (l ++ newline :: join_lines (l' :: ls)).
    rewrite split_lines_app by done. by rewrite IH.
Qed.


(** ** Tokens *)

Lemma head_is_app {P} (u v : str) : u ≠ [] → head_is P (u ++ v) = head_is P u.
Proof. by destruct u. Qed.

Lemma concat_tokens (s : str) : concat (tokens s) = s.
Proof.
  induction s as [|c s IH]; [done|]. simpl.
  destruct (is_word c && head_is is_word s) eqn:E; simpl; [|by rewrite IH].
  destruct (tokens s) as [|t ts]; simpl in *; [by rewrite <- IH|by rewrite <- IH].
Qed.

Lemma tokens_cons (c : ascii) (s : str) :
  tokens (c :: s) =
  if is_word c && head_is is_word s
  then match tokens s with t :: ts => (c :: t) :: ts | [] => [[c]] end
  else [c] :: tokens s.
Proof. done. Qed.

Lemma tokens_nonword (c : ascii) (s : str) :
  is_word c = false → tokens (c :: s) = [c] :: tokens s.
Proof. intros H. simpl. by rewrite H. Qed.

Lemma tokens_run (w r : str) :
  identifier w = true → head_is is_word r = false → tokens (w ++ r) = w :: tokens r.
Proof.
  intros (c & w' & -> & Hc & Hw')%identifier_inv Hr.
  revert c Hc. induction w' as [|d w' IH]; intros c Hc.
  - simpl. by rewrite Hc, Hr.
  - simpl in Hw'. apply andb_true_iff in Hw' as [Hd Hw'].
    change ((c :: d :: w') ++ r) with (c :: ((d :: w') ++ r)).
    rewrite tokens_cons, (IH Hw' d Hd), Hc. simpl. by rewrite Hd.
Qed.

Lemma tokens_nonword_prefix (ws s : str) :
  forallb (fun c => negb (is_word c)) ws = true →
  tokens (ws ++ s) = ((fun c => [c]) <$> ws) ++ tokens s.
Proof.
  induction ws as [|c ws IH]; [done|]. simpl.
  intros [Hc%negb_true_iff ?]%andb_true_iff. rewrite Hc. simpl. f_equal. auto.
Qed.

Lemma spaces_nonword (ws : str) :
  forallb is_space ws = true → forallb (fun c => negb (is_word c)) ws = true.
Proof.
  induction ws as [|c ws IH]; [done|]. simpl.
  intros [Hc ?]%andb_true_iff. rewrite (space_not_word _ Hc). simpl. auto.
Qed.

Lemma take_skip_word (s : str) : take_word s ++ skip_word s = s.
Proof. induction s as [|c s IH]; simpl; [done|]. destruct (is_word c); simpl; congruence. Qed.

Lemma take_word_all (s : str) : forallb is_word (take_word s) = true.
Proof. induction s as [|c s IH]; simpl; [done|]. destruct (is_word c) eqn:E; simpl; [|done]. by rewrite E. Qed.

Lemma skip_word_head (s : str) : head_is is_word (skip_word s) = false.
Proof. induction s as [|c s IH]; simpl; [done|]. destruct (is_word c) eqn:E; simpl; [done|]. by rewrite E. Qed.

Lemma skip_word_length (s : str) : length (skip_word s) ≤ length s.
Proof. induction s as [|c s IH]; simpl; [done|]. destruct (is_word c); simpl; lia. Qed.

(** Induction over a text token by token. *)
Lemma token_ind (P : str → Prop) :
  P [] →
  (∀ c s, is_word c = false → P s → P (c :: s)) →
  (∀ w r, identifier w = true → head_is is_word r = false → P r → P (w ++ r)) →
  ∀ s, P s.
Proof.
  intros Hnil Hnon Hrun s.
  remember (length s) as n eqn:Hn. revert s Hn.
  induction n as [n IH] using lt_wf_ind. intros s ->.
  destruct s as [|c s]; [done|].
  destruct (is_word c) eqn:Hc.
  - rewrite <- (take_skip_word (c :: s)). apply Hrun.
    + simpl. rewrite Hc. simpl. by rewrite Hc, take_word_all.
    + apply skip_word_head.
    + eapply IH; [|done]. simpl. rewrite Hc.
      pose proof (skip_word_length s). lia.
  - apply Hnon; [done|]. eapply IH; [|done]. simpl. lia.
Qed.

Lemma rename_token_nonword (old new : str) (c : ascii) :
  identifier old = true → is_word c = false → rename_token old new [c] = [c].
Proof.
  intros (d & v & -> & Hd & _)%identifier_inv Hc. unfold rename_token.
  case_bool_decide as E; [|done]. injection E as -> _. congruence.
Qed.

Lemma rename_token_run (old new w : str) : identifier new = true → identifier w = true → identifier (rename_token old new w) = true.
Proof. intros. unfold rename_token. by case_bool_decide. Qed.

(** Renaming whole tokens keeps the cut into tokens. *)
Lemma tokens_concat_fmap (f : str → str) (s : str) :
  (∀ w, identifier w = true → identifier (f w) = true) →
  (∀ c, is_word c = false → f [c] = [c]) →
  tokens (concat (f <$> tokens s)) = f <$> tokens s.
Proof.
  intros Hrun Hnon. induction s as [|c s Hc IH|w r Hw Hr IH] using token_ind.
  - done.
  - rewrite tokens_nonword by done. rewrite fmap_cons, Hnon by done.
    simpl. rewrite Hc. simpl. by rewrite IH.
  - rewrite tokens_run by done. rewrite fmap_cons. simpl.
    rewrite tokens_run; [by rewrite IH|by apply Hrun|].
    destruct r as [|c r]; [done|]. simpl in Hr.
    rewrite tokens_nonword by done. rewrite fmap_cons, Hnon by done. done.
Qed.

(** ** [sub_word] renames whole tokens *)

Lemma last_or_cons (prev : option ascii) (c : ascii) (u : str) :
  last_or prev (c :: u) = last_or (Some c) u.
Proof. unfold last_or. rewrite last_cons. by destruct (last u). Qed.

Section sub_word.
Context (old new : str) (Hold : identifier old = true).

Lemma sub_word_nonword prev c s :
  is_word c = false →
  sub_word_from old new prev 0 (c :: s) = c :: sub_word_from old new (Some c) 0 s.
Proof.
  intros Hc. simpl. destruct (word_match_at old prev (c :: s)) eqn:E; [|done].
  exfalso. unfold word_match_at in E.
  destruct (strip_prefix old (c :: s)) as [r|] eqn:Es; [|done].
  apply strip_prefix_Some in Es.
  apply identifier_inv in Hold as (d & v & -> & Hd & _).
  injection Es as -> _. congruence.
Qed.

Lemma sub_word_inside prev u r :
  word_opt prev = true → forallb is_word u = true →
  sub_word_from old new prev 0 (u ++ r)
  = u ++ sub_word_from old new (last_or prev u) 0 r.
Proof.
  revert prev. induction u as [|c u IH]; intros prev Hp Hu; [done|].
  simpl in Hu. apply andb_true_iff in Hu as [Hc Hu].
  change ((c :: u) ++ r) with (c :: (u ++ r)).
  cbn [sub_word_from].
  assert (word_match_at old prev (c :: u ++ r) = false) as ->.
  { unfold word_match_at. destruct (strip_prefix old _); [|done].
    unfold boundary at 1. simpl. by rewrite Hp, Hc. }
  rewrite IH by done. by rewrite last_or_cons.
Qed.

Lemma sub_word_skip prev u r :
  sub_word_from old new prev (length u) (u ++ r)
  = sub_word_from old new (last_or prev u) 0 r.
Proof.
  revert prev. induction u as [|c u IH]; intros prev; [by destruct r|].
  simpl. rewrite IH. by rewrite last_or_cons.
Qed.

Lemma last_run_word w : identifier w = true → word_opt (last w) = true.
Proof.
  intros (c & v & -> & Hc & Hv)%identifier_inv.
  revert c Hc. induction v as [|d v IH]; intros c Hc; [done|].
  simpl in Hv. apply andb_true_iff in Hv as [Hd Hv].
  change (last (c :: d :: v)) with (last (d :: v)). by apply IH.
Qed.

Lemma sub_word_run prev w r :
  word_opt prev = false → identifier w = true → head_is is_word r = false →
  sub_word_from old new prev 0 (w ++ r)
  = rename_token old new w ++ sub_word_from old new (last w) 0 r.
Proof.
  intros Hp Hw Hr.
  pose proof Hw as (c & w' & -> & Hc & Hw')%identifier_inv.
  change ((c :: w') ++ r) with (c :: (w' ++ r)). cbn [sub_word_from].
  unfold rename_token. case_bool_decide as E.
  - assert (word_match_at old prev (c :: w' ++ r) = true) as ->.
    { unfold word_match_at.
      change (c :: w' ++ r) with ((c :: w') ++ r). rewrite E.
      rewrite strip_prefix_app. rewrite <- E at 1.
      apply andb_true_iff; split; unfold boundary.
      - simpl. by rewrite Hp, Hc.
      - rewrite (last_run_word _ Hold). destruct r as [|d r]; [done|].
        simpl in Hr. simpl. by rewrite Hr. }
    f_equal. replace (length old - 1) with (length w') by (rewrite <- E; simpl; lia).
    rewrite sub_word_skip. f_equal. rewrite last_cons.
    unfold last_or. by destruct (last w').
  - assert (word_match_at old prev (c :: w' ++ r) = false) as ->.
    { unfold word_match_at.
      destruct (strip_prefix old (c :: w' ++ r)) as [r'|] eqn:Es; [|done].
      apply strip_prefix_Some in Es.
      change (c :: w' ++ r) with ((c :: w') ++ r) in Es.
      symmetry in Es. apply app_eq_app in Es as [x [[Ho Hx]|[Hx Ho]]].
      + (* [old] goes on after the token *)
        destruct x as [|d x]; [by rewrite app_nil_r in Ho|].
        subst r. simpl in Hr.
        pose proof (identifier_forallb _ Hold) as Hall.
        rewrite Ho, forallb_app in Hall.
        apply andb_true_iff in Hall as [_ Hd]. simpl in Hd.
        apply andb_true_iff in Hd as [? _]. congruence.
      + (* the token goes on after [old] *)
        destruct x as [|d x]; [by rewrite app_nil_r in Hx|].
        subst r'. simpl.
        assert (is_word d = true) as Hd.
        { apply identifier_forallb in Hw. rewrite Hx, forallb_app in Hw.
          apply andb_true_iff in Hw as [_ Hw]. simpl in Hw.
          by apply andb_true_iff in Hw as [? _]. }
        unfold boundary at 2. cbn [word_opt]. rewrite (last_run_word _ Hold), Hd.
        simpl. by rewrite andb_false_r. }
    simpl. f_equal. rewrite sub_word_inside by (simpl; done). f_equal. f_equal.
    rewrite last_cons. unfold last_or. by destruct (last w').
Qed.

Lemma sub_word_from_tokens s prev :
  word_opt prev = false ∨ head_is is_word s = false →
  sub_word_from old new prev 0 s = concat (rename_token old new <$> tokens s).
Proof.
  revert prev. induction s as [|c s Hc IH|w r Hw Hr IH] using token_ind; intros prev Hp.
  - done.
  - rewrite sub_word_nonword, tokens_nonword by done.
    rewrite fmap_cons, rename_token_nonword by done. simpl. f_equal.
    apply IH. left. simpl. done.
  - destruct Hp as [Hp|Hp].
    2:{ apply identifier_inv in Hw as (c & w' & -> & Hc & _). simpl in Hp. congruence. }
    rewrite sub_word_run, tokens_run by done. rewrite fmap_cons. simpl. f_equal.
    apply IH. by right.
Qed.

Lemma sub_word_tokens s :
  sub_word old new s = concat (rename_token old new <$> tokens s).
Proof. apply sub_word_from_tokens. by left. Qed.

Lemma tokens_sub_word s :
  identifier new = true → tokens (sub_word old new s) = rename_token old new <$> tokens s.
Proof.
  intros Hnew. rewrite sub_word_tokens. apply tokens_concat_fmap.
  - intros w Hw. by apply rename_token_run.
  - intros c Hc. by apply rename_token_nonword.
Qed.
End sub_word.


(** ** The assignment pattern *)

Lemma assign_tail_unfold (var line : str) :
  assign_tail var line =
  match strip_prefix var (skip_ws line) with
  | Some r =>
      match skip_ws r with
      | c :: t => if Ascii.eqb c "="%char then Some t else None
      | [] => None
      end
  | None => None
  end.
Proof.
  unfold assign_tail. destruct (strip_prefix var (skip_ws line)) as [r|]; [|done].
  destruct (skip_ws r) as [|c t]; [done|].
  by destruct c as [[] [] [] [] [] [] [] []].
Qed.

Lemma strip_nonword_identifier (c : ascii) (p n r : str) :
  is_word c = false → identifier n = true → strip_prefix (c :: p) (n ++ r) = None.
Proof.
  intros Hc (d & n' & -> & Hd & _)%identifier_inv.
  destruct (strip_prefix (c :: p) ((d :: n') ++ r)) eqn:E; [|done].
  apply strip_prefix_Some in E. injection E as -> _. congruence.
Qed.

Lemma strip_nonword_word (a c : ascii) (p t : str) :
  is_word a = false → is_word c = true → strip_prefix (a :: p) (c :: t) = None.
Proof.
  intros Ha Hc. destruct (strip_prefix (a :: p) (c :: t)) eqn:E; [|done].
  apply strip_prefix_Some in E. injection E as -> _. congruence.
Qed.

Lemma assign_tail_Some (var line t : str) :
  identifier var = true →
  assign_tail var line = Some t ↔
  ∃ ws1 ws2, forallb is_space ws1 = true ∧ forallb is_space ws2 = true
             ∧ line = ws1 ++ var ++ ws2 ++ "="%char :: t.
Proof.
  intros Hv. rewrite assign_tail_unfold. split.
  - destruct (strip_prefix var (skip_ws line)) as [r|] eqn:E; [|done].
    apply strip_prefix_Some in E.
    destruct (skip_ws r) as [|c t'] eqn:Er; [done|].
    destruct (Ascii.eqb c "="%char) eqn:Ec; [|done].
    apply ascii_eqb_true in Ec as ->. intros [= ->].
    exists (take_ws line), (take_ws r). repeat split; try apply take_ws_spaces.
    rewrite <- Er, take_skip_ws, <- E. by rewrite take_skip_ws.
  - intros (ws1 & ws2 & H1 & H2 & ->).
    rewrite skip_ws_app by done.
    rewrite skip_ws_id by (by apply head_is_app_word).
    rewrite strip_prefix_app, skip_ws_app by done. done.
Qed.

Lemma is_assignment_like_true (var line : str) :
  identifier var = true →
  is_assignment_like var line = true ↔
  ∃ ws1 ws2 t, forallb is_space ws1 = true ∧ forallb is_space ws2 = true
               ∧ line = ws1 ++ var ++ ws2 ++ "="%char :: t.
Proof.
  intros Hv. unfold is_assignment_like.
  destruct (assign_tail var line) as [t|] eqn:E.
  - apply assign_tail_Some in E as (ws1 & ws2 & ? & ? & ?); [|done].
    split; [|done]. intros _. by exists ws1, ws2, t.
  - split; [done|]. intros (ws1 & ws2 & t & ? & ? & ?).
    assert (assign_tail var line = Some t) as E'; [|congruence].
    apply assign_tail_Some; [done|]. by exists ws1, ws2.
Qed.

Lemma is_assignment_is_like (var line : str) :
  is_assignment var line = true → is_assignment_like var line = true.
Proof.
  unfold is_assignment, is_assignment_like. by destruct (assign_tail var line).
Qed.

(** The shape of an assignment-like line: leading whitespace, the name,
    and a remainder that starts with whitespace or [=]. *)
Lemma is_assignment_like_shape (var line : str) :
  is_assignment_like var line = true →
  ∃ r, strip_prefix var (skip_ws line) = Some r
       ∧ line = take_ws line ++ var ++ r
       ∧ head_is is_word r = false.
Proof.
  unfold is_assignment_like. rewrite assign_tail_unfold.
  destruct (strip_prefix var (skip_ws line)) as [r|] eqn:E; [|done].
  intros H. exists r. split; [done|]. split.
  - apply strip_prefix_Some in E. rewrite <- E. by rewrite take_skip_ws.
  - destruct r as [|c r]; [done|]. simpl in *.
    destruct (is_space c) eqn:Ec; [by apply space_not_word|].
    destruct (Ascii.eqb c "="%char) eqn:Ee; [|done].
    by apply ascii_eqb_true in Ee as ->.
Qed.

Lemma sub_assignment_shape (var new line : str) :
  is_assignment_like var line = true →
  ∃ r, line = take_ws line ++ var ++ r
       ∧ sub_assignment var new line = take_ws line ++ new ++ r
       ∧ head_is is_word r = false.
Proof.
  intros H. destruct (is_assignment_like_shape _ _ H) as (r & E & Hl & Hr).
  exists r. unfold sub_assignment. by rewrite H, E.
Qed.

(** A line that starts with one identifier does not start with another. *)
Lemma strip_other_identifier (var new r r' : str) :
  identifier var = true → identifier new = true → new ≠ var →
  head_is is_word r = false →
  strip_prefix var (new ++ r) = Some r' → head_is is_word r' = true.
Proof.
  intros Hv Hn Hne Hr E. apply strip_prefix_Some in E.
  apply app_eq_app in E as [x [[Hx Ho]|[Ho Hx]]].
  - destruct x as [|d x]; [by rewrite app_nil_r in Hx|]. subst r'. simpl.
    apply identifier_forallb in Hn.
    rewrite Hx, forallb_app in Hn. apply andb_true_iff in Hn as [_ Hd].
    simpl in Hd. by apply andb_true_iff in Hd as [? _].
  - destruct x as [|d x]; [by rewrite app_nil_r in Ho|]. subst r.
    simpl in Hr. apply identifier_forallb in Hv.
    rewrite Ho, forallb_app in Hv. apply andb_true_iff in Hv as [_ Hd].
    simpl in Hd. apply andb_true_iff in Hd as [? _]. congruence.
Qed.

Lemma skip_ws_word_head (r : str) : head_is is_word r = true → skip_ws r = r.
Proof.
  destruct r as [|c r]; [done|]. simpl. intros H. by rewrite (word_not_space _ H).
Qed.

(** A renamed assignment is no assignment to the variable any more, and
    no final reference to it. *)
Lemma renamed_line_inert (var new r ws : str) :
  identifier var = true → identifier new = true → new ≠ var →
  forallb is_space ws = true → head_is is_word r = false →
  is_assignment_like var (ws ++ new ++ r) = false
  ∧ is_final_reference var (ws ++ new ++ r) = false.
Proof.
  intros Hv Hn Hne Hws Hr.
  assert (skip_ws (ws ++ new ++ r) = new ++ r) as Hskip.
  { rewrite skip_ws_app by done. apply skip_ws_id. by apply head_is_app_word. }
  assert (∀ r', strip_prefix var (new ++ r) = Some r' →
                ∃ c t, skip_ws r' = c :: t ∧ is_word c = true) as Hword.
  { intros r' E. pose proof (strip_other_identifier _ _ _ _ Hv Hn Hne Hr E) as H.
    rewrite (skip_ws_word_head _ H). destruct r' as [|c t]; [done|]. eauto. }
  split.
  - unfold is_assignment_like. rewrite assign_tail_unfold, Hskip.
    destruct (strip_prefix var (new ++ r)) as [r'|] eqn:E; [|done].
    destruct (Hword _ eq_refl) as (c & t & -> & Hc).
    destruct (Ascii.eqb c "="%char) eqn:Ee; [|done].
    apply ascii_eqb_true in Ee as ->. done.
  - unfold is_final_reference, is_bare_reference, is_piped_reference,
      is_ok_tuple_reference. rewrite Hskip.
    change (lit "{") with ["{"%char].
    rewrite (strip_nonword_identifier "{"%char [] new r) by done.
    destruct (strip_prefix var (new ++ r)) as [r'|] eqn:E; [|done].
    destruct (Hword _ eq_refl) as (c & t & -> & Hc).
    unfold starts_with. change (lit "|>") with ["|"%char; ">"%char].
    by rewrite strip_nonword_word.
Qed.

Lemma sub_assignment_inert (var new line : str) :
  identifier var = true → identifier new = true → new ≠ var →
  is_assignment_like var line = true →
  is_assignment_like var (sub_assignment var new line) = false
  ∧ is_final_reference var (sub_assignment var new line) = false.
Proof.
  intros Hv Hn Hne H.
  destruct (sub_assignment_shape var new line H) as (r & _ & -> & Hr).
  apply renamed_line_inert; try done. apply take_ws_spaces.
Qed.

(** The final loop never picks a line that looks like an assignment. *)
Lemma final_reference_not_assignment (var line : str) :
  identifier var = true →
  is_final_reference var line = true → is_assignment_like var line = false.
Proof.
  intros Hv. unfold is_final_reference, is_bare_reference, is_piped_reference,
    is_ok_tuple_reference, is_assignment_like. rewrite assign_tail_unfold.
  destruct (strip_prefix var (skip_ws line)) as [r|] eqn:E; [|done].
  assert (strip_prefix (lit "{") (skip_ws line) = None) as ->.
  { apply strip_prefix_Some in E. rewrite E.
    change (lit "{") with ["{"%char]. by apply strip_nonword_identifier. }
  rewrite orb_false_r. unfold starts_with.
  destruct (skip_ws r) as [|c t]; [done|].
  destruct (Ascii.eqb c "="%char) eqn:Ee; [|done].
  apply ascii_eqb_true in Ee as ->. done.
Qed.

(** ** [sub_word] on lines that are no assignments *)

Lemma concat_singletons (ws : str) : concat ((fun c => [c]) <$> ws) = ws.
Proof. induction ws as [|c ws IH]; [done|]. csimpl. by rewrite IH. Qed.

Lemma rename_token_eq_nonword (old new t : str) (c : ascii) :
  identifier new = true → is_word c = false →
  rename_token old new t = [c] → t = [c].
Proof.
  intros Hn Hc. unfold rename_token. case_bool_decide; [|done].
  intros ->. simpl in Hn. rewrite Hc in Hn. done.
Qed.

Lemma fmap_rename_singletons (old new : str) (T : list str) (ws : str) :
  identifier new = true →
  forallb (fun c => negb (is_word c)) ws = true →
  rename_token old new <$> T = (fun c => [c]) <$> ws →
  T = (fun c => [c]) <$> ws.
Proof.
  intros Hn. revert T. induction ws as [|c ws IH]; intros T Hws E.
  - by apply fmap_nil_inv in E.
  - simpl in Hws. apply andb_true_iff in Hws as [Hc%negb_true_iff Hws].
    rewrite fmap_cons in E. apply fmap_cons_inv in E as (t & T' & Ht & HT & ->).
    symmetry in Ht. apply rename_token_eq_nonword in Ht as ->; [|done..].
    rewrite fmap_cons. f_equal. apply IH; done.
Qed.

Lemma tokens_assignment_like (var ws1 ws2 t : str) :
  identifier var = true →
  forallb is_space ws1 = true → forallb is_space ws2 = true →
  tokens (ws1 ++ var ++ ws2 ++ "="%char :: t)
  = ((fun c => [c]) <$> ws1) ++ var :: ((fun c => [c]) <$> ws2) ++ ["="%char] :: tokens t.
Proof.
  intros Hv H1 H2.
  rewrite tokens_nonword_prefix by by apply spaces_nonword.
  rewrite tokens_run; [|done|].
  - rewrite tokens_nonword_prefix by by apply spaces_nonword.
    by rewrite tokens_nonword.
  - destruct ws2 as [|c ws2]; [done|]. simpl in *.
    apply andb_true_iff in H2 as [Hc _]. by apply space_not_word.
Qed.

(** Replacing whole words never turns a line into an assignment to
    [var], unless the new word is [var]. *)
Lemma sub_word_not_assignment (var old new line : str) :
  identifier var = true → identifier old = true → identifier new = true →
  new ≠ var →
  is_assignment_like var line = false →
  is_assignment_like var (sub_word old new line) = false.
Proof.
  intros Hv Ho Hn Hne Hline.
  destruct (is_assignment_like var (sub_word old new line)) eqn:E; [|done].
  exfalso. apply is_assignment_like_true in E as (ws1 & ws2 & t & H1 & H2 & E); [|done].
  pose proof (tokens_sub_word old new Ho line Hn) as Htok.
  rewrite E, tokens_assignment_like in Htok by done.
  symmetry in Htok.
  apply fmap_app_inv in Htok as (T1 & T' & HT1 & HT' & Hl).
  symmetry in HT'.
  apply fmap_cons_inv in HT' as (t0 & T'' & Ht0 & HT'' & ->).
  symmetry in HT''.
  apply fmap_app_inv in HT'' as (T2 & T''' & HT2 & HT''' & ->).
  symmetry in HT'''.
  apply fmap_cons_inv in HT''' as (e & T3 & He & _ & ->).
  symmetry in HT1, HT2.
  apply fmap_rename_singletons in HT1; [|done|by apply spaces_nonword].
  apply fmap_rename_singletons in HT2; [|done|by apply spaces_nonword].
  symmetry in He. apply rename_token_eq_nonword in He; [|done..].
  assert (t0 = var) as ->.
  { unfold rename_token in Ht0. case_bool_decide; congruence. }
  subst T1 T2 e.
  assert (is_assignment_like var line = true); [|congruence].
  apply is_assignment_like_true; [done|].
  exists ws1, ws2, (concat T3). repeat split; try done.
  rewrite <- (concat_tokens line), Hl.
  rewrite concat_app, concat_cons, concat_app, concat_cons.
  by rewrite !concat_singletons.
Qed.


(** ** The scanner *)

Lemma scan_from_elem (var : str) (lines : list str) (i j : nat) :
  j ∈ scan_from var i lines ↔
  ∃ l, i ≤ j ∧ lines !! (j - i) = Some l ∧ is_assignment var l = true.
Proof.
  revert i. induction lines as [|line rest IH]; intros i; simpl.
  - split; [by intros ?%elem_of_nil|]. by intros (l & _ & ? & _).
  - assert (j ∈ scan_from var (S i) rest ↔
            ∃ l, i < j ∧ (line :: rest) !! (j - i) = Some l ∧ is_assignment var l = true) as IH'.
    { rewrite IH. split; intros (l & Hle & Hl & Ha); exists l; (split; [lia|]); split; try done.
      - replace (j - i) with (S (j - S i)) by lia. done.
      - replace (j - i) with (S (j - S i)) in Hl by lia. done. }
    destruct (is_assignment var line) eqn:E.
    + rewrite elem_of_cons, IH'. split.
      * intros [->|(l & ? & ? & ?)].
        -- exists line. rewrite Nat.sub_diag. done.
        -- exists l. split; [lia|done].
      * intros (l & Hle & Hl & Ha).
        destruct (decide (j = i)) as [->|]; [by left|].
        right. exists l. split; [lia|done].
    + rewrite IH'. split.
      * intros (l & ? & ? & ?). exists l. split; [lia|done].
      * intros (l & Hle & Hl & Ha).
        destruct (decide (j = i)) as [->|].
        -- rewrite Nat.sub_diag in Hl. simpl in Hl. congruence.
        -- exists l. split; [lia|done].
Qed.

Lemma scan_from_sorted (var : str) (lines : list str) (i : nat) :
  StronglySorted lt (scan_from var i lines).
Proof.
  revert i. induction lines as [|line rest IH]; intros i; simpl; [constructor|].
  destruct (is_assignment var line); [|done].
  constructor; [done|]. apply Forall_forall. intros j Hj.
  apply scan_from_elem in Hj as (l & ? & _). lia.
Qed.

Lemma find_assignment_lines_elem (var : str) (lines : list str) (j : nat) :
  j ∈ find_assignment_lines var lines ↔
  ∃ l, lines !! j = Some l ∧ is_assignment var l = true.
Proof.
  unfold find_assignment_lines. rewrite scan_from_elem.
  rewrite Nat.sub_0_r. split.
  - intros (l & _ & ? & ?). eauto.
  - intros (l & ? & ?). exists l. split; [lia|done].
Qed.

Lemma find_assignment_lines_bound (var : str) (lines : list str) :
  Forall (fun a => a < length lines) (find_assignment_lines var lines).
Proof.
  apply Forall_forall. intros j (l & Hl & _)%find_assignment_lines_elem.
  by eapply lookup_lt_Some.
Qed.


(** ** The loops of [fix_function_variable] *)

Lemma update_references_spec (var cur new : str) (js : list nat) (lines : list str) :
  NoDup js → Forall (fun j => j < length lines) js →
  ∃ lines', update_references var cur new js lines = Some lines'
    ∧ length lines' = length lines
    ∧ (∀ j, j ∈ js → lines' !! j = update_line var cur new <$> lines !! j)
    ∧ (∀ j, j ∉ js → lines' !! j = lines !! j).
Proof.
  revert lines. induction js as [|j js IH]; intros lines Hnd Hlt.
  - exists lines. repeat split; try done. by intros j ?%elem_of_nil.
  - apply NoDup_cons in Hnd as [Hj Hnd]. apply Forall_cons in Hlt as [Hjlt Hlt].
    destruct (lookup_lt_is_Some_2 lines j Hjlt) as [line Hline].
    simpl. rewrite Hline. simpl.
    set (lines1 := if is_assignment_like var line then lines
                   else <[j:=sub_word cur new line]> lines).
    assert (lines1 = <[j := update_line var cur new line]> lines) as Hlines1.
    { unfold lines1, update_line. destruct (is_assignment_like var line); [|done].
      by rewrite list_insert_id. }
    clearbody lines1. subst lines1.
    destruct (IH (<[j := update_line var cur new line]> lines)) as (lines' & -> & Hlen & Hin & Hout);
      [done|by rewrite length_insert|].
    exists lines'. split; [done|]. rewrite length_insert in Hlen. split; [done|]. split.
    + intros j0 Hj0. destruct (decide (j0 = j)) as [->|Hne].
      * rewrite Hout by done. rewrite list_lookup_insert_eq by done. by rewrite Hline.
      * apply elem_of_cons in Hj0 as [?|Hj0]; [done|].
        rewrite Hin by done. by rewrite list_lookup_insert_ne.
    + intros j0 Hj0. apply not_elem_of_cons in Hj0 as [Hne Hj0].
      rewrite Hout by done. by rewrite list_lookup_insert_ne.
Qed.

Lemma py_range_elem (start stop j : nat) : j ∈ py_range start stop ↔ start ≤ j < stop.
Proof. unfold py_range. rewrite elem_of_seq. lia. Qed.

Lemma rename_assignments_spec (var : str) (reps : list str) :
  ∀ (sites : list nat) (idx : nat) (lines : list str) (cur : str),
  StronglySorted lt sites → Forall (fun a => a < length lines) sites →
  cur ∈ var :: reps →
  ∃ lines' cur', rename_assignments var reps idx sites lines cur = Some (lines', cur')
    ∧ length lines' = length lines
    ∧ (∀ k a, sites !! k = Some a →
         lines' !! a
         = (fun l => match reps !! (idx + k) with
                     | Some n => sub_assignment var n l
                     | None => l
                     end) <$> lines !! a)
    ∧ (∀ j l, j ∉ sites → lines !! j = Some l →
         ∃ l', lines' !! j = Some l' ∧ rewrites var reps l l')
    ∧ (∀ j, (∀ a, a ∈ sites → j < a) → lines' !! j = lines !! j).
Proof.
  induction sites as [|a rest IH]; intros idx lines cur Hsort Hlt Hcur.
  - exists lines, cur. repeat split; try done.
    intros j l _ Hl. exists l. split; [done|constructor].
  - apply StronglySorted_inv in Hsort as [Hsort Hrest].
    apply Forall_cons in Hlt as [Halt Hlt].
    rewrite Forall_forall in Hrest.
    cbn [rename_assignments].
    destruct (length reps <=? idx) eqn:Hidx.
    { apply Nat.leb_le in Hidx. exists lines, cur. repeat split; try done.
      - intros k a' Hk. rewrite (lookup_ge_None_2 reps (idx + k)) by lia.
        by destruct (lines !! a').
      - intros j l _ Hl. exists l. split; [done|constructor]. }
    apply Nat.leb_gt in Hidx.
    destruct (lookup_lt_is_Some_2 reps idx Hidx) as [new Hnew].
    destruct (lookup_lt_is_Some_2 lines a Halt) as [line Hline].
    rewrite Hnew, Hline. cbn [mbind option_bind].
    set (lines1 := <[a := sub_assignment var new line]> lines).
    set (end_line := match rest with next :: _ => next | [] => length lines1 end).
    assert (length lines1 = length lines) as Hlen1 by apply length_insert.
    assert (end_line ≤ length lines) as Hend.
    { unfold end_line. destruct rest as [|next rest']; [lia|].
      apply Forall_cons in Hlt as [? _]. lia. }
    assert (∀ a', a' ∈ rest → end_line ≤ a' ∧ a < a') as Hafter.
    { intros a' Ha'. split; [|by apply Hrest].
      unfold end_line. destruct rest as [|next rest']; [by apply elem_of_nil in Ha'|].
      apply elem_of_cons in Ha' as [->|Ha']; [done|].
      apply StronglySorted_inv in Hsort as [_ Hnext].
      rewrite Forall_forall in Hnext. specialize (Hnext _ Ha'). lia. }
    destruct (update_references_spec var cur new (py_range (a + 1) end_line) lines1)
      as (lines2 & -> & Hlen2 & Hin2 & Hout2).
    { apply NoDup_seq. }
    { apply Forall_forall. intros j Hj%py_range_elem. lia. }
    cbn [mbind option_bind].
    assert (new ∈ reps) as Hnewin by by eapply list_elem_of_lookup_2.
    destruct (IH (S idx) lines2 new) as (lines' & cur' & -> & Hlen' & Hsites' & Hother' & Hbefore');
      [done| |by right|].
    { eapply Forall_impl; [exact Hlt|]. simpl. intros. lia. }
    exists lines', cur'. split; [done|]. split; [lia|]. split; [|split].
    + intros k a' Hk. destruct k as [|k]; simpl in Hk.
      * injection Hk as <-. rewrite Hbefore'.
        2:{ intros a' Ha'. by apply Hafter. }
        rewrite Hout2. 2:{ rewrite py_range_elem. lia. }
        unfold lines1. rewrite list_lookup_insert_eq by done.
        by rewrite Nat.add_0_r, Hnew, Hline.
      * assert (a' ∈ rest) as Ha' by by eapply list_elem_of_lookup_2.
        destruct (Hafter _ Ha') as [? ?].
        rewrite (Hsites' _ _ Hk).
        rewrite Hout2. 2:{ rewrite py_range_elem. lia. }
        unfold lines1. rewrite list_lookup_insert_ne by lia.
        by replace (S idx + k) with (idx + S k) by lia.
    + intros j l Hj Hl. apply not_elem_of_cons in Hj as [Hja Hj].
      assert (lines1 !! j = Some l) as Hl1.
      { unfold lines1. by rewrite list_lookup_insert_ne. }
      destruct (decide (j ∈ py_range (a + 1) end_line)) as [Hin|Hout].
      * rewrite Hbefore'.
        2:{ intros a' Ha'. apply py_range_elem in Hin. destruct (Hafter _ Ha'). lia. }
        rewrite (Hin2 _ Hin), Hl1. simpl. eexists; split; [done|].
        unfold update_line. destruct (is_assignment_like var l) eqn:E; [constructor|].
        apply rewrites_word; try done. constructor.
      * rewrite <- (Hout2 _ Hout) in Hl1.
        apply (Hother' _ _ Hj Hl1).
    + intros j Hj.
      assert (j < a) as Hja by (apply Hj; left).
      rewrite Hbefore'. 2:{ intros a' Ha'. apply Hj. by right. }
      rewrite Hout2. 2:{ rewrite py_range_elem. lia. }
      unfold lines1. by rewrite list_lookup_insert_ne by lia.
Qed.

Lemma fix_final_reference_spec (var final : str) (indices : list nat) (lines : list str) :
  Forall (fun i => i < length lines) indices →
  ∃ lines', fix_final_reference var final indices lines = Some lines'
    ∧ (lines' = lines
       ∨ ∃ i l, i ∈ indices ∧ lines !! i = Some l
                ∧ is_final_reference var l = true
                ∧ lines' = <[i := sub_word var final l]> lines).
Proof.
  induction indices as [|i rest IH]; intros Hlt.
  - exists lines. split; [done|by left].
  - apply Forall_cons in Hlt as [Hi Hlt].
    destruct (lookup_lt_is_Some_2 lines i Hi) as [l Hl].
    simpl. rewrite Hl. simpl.
    destruct (is_final_reference var l) eqn:E.
    + eexists. split; [done|]. right. exists i, l. repeat split; try done. left.
    + destruct (IH Hlt) as (lines' & -> & H). exists lines'. split; [done|].
      destruct H as [->|(i' & l' & ? & ? & ? & ->)]; [by left|].
      right. exists i', l'. repeat split; try done. by right.
Qed.

Lemma py_range_down_bound (n : nat) : Forall (fun i => i < n) (py_range_down n).
Proof.
  apply Forall_forall. intros i. unfold py_range_down.
  rewrite list_elem_of_In, <- in_rev, <- list_elem_of_In, elem_of_seq. lia.
Qed.

Lemma py_range_down_S (n : nat) : py_range_down (S n) = n :: py_range_down n.
Proof. unfold py_range_down. by rewrite seq_S, rev_app_distr. Qed.

(** The final loop rewrites the last line that is a standalone reference,
    wherever it stands, and no other line. *)
Lemma final_loop_first_match (var final : str) (lines : list str) (k : nat) :
  k ≤ length lines →
  (fix_final_reference var final (py_range_down k) lines = Some lines
   ∧ ∀ i l, i < k → lines !! i = Some l → is_final_reference var l = false)
  ∨ (∃ i l, i < k ∧ lines !! i = Some l ∧ is_final_reference var l = true
            ∧ (∀ j l', i < j < k → lines !! j = Some l' →
                 is_final_reference var l' = false)
            ∧ fix_final_reference var final (py_range_down k) lines
              = Some (<[i := sub_word var final l]> lines)).
Proof.
  induction k as [|k IH]; intros Hk.
  - left. split; [done|]. intros i l Hi. lia.
  - rewrite py_range_down_S. cbn [fix_final_reference].
    destruct (lookup_lt_is_Some_2 lines k) as [l Hl]; [lia|].
    rewrite Hl. cbn [mbind option_bind].
    destruct (is_final_reference var l) eqn:E.
    + right. exists k, l. repeat split; try done; [lia|]. intros j l' Hj. lia.
    + destruct IH as [[Hsame Hnone]|(i & li & Hi & Hli & Hfin & Hafter & Hres)]; [lia| |].
      * left. split; [done|]. intros i li Hi Hli.
        destruct (decide (i = k)) as [->|]; [congruence|]. apply (Hnone i); [lia|done].
      * right. exists i, li. repeat split; try done; [lia|].
        intros j l' Hj Hl'. destruct (decide (j = k)) as [->|]; [congruence|].
        apply (Hafter j); [lia|done].
Qed.

Lemma py_getitem_min {A} (l : list A) (m : nat) :
  l ≠ [] → 1 ≤ m →
  ∃ x, py_getitem l (Z.min (Z.of_nat m - 1) (Z.of_nat (length l) - 1)) = Some x
       ∧ x ∈ l.
Proof.
  intros Hl Hm. unfold py_getitem.
  assert (0 < length l) by (destruct l; [done|simpl; lia]).
  destruct (Z.ltb_spec (Z.min (Z.of_nat m - 1) (Z.of_nat (length l) - 1)) 0); [lia|].
  destruct (lookup_lt_is_Some_2 l
    (Z.to_nat (Z.min (Z.of_nat m - 1) (Z.of_nat (length l) - 1)))) as [x Hx]; [lia|].
  exists x. split; [done|]. by eapply list_elem_of_lookup_2.
Qed.

(** ** What one line can become *)

Lemma identifier_no_newline (n : str) : identifier n = true → no_newline n.
Proof.
  intros H%identifier_forallb Hin. rewrite forallb_forall in H.
  apply list_elem_of_In in Hin. by specialize (H _ Hin).
Qed.

Lemma sub_word_no_newline (old new l : str) :
  identifier old = true → identifier new = true →
  no_newline l → no_newline (sub_word old new l).
Proof.
  intros Ho Hn Hl Hin. rewrite sub_word_tokens in Hin by done.
  apply list_elem_of_In, in_concat in Hin as (t & Ht & Hin).
  apply list_elem_of_In, list_elem_of_fmap in Ht as (t0 & -> & Ht0).
  apply list_elem_of_In in Hin. unfold rename_token in Hin. case_bool_decide.
  - by apply (identifier_no_newline new).
  - apply Hl. rewrite <- (concat_tokens l).
    apply list_elem_of_In, in_concat. exists t0. by rewrite <- !list_elem_of_In.
Qed.

Lemma sub_assignment_no_newline (var new l : str) :
  identifier new = true → no_newline l → no_newline (sub_assignment var new l).
Proof.
  intros Hn Hl. destruct (is_assignment_like var l) eqn:E.
  - destruct (sub_assignment_shape var new l E) as (r & Hline & -> & _).
    unfold no_newline in *. rewrite Hline in Hl.
    rewrite !elem_of_app in *. intros [?|[?|?]]; [tauto| |tauto].
    by apply (identifier_no_newline new).
  - unfold sub_assignment. by rewrite E.
Qed.

Lemma occurrences_sub_word (other old new l : str) :
  identifier old = true → identifier new = true →
  other ≠ old → other ≠ new →
  occurrences other (sub_word old new l) = occurrences other l.
Proof.
  intros Ho Hn H1 H2. unfold occurrences. rewrite tokens_sub_word by done.
  rewrite <- list_fmap_compose. apply list_fmap_ext. intros _ t _. simpl.
  unfold rename_token. repeat case_bool_decide; congruence.
Qed.

Lemma occurrences_sub_assignment (other var new l : str) :
  identifier var = true → identifier new = true →
  other ≠ var → other ≠ new →
  occurrences other (sub_assignment var new l) = occurrences other l.
Proof.
  intros Hv Hn H1 H2. destruct (is_assignment_like var l) eqn:E.
  - destruct (sub_assignment_shape var new l E) as (r & Hline & -> & Hr).
    pose proof (spaces_nonword _ (take_ws_spaces l)) as Hws.
    revert Hline Hws. generalize (take_ws l). intros ws -> Hws.
    unfold occurrences.
    rewrite (tokens_nonword_prefix ws (new ++ r)), (tokens_nonword_prefix ws (var ++ r)) by done.
    rewrite (tokens_run new r), (tokens_run var r) by done.
    rewrite !fmap_app, !fmap_cons. f_equal. f_equal.
    repeat case_bool_decide; congruence.
  - unfold sub_assignment. by rewrite E.
Qed.

Section rewrites.
Context (var : str) (reps : list str).
Context (Hvar : identifier var = true) (Hreps : names_ok var reps).

Lemma replacement_identifier n : n ∈ reps → identifier n = true ∧ n ≠ var.
Proof.
  destruct Hreps as (_ & Hid & Hnotin). rewrite Forall_forall in Hid.
  intros Hn. split; [by apply Hid|]. by intros ->.
Qed.

Lemma old_name_identifier n : n ∈ var :: reps → identifier n = true.
Proof. intros [->|Hn]%elem_of_cons; [done|]. by apply replacement_identifier. Qed.

Lemma rewrites_not_assignment l l' :
  rewrites var reps l l' →
  is_assignment_like var l = false → is_assignment_like var l' = false.
Proof.
  destruct 1 as [|old new l l' _ Hl' Hold Hnew]; [done|]. intros _.
  destruct (replacement_identifier _ Hnew).
  apply sub_word_not_assignment; try done. by apply old_name_identifier.
Qed.

Lemma rewrites_occurrences other l l' :
  other ∉ var :: reps →
  rewrites var reps l l' → occurrences other l' = occurrences other l.
Proof.
  intros Hother. induction 1 as [|old new l l' _ IH Hl' Hold Hnew]; [done|].
  destruct (replacement_identifier _ Hnew).
  rewrite occurrences_sub_word; try done.
  - by apply old_name_identifier.
  - intros ->. done.
  - intros ->. apply Hother. by right.
Qed.

Lemma rewrites_no_newline l l' :
  rewrites var reps l l' → no_newline l → no_newline l'.
Proof.
  induction 1 as [|old new l l' _ IH Hl' Hold Hnew]; [done|]. intros Hl.
  destruct (replacement_identifier _ Hnew).
  apply sub_word_no_newline; try done; [by apply old_name_identifier|by apply IH].
Qed.

(** The lines [fix_function_variable] returns, one by one. *)
Lemma fix_function_variable_lines (func : str) :
  let lines := split_lines func in
  let sites := find_assignment_lines var lines in
  1 < length sites →
  ∃ lines2,
    fix_function_variable func var reps = Some (join_lines lines2)
    ∧ length lines2 = length lines
    ∧ (∀ k a, sites !! k = Some a →
         lines2 !! a
         = (fun l => match reps !! k with
                     | Some n => sub_assignment var n l
                     | None => l
                     end) <$> lines !! a)
    ∧ (∀ j l, j ∉ sites → lines !! j = Some l →
         ∃ l', lines2 !! j = Some l' ∧ rewrites var reps l l').
Proof.
  intros lines sites Hlen. unfold fix_function_variable.
  fold lines. fold sites.
  destruct (Nat.leb_spec (length sites) 1) as [|_]; [lia|].
  destruct (rename_assignments_spec var reps sites 0 lines var)
    as (lines1 & cur' & -> & Hlen1 & Hsites & Hother & _).
  { apply scan_from_sorted. }
  { apply find_assignment_lines_bound. }
  { left. }
  cbn [Nat.add] in Hsites. cbn [mbind option_bind].
  destruct Hreps as (Hne & _ & _).
  destruct (py_getitem_min reps (length sites) Hne) as (final & -> & Hfinal); [lia|].
  cbn [mbind option_bind].
  destruct (fix_final_reference_spec var final (py_range_down (length lines1)) lines1)
    as (lines2 & -> & Hfin).
  { apply py_range_down_bound. }
  cbn [mbind option_bind].
  exists lines2. split; [done|].
  destruct Hfin as [->|(i & li & _ & Hli & Hfinref & ->)].
  { repeat split; try done. }
  split; [by rewrite length_insert|]. split.
  - intros k a Hk. rewrite <- (Hsites _ _ Hk).
    apply list_lookup_insert_ne. intros ->.
    assert (a ∈ sites) as Ha by by eapply list_elem_of_lookup_2.
    apply find_assignment_lines_elem in Ha as (l0 & Hl0 & Hassign).
    apply is_assignment_is_like in Hassign.
    rewrite (Hsites _ _ Hk), Hl0 in Hli. simpl in Hli. injection Hli as <-.
    destruct (reps !! k) as [n|] eqn:En.
    + destruct (replacement_identifier n) as [? ?]; [by eapply list_elem_of_lookup_2|].
      destruct (sub_assignment_inert var n l0) as [_ ?]; try done. congruence.
    + pose proof (final_reference_not_assignment _ _ Hvar Hfinref). congruence.
  - intros j l Hj Hl. destruct (Hother _ _ Hj Hl) as (l1 & Hl1 & Hrw).
    destruct (decide (j = i)) as [->|Hne'].
    + rewrite list_lookup_insert_eq by by eapply lookup_lt_Some.
      eexists. split; [done|].
      assert (li = l1) as -> by congruence.
      apply rewrites_word; try done; [|left].
      by apply final_reference_not_assignment.
    + rewrite list_lookup_insert_ne by done. eauto.
Qed.

(** The lines returned hold no line break, so splitting the result
    gives them back. *)
Lemma fix_function_variable_split (func : str) :
  let lines := split_lines func in
  let sites := find_assignment_lines var lines in
  1 < length sites →
  ∃ lines2,
    fix_function_variable func var reps = Some (join_lines lines2)
    ∧ split_lines (join_lines lines2) = lines2
    ∧ length lines2 = length lines
    ∧ (∀ k a, sites !! k = Some a →
         lines2 !! a
         = (fun l => match reps !! k with
                     | Some n => sub_assignment var n l
                     | None => l
                     end) <$> lines !! a)
    ∧ (∀ j l, j ∉ sites → lines !! j = Some l →
         ∃ l', lines2 !! j = Some l' ∧ rewrites var reps l l').
Proof.
  intros lines sites Hlen.
  destruct (fix_function_variable_lines func Hlen) as (lines2 & Hf & Hl2 & Hs & Ho).
  subst lines sites.
  exists lines2. repeat split; try done.
  apply split_join_lines.
  - intros ->. pose proof (split_lines_nonempty func) as Hne.
    destruct (split_lines func); [done|]. done.
  - apply Forall_lookup. intros j l2 Hl2j.
    assert (is_Some (split_lines func !! j)) as [l Hl].
    { apply lookup_lt_is_Some. rewrite <- Hl2. by eapply lookup_lt_Some. }
    assert (no_newline l) as Hnl.
    { pose proof (split_lines_no_newline func) as Hall.
      rewrite Forall_lookup in Hall. by eapply Hall. }
    destruct (decide (j ∈ find_assignment_lines var (split_lines func))) as [Hin|Hout].
    + apply list_elem_of_lookup in Hin as (k & Hk).
      rewrite (Hs _ _ Hk), Hl in Hl2j. simpl in Hl2j. injection Hl2j as <-.
      destruct (reps !! k) as [n|] eqn:En; [|done].
      apply sub_assignment_no_newline; [|done].
      apply replacement_identifier. by eapply list_elem_of_lookup_2.
    + destruct (Ho _ _ Hout Hl) as (l' & Hl' & Hrw).
      assert (l2 = l') as -> by congruence.
      by eapply rewrites_no_newline.
Qed.
End rewrites.


(** ** The naming strategies *)

Lemma naming_strategies_ok :
  Forall (fun kv => names_ok kv.1 kv.2) naming_strategies.
Proof. apply (bool_decide_unpack _). by vm_compute. Qed.

Lemma dict_get_elem {V} (d : list (str * V)) (k : str) (v : V) :
  dict_get d k = Some v → (k, v) ∈ d.
Proof.
  induction d as [|[k' v'] d IH]; [done|]. simpl.
  case_bool_decide as E.
  - intros [= ->]. subst k'. left.
  - intros H. right. by apply IH.
Qed.



Lemma replacements_for_nonempty (var : str) : replacements_for var ≠ [].
Proof.
  unfold replacements_for.
  destruct (dict_get naming_strategies var) as [reps|] eqn:E; simpl; [|done].
  apply dict_get_elem in E. pose proof naming_strategies_ok as H.
  rewrite Forall_forall in H. apply (H _ E).
Qed.

(** ** The scanner, line by line *)





(** ** The rewriter on one region *)

Lemma few_sites_unchanged (func var : str) (reps : list str) :
  length (find_assignment_lines var (split_lines func)) ≤ 1 →
  fix_function_variable func var reps = Some func.
Proof.
  intros H. unfold fix_function_variable.
  by destruct (Nat.leb_spec (length (find_assignment_lines var (split_lines func))) 1); [|lia].
Qed.

Lemma rewrites_keeps_or_inert (var : str) (reps : list str) (l l' : str) :
  identifier var = true → names_ok var reps →
  rewrites var reps l l' → l' = l ∨ is_assignment_like var l' = false.
Proof.
  intros Hv Hreps. destruct 1 as [|old new l l' _ Hl' Hold Hnew]; [by left|]. right.
  destruct (replacement_identifier var reps Hreps _ Hnew).
  apply sub_word_not_assignment; try done.
  by apply (old_name_identifier var reps Hv Hreps).
Qed.

(** After one pass, the assignment sites left are the ones beyond the
    replacement names. *)
Lemma sites_after_rewrite (func var : str) (reps : list str) :
  identifier var = true → names_ok var reps →
  let sites := find_assignment_lines var (split_lines func) in
  1 < length sites →
  ∃ out, fix_function_variable func var reps = Some out
    ∧ ∀ j, j ∈ find_assignment_lines var (split_lines out) → j ∈ drop (length reps) sites.
Proof.
  intros Hv Hreps sites Hlen.
  destruct (fix_function_variable_split var reps Hv Hreps func Hlen)
    as (lines2 & Hf & Hsplit & Hlen2 & Hs & Ho).
  exists (join_lines lines2). split; [done|]. rewrite Hsplit.
  intros j (l2 & Hl2 & Hassign)%find_assignment_lines_elem.
  assert (is_Some (split_lines func !! j)) as [l Hl].
  { apply lookup_lt_is_Some. rewrite <- Hlen2. by eapply lookup_lt_Some. }
  destruct (decide (j ∈ sites)) as [Hin|Hout].
  - apply list_elem_of_lookup in Hin as (k & Hk).
    pose proof Hk as Hsite%list_elem_of_lookup_2.
    apply find_assignment_lines_elem in Hsite as (l0 & Hl0 & Ha0).
    assert (l0 = l) as -> by congruence.
    rewrite (Hs _ _ Hk), Hl in Hl2. simpl in Hl2. injection Hl2 as <-.
    destruct (reps !! k) as [n|] eqn:En.
    + exfalso.
      destruct (replacement_identifier var reps Hreps n) as [? ?];
        [by eapply list_elem_of_lookup_2|].
      destruct (sub_assignment_inert var n l) as [Hinert _]; try done.
      { by apply is_assignment_is_like. }
      apply is_assignment_is_like in Hassign. congruence.
    + apply lookup_ge_None in En.
      apply list_elem_of_lookup. exists (k - length reps).
      rewrite lookup_drop. by replace (length reps + (k - length reps)) with k by lia.
  - exfalso. destruct (Ho _ _ Hout Hl) as (l' & Hl' & Hrw).
    assert (l2 = l') as -> by congruence.
    destruct (rewrites_keeps_or_inert var reps l l' Hv Hreps Hrw) as [->|Hinert].
    + apply Hout. apply find_assignment_lines_elem. eauto.
    + apply is_assignment_is_like in Hassign. congruence.
Qed.


(** ** The orchestrator on a file that needs nothing *)






(** ** The region locator *)

Lemma def_keyword_unfold (s : str) :
  def_keyword s =
  match strip_prefix (lit "def") s with
  | Some (c :: t) => if Ascii.eqb c "p"%char then Some t else Some (c :: t)
  | other => other
  end.
Proof.
  unfold def_keyword. destruct (strip_prefix (lit "def") s) as [[|c t]|]; try done.
  by destruct c as [[] [] [] [] [] [] [] []].
Qed.

Lemma def_keyword_suffix (s r : str) :
  def_keyword s = Some r → ∃ h, s = h ++ r.
Proof.
  rewrite def_keyword_unfold.
  destruct (strip_prefix (lit "def") s) as [r0|] eqn:E; [|done].
  apply strip_prefix_Some in E as ->.
  destruct r0 as [|c t].
  - intros [= <-]. by exists (lit "def").
  - destruct (Ascii.eqb c "p"%char) eqn:Ec; intros [= <-].
    + exists (lit "def" ++ [c]). by rewrite <- app_assoc.
    + by exists (lit "def").
Qed.

Lemma function_header_suffix (s r : str) :
  function_header s = Some r → ∃ hdr, s = hdr ++ r.
Proof.
  unfold function_header.
  destruct (def_keyword s) as [r0|] eqn:E; [|done]. simpl.
  destruct (head_is is_space r0); [|done].
  destruct (head_is is_word (skip_ws r0)); [|done]. intros [= <-].
  apply def_keyword_suffix in E as [h ->].
  exists (h ++ take_ws r0 ++ take_word (skip_ws r0)).
  rewrite <- !app_assoc. by rewrite take_skip_word, take_skip_ws.
Qed.

Lemma function_match_spec (s region : str) :
  function_match s = Some region →
  ∃ hdr r, s = hdr ++ r ∧ function_header s = Some r
           ∧ region = hdr ++ body_until_stop r.
Proof.
  unfold function_match. destruct (function_header s) as [r|] eqn:E; [|done].
  simpl. intros [= <-]. destruct (function_header_suffix _ _ E) as [hdr ->].
  exists hdr, r. repeat split; try done.
  rewrite length_app. replace (length hdr + length r - length r) with (length hdr) by lia.
  by rewrite take_app_length.
Qed.

Lemma body_until_stop_spec (r : str) :
  ∃ post, r = body_until_stop r ++ post ∧ stop_here post = true
          ∧ ∀ k, k < length (body_until_stop r) → stop_here (drop k r) = false.
Proof.
  induction r as [|c r (post & Hr & Hpost & Hk)].
  - exists []. repeat split; try done. simpl. lia.
  - cbn [body_until_stop]. destruct (stop_here (c :: r)) eqn:E.
    + exists (c :: r). repeat split; try done. simpl. lia.
    + exists post. split; [simpl; by rewrite <- Hr|]. split; [done|].
      intros [|k] Hlt; [done|]. simpl in Hlt. apply Hk. lia.
Qed.

Lemma finditer_from_elem (skip : nat) (s region : str) :
  region ∈ finditer_from skip s →
  ∃ pre s', s = pre ++ s' ∧ function_match s' = Some region.
Proof.
  revert skip. induction s as [|c s IH]; intros skip; [by intros ?%elem_of_nil|].
  assert (∀ k, region ∈ finditer_from k s →
               ∃ pre s', c :: s = pre ++ s' ∧ function_match s' = Some region) as IH'.
  { intros k (pre & s' & -> & ?)%IH. by exists (c :: pre), s'. }
  cbn [finditer_from]. destruct skip as [|k]; [|apply IH'].
  destruct (function_match (c :: s)) as [m|] eqn:E; [|apply IH'].
  intros [->|?]%elem_of_cons; [|by eapply IH'].
  by exists [], (c :: s).
Qed.

Lemma skip_ws_app_r (u t : str) : skip_ws u ≠ [] → skip_ws (u ++ t) = skip_ws u ++ t.
Proof.
  induction u as [|c u IH]; [done|]. simpl. destruct (is_space c); [apply IH|done].
Qed.

Lemma starts_with_app (p u t : str) :
  starts_with p u = true → starts_with p (u ++ t) = true.
Proof.
  rewrite !starts_with_true. intros [x ->]. exists (x ++ t). by rewrite app_assoc.
Qed.

Lemma def_keyword_app (x r t : str) :
  def_keyword x = Some r → head_is is_space r = true →
  def_keyword (x ++ t) = Some (r ++ t).
Proof.
  rewrite !def_keyword_unfold.
  destruct (strip_prefix (lit "def") x) as [r0|] eqn:E; [|done].
  apply strip_prefix_Some in E as ->. rewrite <- app_assoc, strip_prefix_app.
  destruct r0 as [|c r0]; [by intros [= <-] ?|].
  change ((c :: r0) ++ t) with (c :: (r0 ++ t)).
  cbv beta iota. destruct (Ascii.eqb c "p"%char); by intros [= <-] _.
Qed.

(** A stop marker inside a text is one in any longer text. *)
Lemma stop_marker_app (s t : str) :
  stop_marker s = true → stop_marker (s ++ t) = true.
Proof.
  destruct s as [|c u]; [done|]. cbn [stop_marker app].
  intros [Hc H]%andb_true_iff. rewrite Hc. cbn [andb].
  apply orb_true_iff in H as [H|H]; [apply orb_true_iff in H as [H|H]|].
  - destruct (def_keyword (skip_ws u)) as [r|] eqn:E; [|done].
    rewrite skip_ws_app_r.
    + rewrite (def_keyword_app _ _ t E H).
      rewrite head_is_app by (by destruct r). by rewrite H.
    + intros Hnil. by rewrite Hnil in E.
  - rewrite skip_ws_app_r.
    + by rewrite (starts_with_app _ _ t H), orb_true_r.
    + intros Hnil. by rewrite Hnil in H.
  - by rewrite (starts_with_app _ _ t H), orb_true_r.
Qed.

(** ** No exception inside the rewriter *)

Lemma fix_function_variable_total (func var : str) (reps : list str) :
  reps ≠ [] → is_Some (fix_function_variable func var reps).
Proof.
  intros Hne. unfold fix_function_variable.
  set (lines := split_lines func). set (sites := find_assignment_lines var lines).
  destruct (Nat.leb_spec (length sites) 1) as [|Hlen]; [done|].
  destruct (rename_assignments_spec var reps sites 0 lines var)
    as (lines1 & cur' & -> & _).
  { apply scan_from_sorted. }
  { apply find_assignment_lines_bound. }
  { left. }
  cbn [mbind option_bind].
  destruct (py_getitem_min reps (length sites) Hne) as (final & -> & _); [lia|].
  cbn [mbind option_bind].
  destruct (fix_final_reference_spec var final (py_range_down (length lines1)) lines1)
    as (lines2 & -> & _).
  { apply py_range_down_bound. }
  done.
Qed.

Lemma fix_functions_total (var : str) (reps : list str) (functions : list str) (content : str) :
  reps ≠ [] → is_Some (fix_functions var reps functions content).
Proof.
  intros Hne. revert content. induction functions as [|func rest IH]; intros content; [done|].
  simpl. unfold fix_one_function at 1.
  destruct (str_contains _ _); [|apply IH].
  destruct (fix_function_variable_total func var reps Hne) as [new ->]. simpl. apply IH.
Qed.

Lemma fix_variables_total (vars : list str) (content : str) :
  is_Some (fix_variables vars content).
Proof.
  revert content. induction vars as [|var rest IH]; intros content; [done|]. simpl.
  destruct (fix_functions_total var (replacements_for var) (find_functions content) content)
    as [content' Hc]; [apply replacements_for_nonempty|].
  unfold fix_variable_in_content. rewrite Hc. simpl. apply IH.
Qed.

(** ** The scanner without lookahead *)

Lemma scan_like_from_elem (var : str) (lines : list str) (i j : nat) :
  j ∈ scan_like_from var i lines ↔
  ∃ l, i ≤ j ∧ lines !! (j - i) = Some l ∧ is_assignment_like var l = true.
Proof.
  revert i. induction lines as [|line rest IH]; intros i; simpl.
  - split; [by intros ?%elem_of_nil|]. by intros (l & _ & ? & _).
  - assert (j ∈ scan_like_from var (S i) rest ↔
            ∃ l, i < j ∧ (line :: rest) !! (j - i) = Some l
                 ∧ is_assignment_like var l = true) as IH'.
    { rewrite IH. split; intros (l & Hle & Hl & Ha); exists l; (split; [lia|]); split; try done.
      - replace (j - i) with (S (j - S i)) by lia. done.
      - replace (j - i) with (S (j - S i)) in Hl by lia. done. }
    destruct (is_assignment_like var line) eqn:E.
    + rewrite elem_of_cons, IH'. split.
      * intros [->|(l & ? & ? & ?)].
        -- exists line. rewrite Nat.sub_diag. done.
        -- exists l. split; [lia|done].
      * intros (l & Hle & Hl & Ha).
        destruct (decide (j = i)) as [->|]; [by left|].
        right. exists l. split; [lia|done].
    + rewrite IH'. split.
      * intros (l & ? & ? & ?). exists l. split; [lia|done].
      * intros (l & Hle & Hl & Ha).
        destruct (decide (j = i)) as [->|].
        -- rewrite Nat.sub_diag in Hl. simpl in Hl. congruence.
        -- exists l. split; [lia|done].
Qed.

Lemma scan_like_from_sorted (var : str) (lines : list str) (i : nat) :
  StronglySorted lt (scan_like_from var i lines).
Proof.
  revert i. induction lines as [|line rest IH]; intros i; simpl; [constructor|].
  destruct (is_assignment_like var line); [|done].
  constructor; [done|]. apply Forall_forall. intros j Hj.
  apply scan_like_from_elem in Hj as (l & ? & _). lia.
Qed.

Lemma find_var_assignments_elem (var : str) (lines : list str) (j : nat) :
  j ∈ find_var_assignments var lines ↔
  ∃ l, lines !! j = Some l ∧ is_assignment_like var l = true.
Proof.
  unfold find_var_assignments. rewrite scan_like_from_elem.
  rewrite Nat.sub_0_r. split.
  - intros (l & _ & ? & ?). eauto.
  - intros (l & ? & ?). exists l. split; [lia|done].
Qed.

(** * Regions of a text *)

Lemma finditer_from_skip (k : nat) (s : str) :
  finditer_from k s = finditer_from 0 (drop k s).
Proof.
  revert k. induction s as [|c s IH]; intros k; [by destruct k|].
  destruct k as [|k]; [done|]. simpl. apply IH.
Qed.

Lemma def_keyword_shape (s r : str) :
  def_keyword s = Some r → ∃ h, s = lit "def" ++ h ++ r.
Proof.
  rewrite def_keyword_unfold.
  destruct (strip_prefix (lit "def") s) as [r0|] eqn:E; [|done].
  apply strip_prefix_Some in E as ->.
  destruct r0 as [|c t]; [intros [= <-]; by exists []|].
  destruct (Ascii.eqb c "p"%char); intros [= <-]; [by exists [c]|by exists []].
Qed.

Lemma function_header_shape (s r : str) :
  function_header s = Some r → ∃ h, s = lit "def" ++ h ++ r.
Proof.
  unfold function_header.
  destruct (def_keyword s) as [r0|] eqn:E; [|done]. simpl.
  destruct (head_is is_space r0); [|done].
  destruct (head_is is_word (skip_ws r0)); [|done]. intros [= <-].
  apply def_keyword_shape in E as [h ->].
  exists (h ++ take_ws r0 ++ take_word (skip_ws r0)).
  rewrite <- !app_assoc. by rewrite take_skip_word, take_skip_ws.
Qed.

Lemma function_match_prefix (s m : str) :
  function_match s = Some m →
  ∃ post, s = m ++ post ∧ starts_with (lit "def") m = true.
Proof.
  unfold function_match. destruct (function_header s) as [r|] eqn:E; [|done].
  simpl. intros [= <-]. apply function_header_shape in E as [h ->].
  destruct (body_until_stop_spec r) as (post & Hr & _).
  exists post.
  replace (length (lit "def" ++ h ++ r) - length r) with (length (lit "def" ++ h))
    by (rewrite !length_app; lia).
  rewrite (app_assoc (lit "def") h r), take_app_length. split.
  - rewrite <- !app_assoc. by rewrite <- Hr.
  - apply starts_with_true. exists (h ++ body_until_stop r). by rewrite <- app_assoc.
Qed.

(** The match found at index [i]: it stands in the text, it is the match
    at its own position, and the search goes on in what follows it. *)
Lemma finditer_lookup (s : str) (i : nat) (region : str) :
  finditer_from 0 s !! i = Some region →
  ∃ pre post, s = pre ++ region ++ post
    ∧ function_match (region ++ post) = Some region
    ∧ drop (S i) (finditer_from 0 s) = finditer_from 0 post.
Proof.
  remember (length s) as n eqn:Hn. revert s i Hn.
  induction n as [n IH] using lt_wf_ind. intros s i ->.
  destruct s as [|c s]; [done|].
  cbn [finditer_from].
  destruct (function_match (c :: s)) as [m|] eqn:E.
  - destruct (function_match_prefix _ _ E) as (post & Hs & Hdef).
    assert (m ≠ []) as Hm by (intros ->; done).
    rewrite finditer_from_skip.
    assert (drop (length m - 1) s = post) as ->.
    { destruct m as [|c' m]; [done|]. injection Hs as -> ->.
      simpl. rewrite Nat.sub_0_r. by rewrite drop_app_length. }
    destruct i as [|i].
    + intros [= <-]. exists [], post. rewrite <- Hs. done.
    + intros Hi. simpl in Hi.
      destruct (IH (length post)) with (s := post) (i := i)
        as (pre & post' & Hpost & Hmatch & Hdrop); [|done|done|].
      { rewrite Hs, length_app. destruct m; [done|]. simpl. lia. }
      exists (m ++ pre), post'. split; [|split; [done|]].
      * by rewrite Hs, Hpost, <- app_assoc.
      * exact Hdrop.
  - intros Hi.
    destruct (IH (length s)) with (s := s) (i := i)
      as (pre & post & Hs & Hmatch & Hdrop); [simpl; lia|done|done|].
    exists (c :: pre), post. split; [by rewrite Hs|]. done.
Qed.

Lemma function_match_head (c : ascii) (s : str) :
  c ≠ "d"%char → function_match (c :: s) = None.
Proof.
  intros Hc. unfold function_match, function_header.
  rewrite def_keyword_unfold. cbn [lit list_ascii_of_string strip_prefix].
  destruct (Ascii.eqb "d" c) eqn:E; [|done].
  apply ascii_eqb_true in E. congruence.
Qed.

Lemma finditer_skip_spaces (ws s : str) :
  forallb is_space ws = true → finditer_from 0 (ws ++ s) = finditer_from 0 s.
Proof.
  induction ws as [|c ws IH]; [done|]. intros [Hc Hws]%andb_prop.
  cbn [app finditer_from]. rewrite function_match_head; [by apply IH|].
  intros ->. done.
Qed.

Lemma function_match_is_Some (s : str) :
  is_Some (function_header s) → is_Some (function_match s).
Proof. intros [r Hr]. unfold function_match. rewrite Hr. by eexists. Qed.

Lemma finditer_head (s m : str) :
  function_match s = Some m → head (finditer_from 0 s) = Some m.
Proof.
  intros Hm. destruct s as [|c s]; [|cbn [finditer_from]; by rewrite Hm].
  by apply function_match_prefix in Hm as (post & Hs & Hdef); destruct m.
Qed.

(** ** Lines of a text and of a stretch of it *)





(** ** Counting the assignment sites *)





(** ** The first line of a region *)










(** ** What the rewrite does to the first line *)



(** ** [str.replace] of a stretch that occurs once *)




(** ** A text with one region *)




(** ** Characters the rewrite cannot bring in *)











(** ** The variables of a report about one variable *)


(** ** Two calls of the orchestrator on a file with one function *)




(** * The claims *)

(** ** C1: running the rewriter twice *)


(** A second way for the second call to change the file again, with no
    more sites than names: the text of the first function (two sites) is
    the start of the text of the second (four sites), [str.replace]
    rewrites both occurrences, and the second function is then not found
    in the text any more, so that its last two sites wait for the second
    call. *)
Example shared_text_changes_again :
  let first := fix_specific_file_issues
                 (one_file "lib/s.ex" shared_text) "lib/s.ex" x_issue in
  let second := fix_specific_file_issues first.1 "lib/s.ex" x_issue in
  find_functions shared_text
  = [ text ["def f do"; "  x = 1"; "  x = 2"]%string;
      text ["def f do"; "  x = 1"; "  x = 2"; "  x = 3"; "  x = 4"]%string ]
  ∧ first.2 = true
  ∧ file_data <$> files first.1 !! "lib/s.ex"%string = Some shared_text_once
  ∧ second.2 = true
  ∧ file_data <$> files second.1 !! "lib/s.ex"%string = Some shared_text_twice.
Proof. vm_compute. done. Qed.



(** ** C2: scenario A *)

(** C2, as stated, fails: the result is not the expected text. *)
Lemma scenario_A_not_as_expected :
  fix_function_variable scenario_A (lit "recommendations")
    (replacements_for (lit "recommendations"))
  ≠ Some scenario_A_expected.
Proof. vm_compute. discriminate. Qed.

(** C2, amended: the two assignments get the first two names and the
    trailing line the second one; the reference on the right-hand side of
    the second assignment keeps the original name. *)
Theorem scenario_A_result :
  fix_function_variable scenario_A (lit "recommendations")
    (replacements_for (lit "recommendations"))
  = Some scenario_A_rewritten.
Proof. vm_compute. reflexivity. Qed.

(** ** C3: the final reference *)

(** C3 at a failing input: no line below the last assignment (line 4) is a
    standalone reference, and the backward scan goes on above it and
    rewrites line 1, before the first assignment. *)
Theorem final_reference_above_assignments :
  let var := lit "alerts" in
  let lines := split_lines piped_argument in
  let lines1 := split_lines piped_argument_renamed in
  find_assignment_lines var lines = [3; 4]
  ∧ lines !! 1 = Some (lit "  alerts")
  ∧ rename_assignments var (replacements_for var) 0 [3; 4] lines var
    = Some (lines1, lit "critical_alerts")
  ∧ fix_final_reference var (lit "critical_alerts") (py_range_down (length lines1)) lines1
    = Some (<[1 := lit "  critical_alerts"]> lines1)
  ∧ fix_function_variable piped_argument var (replacements_for var)
    = Some piped_argument_rewritten.
Proof.
  split; [vm_compute; reflexivity|].
  split; [vm_compute; reflexivity|].
  split; [vm_compute; reflexivity|].
  split; vm_compute; reflexivity.
Qed.

(** ** C4: the assignment scanner *)




(** ** C5: a single assignment *)

(** C5: a region with at most one assignment site for the identifier is
    returned as it is. *)
Theorem single_assignment_unchanged (func var : str) (reps : list str) :
  identifier var = true →
  length (find_assignment_lines var (split_lines func)) ≤ 1 →
  fix_function_variable func var reps = Some func.
Proof. intros _. apply few_sites_unchanged. Qed.

Lemma single_assignment_unchanged_witness :
  identifier (lit "total") = true
  ∧ length (find_assignment_lines (lit "total") (split_lines single_assignment)) ≤ 1
  ∧ fix_function_variable single_assignment (lit "total") (replacements_for (lit "total"))
    = Some single_assignment.
Proof.
  split; [reflexivity|]. split; [vm_compute; lia|].
  apply single_assignment_unchanged; [reflexivity|vm_compute; lia].
Defined.

(** ** C6: other identifiers *)

(** C6, as stated, fails: [risk] is a proper substring of [initial_risk],
    the first replacement name of [risk]; rewriting [risk] turns the
    reference to [initial_risk] on line 4 into [base_risk]. *)
Lemma replacement_name_is_rewritten :
  let var := lit "risk" in
  let other := lit "initial_risk" in
  identifier var = true ∧ identifier other = true
  ∧ proper_substring var other = true
  ∧ fix_function_variable risk_region var (replacements_for var)
    = Some risk_region_rewritten
  ∧ split_lines risk_region !! 4 = Some (lit "  combine(initial_risk)")
  ∧ split_lines risk_region_rewritten !! 4 = Some (lit "  combine(base_risk)")
  ∧ occurrences other <$> split_lines risk_region_rewritten
    ≠ occurrences other <$> split_lines risk_region.
Proof. repeat split; try (vm_compute; reflexivity). vm_compute. discriminate. Qed.

(** C6, amended: an identifier that is neither the variable nor one of
    its replacement names stands, after the rewrite, at exactly the token
    positions of every line where it stood before. *)
Theorem other_identifiers_kept (func var other : str) (reps : list str) :
  identifier var = true → names_ok var reps →
  other ∉ var :: reps →
  ∃ out, fix_function_variable func var reps = Some out
    ∧ occurrences other <$> split_lines out = occurrences other <$> split_lines func.
Proof.
  intros Hv Hreps Hother.
  destruct (decide (length (find_assignment_lines var (split_lines func)) ≤ 1)) as [Hle|Hgt].
  { exists func. split; [by apply few_sites_unchanged|done]. }
  destruct (fix_function_variable_split var reps Hv Hreps func)
    as (lines2 & Hf & Hsplit & Hlen2 & Hs & Ho); [lia|].
  exists (join_lines lines2). split; [done|]. rewrite Hsplit.
  apply list_eq. intros j. rewrite !list_lookup_fmap.
  destruct (split_lines func !! j) as [l|] eqn:Hl.
  2:{ apply lookup_ge_None in Hl. rewrite (lookup_ge_None_2 lines2) by lia. done. }
  apply not_elem_of_cons in Hother as [Hne Hnotin].
  destruct (decide (j ∈ find_assignment_lines var (split_lines func))) as [Hin|Hout].
  - apply list_elem_of_lookup in Hin as (k & Hk).
    rewrite (Hs _ _ Hk), Hl. simpl. f_equal.
    destruct (reps !! k) as [n|] eqn:En; [|done].
    assert (n ∈ reps) as Hn by by eapply list_elem_of_lookup_2.
    destruct (replacement_identifier var reps Hreps n Hn).
    apply occurrences_sub_assignment; try done. by intros ->.
  - destruct (Ho _ _ Hout Hl) as (l' & -> & Hrw). simpl. f_equal.
    apply (rewrites_occurrences var reps Hv Hreps); [|done].
    by apply not_elem_of_cons.
Qed.

Lemma other_identifiers_kept_witness :
  let var := lit "risk_factors" in
  (identifier var = true ∧ names_ok var (replacements_for var)
   ∧ (lit "risk" ∉ var :: replacements_for var)
   ∧ (lit "all_risk_factors_summary" ∉ var :: replacements_for var))
  ∧ (∃ out, fix_function_variable risk_factors_region var (replacements_for var) = Some out
       ∧ occurrences (lit "risk") <$> split_lines out
         = occurrences (lit "risk") <$> split_lines risk_factors_region)
  ∧ (∃ out, fix_function_variable risk_factors_region var (replacements_for var) = Some out
       ∧ occurrences (lit "all_risk_factors_summary") <$> split_lines out
         = occurrences (lit "all_risk_factors_summary") <$> split_lines risk_factors_region).
Proof.
  assert (identifier (lit "risk_factors") = true) as Hv by reflexivity.
  assert (names_ok (lit "risk_factors") (replacements_for (lit "risk_factors"))) as Hreps.
  { apply (bool_decide_unpack _). vm_compute. exact I. }
  assert (lit "risk" ∉ lit "risk_factors" :: replacements_for (lit "risk_factors")) as H1.
  { apply (bool_decide_unpack _). vm_compute. exact I. }
  assert (lit "all_risk_factors_summary"
          ∉ lit "risk_factors" :: replacements_for (lit "risk_factors")) as H2.
  { apply (bool_decide_unpack _). vm_compute. exact I. }
  split; [done|]. split.
  - exact (other_identifiers_kept risk_factors_region _ _ _ Hv Hreps H1).
  - exact (other_identifiers_kept risk_factors_region _ _ _ Hv Hreps H2).
Defined.

(** ** C7: more assignments than names *)

(** C7: with more assignment sites than replacement names the rewrite
    returns a result with the same number of lines; the site of rank [k]
    gets the name of rank [k] in place of the identifier, the rest of the
    line kept; the sites beyond the names are returned as they were. *)
Theorem coverage_gap_keeps_excess (func var : str) (reps : list str) :
  identifier var = true → names_ok var reps →
  let lines := split_lines func in
  let sites := find_assignment_lines var lines in
  length reps < length sites →
  ∃ out,
    fix_function_variable func var reps = Some out
    ∧ length (split_lines out) = length lines
    ∧ (∀ k a n, sites !! k = Some a → reps !! k = Some n →
         ∃ ws rest,
           forallb is_space ws = true
           ∧ lines !! a = Some (ws ++ var ++ rest)
           ∧ split_lines out !! a = Some (ws ++ n ++ rest))
    ∧ (∀ k a, sites !! k = Some a → length reps ≤ k →
         split_lines out !! a = lines !! a).
Proof.
  intros Hv Hreps lines sites Hlen. subst lines sites.
  assert (1 < length (find_assignment_lines var (split_lines func))) as Hlen'.
  { destruct Hreps as (Hne & _). destruct reps; [done|]. simpl in Hlen. lia. }
  destruct (fix_function_variable_split var reps Hv Hreps func Hlen')
    as (lines2 & Hf & Hsplit & Hlen2 & Hs & _).
  exists (join_lines lines2). split; [done|]. rewrite Hsplit.
  split; [done|]. split.
  - intros k a n Hk Hn.
    pose proof Hk as Hsite%list_elem_of_lookup_2.
    apply find_assignment_lines_elem in Hsite as (l & Hl & Hassign).
    apply is_assignment_is_like in Hassign.
    destruct (sub_assignment_shape var n l Hassign) as (rest & Hshape & Hsub & _).
    exists (take_ws l), rest. split; [apply take_ws_spaces|].
    unfold str in *.
    split; [by rewrite Hl, <- Hshape|].
    by rewrite (Hs _ _ Hk), Hn, Hl, <- Hsub.
  - intros k a Hk Hge. unfold str in *. rewrite (Hs _ _ Hk).
    rewrite (lookup_ge_None_2 reps k) by done. exact (option_fmap_id _).
Qed.

Lemma coverage_gap_keeps_excess_witness :
  let var := lit "scratch" in
  let reps := replacements_for var in
  (identifier var = true ∧ names_ok var reps
   ∧ length reps < length (find_assignment_lines var (split_lines eight_assignments)))
  ∧ ∃ out,
      fix_function_variable eight_assignments var reps = Some out
      ∧ length (split_lines out) = length (split_lines eight_assignments)
      ∧ (∀ k a n,
           find_assignment_lines var (split_lines eight_assignments) !! k = Some a →
           reps !! k = Some n →
           ∃ ws rest,
             forallb is_space ws = true
             ∧ split_lines eight_assignments !! a = Some (ws ++ var ++ rest)
             ∧ split_lines out !! a = Some (ws ++ n ++ rest))
      ∧ (∀ k a,
           find_assignment_lines var (split_lines eight_assignments) !! k = Some a →
           length reps ≤ k →
           split_lines out !! a = split_lines eight_assignments !! a).
Proof.
  assert (identifier (lit "scratch") = true) as Hv by reflexivity.
  assert (names_ok (lit "scratch") (replacements_for (lit "scratch"))) as Hreps.
  { apply (bool_decide_unpack _). vm_compute. exact I. }
  assert (length (replacements_for (lit "scratch"))
          < length (find_assignment_lines (lit "scratch") (split_lines eight_assignments))) as Hlen.
  { vm_compute. lia. }
  split; [done|].
  exact (coverage_gap_keeps_excess eight_assignments _ _ Hv Hreps Hlen).
Defined.

(** ** C8: nested definitions *)

(** C8, as stated, fails: the outer definition is not returned as one
    region; its region ends before the line of the inner definition, which
    is a region of its own. *)
Lemma nested_definition_splits_region :
  find_functions nested_definitions
  = [ lit "def outer do"; text ["def inner do"; "    :ok"; "  end"]%string ]
  ∧ ¬ ∃ region, region ∈ find_functions nested_definitions
                ∧ str_contains (lit "def outer") region = true
                ∧ str_contains (lit "def inner") region = true.
Proof.
  split; [vm_compute; reflexivity|].
  intros (region & Hin & Ho & Hi).
  assert (find_functions nested_definitions
          = [ lit "def outer do"; text ["def inner do"; "    :ok"; "  end"]%string ]) as E
    by (vm_compute; reflexivity).
  rewrite E in Hin.
  apply elem_of_cons in Hin as [->|Hin]; [vm_compute in Hi; discriminate|].
  apply elem_of_cons in Hin as [->|Hin]; [vm_compute in Ho; discriminate|].
  by apply elem_of_nil in Hin.
Qed.

(** The whitespace of a header may hold line breaks: a [def] that ends a
    line is the keyword of a header whose name stands on the next line,
    here the [def] of the next line. *)
Example header_spans_lines :
  find_functions (text ["# helper def"; "  def real(x) do"; "    x"; "  end"]%string)
  = [ text ["def"; "  def real(x) do"; "    x"; "  end"]%string ].
Proof. vm_compute. reflexivity. Qed.

(** C8, amended: there is no nesting counter.  The region found at index
    [i] is a header ([def] or [defp], whitespace, a name) and, as its
    body, the text after the header up to the first stop: a line break
    followed by whitespace and [def] or [defp] and a whitespace
    character, or by whitespace and [@], or by [end] and a line break, or
    the end of the text.  No stop begins inside the body.  The search for
    the next region starts at the stop, so when the stop is a line break,
    whitespace and the header of a definition, the region at index
    [i + 1] is the match that starts with that definition. *)
Theorem region_ends_at_first_definition (content region : str) (i : nat) :
  find_functions content !! i = Some region →
  ∃ pre hdr body post,
    content = pre ++ hdr ++ body ++ post
    ∧ region = hdr ++ body
    ∧ function_header (hdr ++ body ++ post) = Some (body ++ post)
    ∧ stop_here post = true
    ∧ (∀ k, k < length body → stop_here (drop k (body ++ post)) = false)
    ∧ (∀ k, stop_marker (drop k body) = false)
    ∧ drop (S i) (find_functions content) = find_functions post
    ∧ (∀ ws definition,
         post = newline :: ws ++ definition →
         forallb is_space ws = true →
         is_Some (function_header definition) →
         ∃ next, function_match definition = Some next
                 ∧ find_functions content !! S i = Some next).
Proof.
  intros (pre & post0 & -> & Hm & Hdrop)%finditer_lookup.
  apply function_match_spec in Hm as (hdr & r & Hs & Hh & ->).
  destruct (body_until_stop_spec r) as (post & Hr & Hpost & Hk).
  assert (post0 = post) as ->.
  { rewrite <- app_assoc in Hs. apply app_inv_head in Hs.
    apply (app_inv_head (body_until_stop r)). by rewrite Hs. }
  exists pre, hdr, (body_until_stop r), post.
  rewrite Hs in Hh, Hdrop. fold (find_functions (pre ++ hdr ++ r)) in Hdrop.
  rewrite <- Hr, <- !app_assoc, <- Hr.
  split; [done|]. split; [done|]. split; [done|].
  split; [done|]. split; [done|]. split; [|split].
  - intros k. destruct (stop_marker (drop k (body_until_stop r))) eqn:E; [|done].
    exfalso.
    assert (k < length (body_until_stop r)) as Hlt.
    { destruct (decide (k < length (body_until_stop r))); [done|].
      rewrite drop_ge in E by lia. done. }
    specialize (Hk k Hlt). rewrite Hr in Hk.
    rewrite drop_app_le in Hk by lia.
    apply (stop_marker_app _ post) in E.
    unfold stop_here in Hk.
    destruct (drop k (body_until_stop r) ++ post); [done|congruence].
  - exact Hdrop.
  - intros ws definition -> Hws Hheader.
    destruct (function_match_is_Some _ Hheader) as [next Hnext].
    exists next. split; [done|].
    assert (find_functions (newline :: ws ++ definition) = find_functions definition) as E.
    { unfold find_functions. cbn [finditer_from].
      rewrite function_match_head by done. by apply finditer_skip_spaces. }
    fold (find_functions (newline :: ws ++ definition)) in Hdrop.
    rewrite <- (Nat.add_0_r (S i)), <- lookup_drop, Hdrop, E.
    rewrite <- head_lookup. by apply finditer_head.
Qed.

Lemma region_ends_at_first_definition_witness :
  find_functions nested_definitions !! 0 = Some (lit "def outer do")
  ∧ ∃ pre hdr body post,
      nested_definitions = pre ++ hdr ++ body ++ post
      ∧ lit "def outer do" = hdr ++ body
      ∧ function_header (hdr ++ body ++ post) = Some (body ++ post)
      ∧ stop_here post = true
      ∧ (∀ k, k < length body → stop_here (drop k (body ++ post)) = false)
      ∧ (∀ k, stop_marker (drop k body) = false)
      ∧ drop 1 (find_functions nested_definitions) = find_functions post
      ∧ (∀ ws definition,
           post = newline :: ws ++ definition →
           forallb is_space ws = true →
           is_Some (function_header definition) →
           ∃ next, function_match definition = Some next
                   ∧ find_functions nested_definitions !! 1 = Some next).
Proof.
  assert (find_functions nested_definitions !! 0 = Some (lit "def outer do")) as Hin.
  { vm_compute. reflexivity. }
  split; [done|].
  exact (region_ends_at_first_definition _ _ 0 Hin).
Defined.

(** ** C9: the orchestrator *)

(** C9, as stated, fails where it says that a failed write performs no
    write: [open(filepath, 'w')] empties the file before anything is
    written, so when the device takes only forty characters of the
    rewritten text the call prints the error and returns [False], and the
    file holds those forty characters instead of what it held. *)
Lemma failed_write_truncates_file :
  let w := one_small_file "lib/a.ex" eight_assignments 40 in
  let result := fix_specific_file_issues w "lib/a.ex" scratch_issue in
  result.2 = false
  ∧ file_data <$> files w !! "lib/a.ex"%string = Some eight_assignments
  ∧ file_data <$> files result.1 !! "lib/a.ex"%string
    = Some (take 40 eight_assignments_once)
  ∧ take 40 eight_assignments_once ≠ eight_assignments
  ∧ trace result.1 = [ Truncated "lib/a.ex" (take 40 eight_assignments_once);
                       PrintedError "lib/a.ex" OSError ].
Proof.
  vm_compute. split; [reflexivity|]. split; [reflexivity|]. split; [reflexivity|].
  split; [discriminate|reflexivity].
Qed.

(** C9, amended: the call never raises, and what it does is fixed by the
    file.  A file that is missing or cannot be read: the error is printed,
    no file changes, the flag is false.  Otherwise the rewrite of the text
    read gives a final text.  If that is the text read: nothing is
    printed or written, the flag is false.  If it differs and the file
    cannot be opened for writing: the error is printed, no file changes,
    the flag is false.  If it differs and the write completes: the file
    holds the final text, the write is the one event, the flag is true.
    If it differs and the write fails after the file was opened: the file
    holds what was taken of the final text, the error is printed, the
    flag is false.  So the flag is true exactly when the final text was
    written to the file, and the loop over the files goes on with the
    next file whatever the outcome. *)
Theorem orchestrator_writes_iff_changed (w : world) (filepath : string)
    (var_issues : list (str * str)) :
  Forall (fun issue => identifier issue.1 = true) var_issues →
  ∃ w' changed,
    fix_specific_file_issues w filepath var_issues = (w', changed)
    ∧ match files w !! filepath with
      | Some f =>
          if file_readable f then
            let original := universal_newlines (file_data f) in
            ∃ final,
              fix_variables (group_issues var_issues).*1 original = Some final
              ∧ if bool_decide (final = original) then
                  changed = false ∧ w' = w
                else if file_writable f then
                  if room_for f final then
                    changed = true
                    ∧ files w'
                      = <[filepath := File final true true (file_room f)]> (files w)
                    ∧ trace w' = trace w ++ [Wrote filepath final]
                  else
                    changed = false
                    ∧ files w'
                      = <[filepath := File (taken f final) true true (file_room f)]>
                          (files w)
                    ∧ trace w' = trace w ++ [ Truncated filepath (taken f final);
                                              PrintedError filepath OSError ]
                else
                  changed = false ∧ files w' = files w
                  ∧ trace w' = trace w ++ [PrintedError filepath OSError]
          else
            changed = false ∧ files w' = files w
            ∧ trace w' = trace w ++ [PrintedError filepath OSError]
      | None =>
          changed = false ∧ files w' = files w
          ∧ trace w' = trace w ++ [PrintedError filepath OSError]
      end
    ∧ (changed = true
       ↔ ∃ final, trace w' = trace w ++ [Wrote filepath final]
                  ∧ file_data <$> files w' !! filepath = Some final
                  ∧ read_file w filepath ≠ inr final)
    ∧ (∀ rest fixed_count,
         fix_all_files w ((filepath, var_issues) :: rest) fixed_count
         = fix_all_files w' rest (if changed then S fixed_count else fixed_count)).
Proof.
  intros _.
  assert (∀ x : event, trace w ≠ trace w ++ [x]) as Hsame.
  { intros x H. apply (f_equal length) in H. rewrite length_app in H. simpl in H. lia. }
  assert (∀ (x y : event) l, x ≠ y → trace w ++ [x] ≠ trace w ++ y :: l) as Hother.
  { intros x y l Hxy H. apply app_inv_head in H. congruence. }
  assert (∀ w' changed,
            fix_specific_file_issues w filepath var_issues = (w', changed) →
            ∀ rest fixed_count,
              fix_all_files w ((filepath, var_issues) :: rest) fixed_count
              = fix_all_files w' rest (if changed then S fixed_count else fixed_count)) as Hloop.
  { intros w' changed E rest n. cbn [fix_all_files]. by rewrite E. }
  destruct (fix_specific_file_issues w filepath var_issues) as [w' changed] eqn:Hfix.
  exists w', changed. split; [done|].
  specialize (Hloop _ _ eq_refl).
  unfold fix_specific_file_issues, try_fix_file, read_file in *.
  destruct (files w !! filepath) as [f|] eqn:Hf.
  2:{ injection Hfix as <- <-. simpl. split; [done|]. split; [|exact Hloop].
      split; [done|]. intros (final & H & _). symmetry in H. by apply Hother in H. }
  destruct (file_readable f) eqn:Hr.
  2:{ injection Hfix as <- <-. simpl. split; [done|]. split; [|exact Hloop].
      split; [done|]. intros (final & H & _). symmetry in H. by apply Hother in H. }
  destruct (fix_variables_total (group_issues var_issues).*1
              (universal_newlines (file_data f))) as [final Hfinal].
  change (map fst (group_issues var_issues)) with ((group_issues var_issues).*1) in Hfix.
  rewrite Hfinal in Hfix. cbv zeta.
  case_bool_decide as Heq.
  { injection Hfix as <- <-. split; [|split; [|exact Hloop]].
    - exists final. split; [done|]. by rewrite bool_decide_eq_true_2.
    - split; [done|]. intros (data & H & _). by apply Hsame in H. }
  unfold write_file in Hfix. rewrite Hf in Hfix.
  destruct (file_writable f) eqn:Hw.
  2:{ injection Hfix as <- <-. simpl. split; [|split; [|exact Hloop]].
      - exists final. split; [done|]. by rewrite bool_decide_eq_false_2.
      - split; [done|]. intros (data & H & _). symmetry in H. by apply Hother in H. }
  destruct (room_for f final) eqn:Hroom.
  - injection Hfix as <- <-. simpl. split; [|split; [|exact Hloop]].
    + exists final. split; [done|]. rewrite bool_decide_eq_false_2 by done.
      by rewrite Hroom, Hr.
    + split; [|done]. intros _. exists final. split; [done|].
      rewrite lookup_insert_eq. split; [done|]. congruence.
  - injection Hfix as <- <-. simpl. split; [|split; [|exact Hloop]].
    + exists final. split; [done|]. rewrite bool_decide_eq_false_2 by done.
      by rewrite Hroom, Hr, <- app_assoc.
    + split; [done|]. intros (data & H & _). rewrite <- app_assoc in H.
      symmetry in H. by apply Hother in H.
Qed.

Lemma orchestrator_writes_iff_changed_witness :
  let w := one_file "lib/a.ex" eight_assignments in
  Forall (fun issue : str * str => identifier issue.1 = true) scratch_issue
  ∧ ∃ w' changed,
      fix_specific_file_issues w "lib/a.ex" scratch_issue = (w', changed)
      ∧ (changed = true
         ↔ ∃ final, trace w' = trace w ++ [Wrote "lib/a.ex" final]
                    ∧ file_data <$> files w' !! "lib/a.ex"%string = Some final
                    ∧ read_file w "lib/a.ex" ≠ inr final).
Proof.
  assert (Forall (fun issue : str * str => identifier issue.1 = true) scratch_issue) as H.
  { repeat constructor. }
  split; [done|].
  destruct (orchestrator_writes_iff_changed
              (one_file "lib/a.ex" eight_assignments) "lib/a.ex" scratch_issue H)
    as (w' & changed & H1 & _ & H2 & _).
  exists w', changed. split; [exact H1|exact H2].
Defined.

(** ** C10: the literal test before the rewrite *)

(** C10: a region whose text does not hold the identifier, one space and
    [=] is passed over, and the content stays as it is. *)
Theorem missing_literal_blocks_rewrite (content func var : str) (reps : list str) :
  identifier var = true →
  str_contains (var ++ lit " =") func = false →
  fix_one_function var reps content func = Some content.
Proof. intros _ H. unfold fix_one_function. by rewrite H. Qed.

(** The same region has two assignment sites for the scanner, and the
    rewriter, once entered, would rename them. *)
Lemma missing_literal_blocks_rewrite_witness :
  let var := lit "total" in
  (identifier var = true ∧ str_contains (var ++ lit " =") tight_assignments = false)
  ∧ find_functions tight_assignments = [tight_assignments]
  ∧ find_assignment_lines var (split_lines tight_assignments) = [1; 2]
  ∧ fix_function_variable tight_assignments var (replacements_for var)
    = Some (text [ "def f do"; "  initial_total= 1"; "  base_total= total + 1";
                   "  base_total"; "end" ]%string)
  ∧ fix_one_function var (replacements_for var) tight_assignments tight_assignments
    = Some tight_assignments
  ∧ fix_variable_in_content tight_assignments var = Some tight_assignments.
Proof.
  split; [split; reflexivity|].
  split; [vm_compute; reflexivity|].
  split; [vm_compute; reflexivity|].
  split; [vm_compute; reflexivity|].
  split.
  - apply missing_literal_blocks_rewrite; reflexivity.
  - vm_compute. reflexivity.
Defined.


(** * Further properties of the code *)

(** ** [fix_function_variable]: what a rewrite does to the text *)

Lemma Forall2_same {A} (R : A → A → Prop) (l : list A) :
  (∀ x, R x x) → Forall2 R l l.
Proof. intros H. induction l; constructor; auto. Qed.

Lemma token_renamed_step (var old new : str) (reps : list str) (t t' : str) :
  old ∈ var :: reps → new ∈ reps →
  token_renamed var reps t t' → token_renamed var reps t (rename_token old new t').
Proof.
  intros Hold Hnew H. unfold rename_token. case_bool_decide as E; [|done].
  subst t'. right. split; [|done]. by destruct H as [->|[? _]].
Qed.

Lemma rewrites_token_renamed (var : str) (reps : list str) (l l' : str) :
  identifier var = true → names_ok var reps →
  rewrites var reps l l' →
  Forall2 (token_renamed var reps) (tokens l) (tokens l').
Proof.
  intros Hv Hreps. induction 1 as [|old new l l' _ IH Hl' Hold Hnew].
  - apply Forall2_same. by left.
  - destruct (replacement_identifier var reps Hreps _ Hnew).
    rewrite tokens_sub_word; [|by apply (old_name_identifier var reps Hv Hreps)|done].
    apply Forall2_fmap_r. eapply Forall2_impl; [exact IH|].
    intros t t'. by apply token_renamed_step.
Qed.

Lemma sub_assignment_token_renamed (var n l : str) (reps : list str) :
  identifier var = true → identifier n = true → n ∈ reps →
  Forall2 (token_renamed var reps) (tokens l) (tokens (sub_assignment var n l)).
Proof.
  intros Hv Hn Hin. destruct (is_assignment_like var l) eqn:E.
  - destruct (sub_assignment_shape var n l E) as (r & Hline & -> & Hr).
    pose proof (spaces_nonword _ (take_ws_spaces l)) as Hws.
    revert Hline Hws. generalize (take_ws l). intros ws -> Hws.
    rewrite (tokens_nonword_prefix ws (n ++ r)), (tokens_nonword_prefix ws (var ++ r)) by done.
    rewrite (tokens_run n r), (tokens_run var r) by done.
    apply Forall2_app; [apply Forall2_same; by left|].
    constructor; [|apply Forall2_same; by left].
    right. split; [left|done].
  - unfold sub_assignment. rewrite E. apply Forall2_same. by left.
Qed.

(** X1: the rewrite is a substitution of names.  The result has the lines
    of the region, each with the same tokens in the same order, except
    that a token equal to the variable or to a replacement name may have
    become a replacement name. *)
Theorem rewrite_substitutes_names (func var : str) (reps : list str) :
  identifier var = true → names_ok var reps →
  ∃ out,
    fix_function_variable func var reps = Some out
    ∧ Forall2 (fun l l' => Forall2 (token_renamed var reps) (tokens l) (tokens l'))
        (split_lines func) (split_lines out).
Proof.
  intros Hv Hreps.
  destruct (decide (length (find_assignment_lines var (split_lines func)) ≤ 1)) as [Hle|Hgt].
  { exists func. split; [by apply few_sites_unchanged|].
    apply Forall2_same. intros l. apply Forall2_same. by left. }
  destruct (fix_function_variable_split var reps Hv Hreps func)
    as (lines2 & Hf & Hsplit & Hlen2 & Hs & Ho); [lia|].
  exists (join_lines lines2). split; [done|]. rewrite Hsplit.
  apply Forall2_same_length_lookup_2; [done|].
  intros j l l' Hl Hl'.
  destruct (decide (j ∈ find_assignment_lines var (split_lines func))) as [Hin|Hout].
  - apply list_elem_of_lookup in Hin as (k & Hk).
    rewrite (Hs _ _ Hk), Hl in Hl'. simpl in Hl'. injection Hl' as <-.
    destruct (reps !! k) as [n|] eqn:En; [|apply Forall2_same; by left].
    assert (n ∈ reps) as Hn by by eapply list_elem_of_lookup_2.
    destruct (replacement_identifier var reps Hreps n Hn).
    by apply sub_assignment_token_renamed.
  - destruct (Ho _ _ Hout Hl) as (l1 & Hl1 & Hrw).
    assert (l' = l1) as -> by congruence.
    by apply rewrites_token_renamed.
Qed.

Lemma rewrite_substitutes_names_witness :
  let var := lit "alerts" in
  (identifier var = true ∧ names_ok var (replacements_for var))
  ∧ ∃ out,
      fix_function_variable piped_argument var (replacements_for var) = Some out
      ∧ Forall2 (fun l l' =>
                   Forall2 (token_renamed var (replacements_for var)) (tokens l) (tokens l'))
          (split_lines piped_argument) (split_lines out).
Proof.
  assert (identifier (lit "alerts") = true) as Hv by reflexivity.
  assert (names_ok (lit "alerts") (replacements_for (lit "alerts"))) as Hreps.
  { apply (bool_decide_unpack _). vm_compute. exact I. }
  split; [done|].
  exact (rewrite_substitutes_names piped_argument _ _ Hv Hreps).
Defined.

Lemma rewrites_assignment_like (var : str) (reps : list str) (l l' : str) :
  rewrites var reps l l' → is_assignment_like var l = true → l' = l.
Proof.
  induction 1 as [|old new l l' _ IH Hl' Hold Hnew]; [done|].
  intros Hl. rewrite (IH Hl) in Hl'. congruence.
Qed.

(** X2: a line that starts like an assignment to the variable without
    being one (the identifier followed by [==]) is returned as it is. *)
Theorem comparison_lines_kept (func var : str) (reps : list str) :
  identifier var = true → names_ok var reps →
  ∃ out,
    fix_function_variable func var reps = Some out
    ∧ ∀ j l, split_lines func !! j = Some l →
             is_assignment_like var l = true → is_assignment var l = false →
             split_lines out !! j = Some l.
Proof.
  intros Hv Hreps.
  destruct (decide (length (find_assignment_lines var (split_lines func)) ≤ 1)) as [Hle|Hgt].
  { exists func. split; [by apply few_sites_unchanged|]. by intros. }
  destruct (fix_function_variable_split var reps Hv Hreps func)
    as (lines2 & Hf & Hsplit & Hlen2 & Hs & Ho); [lia|].
  exists (join_lines lines2). split; [done|]. rewrite Hsplit.
  intros j l Hl Hlike Hnot.
  assert (j ∉ find_assignment_lines var (split_lines func)) as Hout.
  { intros (l0 & Hl0 & Ha)%find_assignment_lines_elem. congruence. }
  destruct (Ho _ _ Hout Hl) as (l' & Hl' & Hrw).
  by rewrite (rewrites_assignment_like _ _ _ _ Hrw Hlike) in Hl'.
Qed.

Lemma comparison_lines_kept_witness :
  let var := lit "alerts" in
  let func := text [ "def f do"; "  alerts = []"; "  alerts == old"; "  alerts = [1]";
                     "  alerts == old"; "  alerts" ]%string in
  (identifier var = true ∧ names_ok var (replacements_for var))
  ∧ ∃ out,
      fix_function_variable func var (replacements_for var) = Some out
      ∧ ∀ j l, split_lines func !! j = Some l →
               is_assignment_like var l = true → is_assignment var l = false →
               split_lines out !! j = Some l.
Proof.
  assert (identifier (lit "alerts") = true) as Hv by reflexivity.
  assert (names_ok (lit "alerts") (replacements_for (lit "alerts"))) as Hreps.
  { apply (bool_decide_unpack _). vm_compute. exact I. }
  split; [done|].
  exact (comparison_lines_kept _ _ _ Hv Hreps).
Defined.

(** X3: for an identifier and a final name that is an identifier, the
    final loop rewrites one line or none: the last line of the region
    that is a standalone reference to the variable, with every whole-word
    occurrence of the variable on it replaced by the final name; when no
    line is one, the lines are returned as they are. *)
Theorem final_loop_rewrites_last_reference (var final : str) (lines : list str) :
  identifier var = true → identifier final = true →
  (fix_final_reference var final (py_range_down (length lines)) lines = Some lines
   ∧ ∀ i l, lines !! i = Some l → is_final_reference var l = false)
  ∨ (∃ i l, lines !! i = Some l ∧ is_final_reference var l = true
            ∧ (∀ j l', i < j → lines !! j = Some l' → is_final_reference var l' = false)
            ∧ fix_final_reference var final (py_range_down (length lines)) lines
              = Some (<[i := sub_word var final l]> lines)
            ∧ sub_word var final l = concat (rename_token var final <$> tokens l)).
Proof.
  intros Hvar Hfinal.
  destruct (final_loop_first_match var final lines (length lines))
    as [[Hsame Hnone]|(i & l & Hi & Hl & Hfin & Hafter & Hres)]; [done| |].
  - left. split; [done|]. intros i l Hl. eapply Hnone; [|done]. by eapply lookup_lt_Some.
  - right. exists i, l. repeat split; try done.
    + intros j l' Hj Hl'. eapply Hafter; [|done]. split; [done|]. by eapply lookup_lt_Some.
    + by apply sub_word_tokens.
Qed.

Lemma final_loop_rewrites_last_reference_witness :
  let lines := [lit "  total = 1"; lit "  total"; lit "  total |> log()"; lit "end"] in
  identifier (lit "total") = true ∧ identifier (lit "final_total") = true
  ∧ fix_final_reference (lit "total") (lit "final_total")
      (py_range_down (length lines)) lines
    = Some [lit "  total = 1"; lit "  total"; lit "  final_total |> log()"; lit "end"].
Proof.
  split; [reflexivity|]. split; [reflexivity|].
  destruct (final_loop_rewrites_last_reference (lit "total") (lit "final_total")
              [lit "  total = 1"; lit "  total"; lit "  total |> log()"; lit "end"]
              eq_refl eq_refl) as [[Hsame _]|_];
    vm_compute; reflexivity.
Defined.

Lemma sorted_lt_ext (l1 l2 : list nat) :
  StronglySorted lt l1 → StronglySorted lt l2 →
  (∀ x, x ∈ l1 ↔ x ∈ l2) → l1 = l2.
Proof.
  intros H1. revert l2. induction H1 as [|a l1 H1 IH Ha]; intros l2 H2 Hext.
  - destruct l2 as [|b l2]; [done|]. exfalso.
    eapply not_elem_of_nil. apply Hext. left.
  - destruct H2 as [|b l2 H2 Hb].
    { exfalso. eapply not_elem_of_nil. apply Hext. left. }
    rewrite Forall_forall in Ha, Hb.
    assert (a = b) as ->.
    { assert (a ∈ b :: l2) as Hab by (apply Hext; left).
      assert (b ∈ a :: l1) as Hba by (apply Hext; left).
      apply elem_of_cons in Hab as [->|Hab]; [done|].
      apply elem_of_cons in Hba as [->|Hba]; [done|].
      specialize (Ha _ Hba). specialize (Hb _ Hab). lia. }
    f_equal. apply IH; [done|]. intros x. split; intros Hx.
    + assert (x ∈ b :: l2) as Hx' by (apply Hext; by right).
      apply elem_of_cons in Hx' as [->|?]; [|done].
      specialize (Ha _ Hx). lia.
    + assert (x ∈ b :: l1) as Hx' by (apply Hext; by right).
      apply elem_of_cons in Hx' as [->|?]; [|done].
      specialize (Hb _ Hx). lia.
Qed.

Lemma sorted_drop (n : nat) (l : list nat) :
  StronglySorted lt l → StronglySorted lt (drop n l).
Proof.
  revert n. induction l as [|a l IH]; intros n H; [by destruct n|].
  destruct n as [|n]; [done|]. simpl. apply IH. by apply StronglySorted_inv in H as [? _].
Qed.

(** X4: what one pass leaves to do.  After the rewrite of a region with at
    least two assignment sites, the assignment sites of the result are the
    sites of the region beyond the replacement names, at the same line
    numbers; none when there are names enough. *)
Theorem sites_left_after_rewrite (func var : str) (reps : list str) :
  identifier var = true → names_ok var reps →
  1 < length (find_assignment_lines var (split_lines func)) →
  ∃ out,
    fix_function_variable func var reps = Some out
    ∧ find_assignment_lines var (split_lines out)
      = drop (length reps) (find_assignment_lines var (split_lines func)).
Proof.
  intros Hv Hreps Hlen.
  destruct (sites_after_rewrite func var reps Hv Hreps Hlen) as (out & Hout & Hsub).
  exists out. split; [done|].
  apply sorted_lt_ext; [apply scan_from_sorted|apply sorted_drop, scan_from_sorted|].
  intros j. split; [apply Hsub|]. intros Hj.
  destruct (fix_function_variable_split var reps Hv Hreps func Hlen)
    as (lines2 & Hf & Hsplit & Hlen2 & Hs & _).
  assert (out = join_lines lines2) as -> by congruence. rewrite Hsplit.
  apply list_elem_of_lookup in Hj as (k & Hk). rewrite lookup_drop in Hk.
  pose proof Hk as Hsite%list_elem_of_lookup_2.
  apply find_assignment_lines_elem in Hsite as (l & Hl & Ha).
  apply find_assignment_lines_elem. exists l. split; [|done].
  rewrite (Hs _ _ Hk), Hl. simpl.
  by rewrite (lookup_ge_None_2 reps (length reps + k)) by lia.
Qed.

Lemma sites_left_after_rewrite_witness :
  let var := lit "scratch" in
  (identifier var = true ∧ names_ok var (replacements_for var)
   ∧ 1 < length (find_assignment_lines var (split_lines eight_assignments)))
  ∧ ∃ out,
      fix_function_variable eight_assignments var (replacements_for var) = Some out
      ∧ find_assignment_lines var (split_lines out)
        = drop (length (replacements_for var))
            (find_assignment_lines var (split_lines eight_assignments)).
Proof.
  assert (identifier (lit "scratch") = true) as Hv by reflexivity.
  assert (names_ok (lit "scratch") (replacements_for (lit "scratch"))) as Hreps.
  { apply (bool_decide_unpack _). vm_compute. exact I. }
  assert (1 < length (find_assignment_lines (lit "scratch") (split_lines eight_assignments)))
    as Hlen by (vm_compute; lia).
  split; [done|].
  exact (sites_left_after_rewrite eight_assignments _ _ Hv Hreps Hlen).
Defined.

(** X5: for an identifier [old] and a replacement [new] without a
    backslash (which [re.sub] inserts as it is), the whole-word
    substitution [re.sub(rf'\b{old}\b', new, line)] replaces exactly the
    tokens of the line that are equal to [old]: a longer name that
    contains [old] is a different token and is kept; and when [new] is an
    identifier too the cut of the line into tokens is the same before and
    after. *)
Theorem whole_word_substitution (old new line : str) :
  identifier old = true → backslash ∉ new →
  sub_word old new line = concat (rename_token old new <$> tokens line)
  ∧ (identifier new = true →
     tokens (sub_word old new line) = rename_token old new <$> tokens line).
Proof.
  intros Hold _. split; [by apply sub_word_tokens|]. intros Hnew. by apply tokens_sub_word.
Qed.

Lemma whole_word_substitution_witness :
  identifier (lit "risk") = true
  ∧ (backslash ∉ lit "base_risk")
  ∧ sub_word (lit "risk") (lit "base_risk") (lit "  risk_of(risk, all_risk) + risk")
    = lit "  risk_of(base_risk, all_risk) + base_risk"
  ∧ sub_word (lit "risk") (lit "base_risk") (lit "  risk_of(risk, all_risk) + risk")
    = concat (rename_token (lit "risk") (lit "base_risk")
                <$> tokens (lit "  risk_of(risk, all_risk) + risk")).
Proof.
  assert (backslash ∉ lit "base_risk") as Hnew.
  { apply (bool_decide_unpack _). vm_compute. exact I. }
  split; [reflexivity|]. split; [exact Hnew|]. split; [vm_compute; reflexivity|].
  exact (proj1 (whole_word_substitution (lit "risk") (lit "base_risk") _ eq_refl Hnew)).
Defined.

(** X6: the only exception.  For an identifier and replacement names
    that are identifiers not starting with a digit,
    [fix_function_variable] raises (IndexError, from [replacements[-1]])
    exactly when it is given no replacement name for a region with two
    assignment sites or more; in every other case it returns a text. *)
Theorem rewrite_raises_without_names (func var : str) (reps : list str) :
  identifier var = true →
  Forall (fun name => plain_name name = true) reps →
  fix_function_variable func var reps = None
  ↔ reps = [] ∧ 1 < length (find_assignment_lines var (split_lines func)).
Proof.
  intros _ _. split.
  - intros Hnone. destruct reps as [|n reps].
    + split; [done|].
      destruct (decide (length (find_assignment_lines var (split_lines func)) ≤ 1)); [|lia].
      rewrite few_sites_unchanged in Hnone; done.
    + destruct (fix_function_variable_total func var (n :: reps)) as [out Hout]; [done|].
      congruence.
  - intros [-> Hlen]. unfold fix_function_variable.
    destruct (Nat.leb_spec (length (find_assignment_lines var (split_lines func))) 1); [lia|].
    destruct (find_assignment_lines var (split_lines func)) as [|a sites]; [simpl in Hlen; lia|].
    cbn [rename_assignments length Nat.leb mbind option_bind].
    unfold py_getitem. cbn [length].
    destruct (Z.ltb_spec (Z.min (Z.of_nat (S (length sites)) - 1) (Z.of_nat 0 - 1)) 0); [|lia].
    destruct (Z.ltb_spec (Z.of_nat 0 + Z.min (Z.of_nat (S (length sites)) - 1) (Z.of_nat 0 - 1)) 0);
      [done|lia].
Qed.

Lemma rewrite_raises_without_names_witness :
  let var := lit "recommendations" in
  identifier var = true
  ∧ Forall (fun name => plain_name name = true) (replacements_for var)
  ∧ fix_function_variable scenario_A var [] = None
  ∧ fix_function_variable scenario_A var (replacements_for var) ≠ None.
Proof.
  assert (Forall (fun name => plain_name name = true)
            (replacements_for (lit "recommendations"))) as Hreps.
  { repeat constructor. }
  split; [reflexivity|]. split; [exact Hreps|]. split.
  - apply (rewrite_raises_without_names scenario_A (lit "recommendations") []
             eq_refl (Forall_nil_2 _)).
    split; [reflexivity|vm_compute; lia].
  - intros Hnone.
    apply (rewrite_raises_without_names scenario_A (lit "recommendations") _
             eq_refl Hreps) in Hnone as [Hnil _].
    vm_compute in Hnil. discriminate.
Defined.

(** ** The naming strategies *)

Lemma qualified_true (var n : str) :
  qualified var n = true → ∃ q, identifier q = true ∧ n = q ++ "_"%char :: var.
Proof.
  unfold qualified. intros [Hq Hn%bool_decide_eq_true]%andb_true_iff. eauto.
Qed.

Lemma qualified_intro (var q : str) :
  identifier q = true → qualified var (q ++ "_"%char :: var) = true.
Proof.
  intros Hq. unfold qualified.
  replace (length (q ++ "_"%char :: var) - S (length var)) with (length q)
    by (rewrite length_app; simpl; lia).
  rewrite take_app_length, Hq. by rewrite bool_decide_eq_true_2.
Qed.

Lemma naming_strategies_well_formed :
  forallb strategy_well_formed naming_strategies = true.
Proof. vm_compute. reflexivity. Qed.

(** X7: for every identifier there are six replacement names, pairwise
    distinct, each made of a qualifier, an underscore and the identifier;
    the first qualifier is [initial] and the last is [final]. *)
Theorem replacement_names_shape (var : str) :
  identifier var = true →
  let names := replacements_for var in
  length names = 6
  ∧ NoDup names
  ∧ Forall (fun n => ∃ q, identifier q = true ∧ n = q ++ "_"%char :: var) names
  ∧ head names = Some (lit "initial_" ++ var)
  ∧ last names = Some (lit "final_" ++ var).
Proof.
  intros Hv names. unfold names, replacements_for.
  destruct (dict_get naming_strategies var) as [reps|] eqn:E; simpl.
  - apply dict_get_elem in E.
    pose proof naming_strategies_well_formed as H. rewrite forallb_forall in H.
    apply list_elem_of_In in E. specialize (H _ E). simpl in H.
    repeat (apply andb_true_iff in H as [H ?]).
    repeat match goal with
           | H : bool_decide _ = true |- _ => apply bool_decide_eq_true in H
           end.
    repeat split; try done.
    apply Forall_forall. intros n Hn. apply qualified_true.
    match goal with
    | H : forallb _ _ = true |- _ => rewrite forallb_forall in H; apply H
    end.
    by apply list_elem_of_In.
  - unfold generic_names. split; [done|]. split; [|split; [|done]].
    + repeat (apply NoDup_cons; split;
              [rewrite ?not_elem_of_cons; repeat split; try discriminate; apply not_elem_of_nil|]).
      apply NoDup_nil_2.
    + repeat constructor.
      * by exists (lit "initial").
      * by exists (lit "base").
      * by exists (lit "enhanced").
      * by exists (lit "processed").
      * by exists (lit "updated").
      * by exists (lit "final").
Qed.

Lemma replacement_names_shape_witness :
  identifier (lit "scratch") = true
  ∧ length (replacements_for (lit "scratch")) = 6
  ∧ NoDup (replacements_for (lit "scratch"))
  ∧ Forall (fun n => ∃ q, identifier q = true ∧ n = q ++ "_"%char :: lit "scratch")
      (replacements_for (lit "scratch"))
  ∧ head (replacements_for (lit "scratch")) = Some (lit "initial_" ++ lit "scratch")
  ∧ last (replacements_for (lit "scratch")) = Some (lit "final_" ++ lit "scratch").
Proof.
  split; [reflexivity|].
  exact (replacement_names_shape (lit "scratch") eq_refl).
Defined.

(** ** The region locator *)

Lemma weave_cons_gap (c : ascii) (g : str) (gaps regions : list str) :
  weave ((c :: g) :: gaps) regions = c :: weave (g :: gaps) regions.
Proof. by destruct regions. Qed.

Lemma weave_cons_region (g r : str) (gaps regions : list str) :
  weave (g :: gaps) (r :: regions) = g ++ r ++ weave gaps regions.
Proof. done. Qed.

Lemma finditer_weave (s : str) :
  ∃ gaps, length gaps = S (length (finditer_from 0 s))
          ∧ s = weave gaps (finditer_from 0 s).
Proof.
  remember (length s) as n eqn:Hn. revert s Hn.
  induction n as [n IH] using lt_wf_ind. intros s ->.
  destruct s as [|c s]; [by exists [[]]|].
  cbn [finditer_from].
  destruct (function_match (c :: s)) as [m|] eqn:E.
  - destruct (function_match_prefix _ _ E) as (post & Hs & Hdef).
    assert (m ≠ []) as Hm by (intros ->; done).
    rewrite finditer_from_skip.
    assert (drop (length m - 1) s = post) as ->.
    { destruct m as [|c' m]; [done|]. injection Hs as -> ->.
      simpl. rewrite Nat.sub_0_r. by rewrite drop_app_length. }
    destruct (IH (length post)) with (s := post) as (gaps & Hlen & Hpost); [|done|].
    { rewrite Hs, length_app. destruct m; [done|]. simpl. lia. }
    exists ([] :: gaps). split; [simpl; lia|].
    by rewrite weave_cons_region, <- Hpost.
  - destruct (IH (length s)) with (s := s) as (gaps & Hlen & Hs); [simpl; lia|done|].
    destruct gaps as [|g gaps]; [done|].
    exists ((c :: g) :: gaps). split; [done|]. by rewrite weave_cons_gap, <- Hs.
Qed.

(** X8: the regions found in a text do not overlap and come in the order
    of the text: the text is a stretch outside every region, the first
    region, a stretch, the second region, and so on to a last stretch;
    and every region starts with the keyword [def]. *)
Theorem regions_partition_text (content : str) :
  ∃ gaps,
    length gaps = S (length (find_functions content))
    ∧ content = weave gaps (find_functions content)
    ∧ Forall (fun region => starts_with (lit "def") region = true) (find_functions content).
Proof.
  destruct (finditer_weave content) as (gaps & Hlen & Hw).
  exists gaps. repeat split; try done.
  apply Forall_forall. intros region (pre & s & _ & Hm)%finditer_from_elem.
  by apply function_match_prefix in Hm as (_ & _ & ?).
Qed.

Lemma str_contains_true (sub s : str) :
  str_contains sub s = true ↔ ∃ a b, s = a ++ sub ++ b.
Proof.
  induction s as [|c s IH]; simpl.
  - rewrite orb_false_r, starts_with_true. split.
    + intros [r Hr]. by exists [], r.
    + intros (a & b & H). destruct a; [by exists b|done].
  - rewrite orb_true_iff, starts_with_true, IH. split.
    + intros [[r Hr]|(a & b & ->)]; [by exists [], r|by exists (c :: a), b].
    + intros ([|c' a] & b & H); [left; by exists b|].
      injection H as -> ->. right. by exists a, b.
Qed.

Lemma region_within_text (content region : str) :
  region ∈ find_functions content → ∃ a b, content = a ++ region ++ b.
Proof.
  intros (pre & s & -> & Hm)%finditer_from_elem.
  apply function_match_prefix in Hm as (post & -> & _). by exists pre, post.
Qed.

(** X9: a text in which the identifier is nowhere followed by one space
    and [=] is returned as it is by [fix_variable_in_content], whatever
    its regions. *)
Theorem absent_literal_leaves_text (content var : str) :
  identifier var = true →
  str_contains (var ++ lit " =") content = false →
  fix_variable_in_content content var = Some content.
Proof.
  intros _ Habsent. unfold fix_variable_in_content.
  assert (∀ func, func ∈ find_functions content →
                  str_contains (var ++ lit " =") func = false) as Hgate.
  { intros func (a & b & ->)%region_within_text.
    destruct (str_contains (var ++ lit " =") func) eqn:E; [|done].
    apply str_contains_true in E as (a' & b' & ->).
    assert (str_contains (var ++ lit " =") (a ++ (a' ++ (var ++ lit " =") ++ b') ++ b) = true)
      as Hc; [|congruence].
    apply str_contains_true. exists (a ++ a'), (b' ++ b). by rewrite <- !app_assoc. }
  revert Hgate. generalize (find_functions content).
  induction l as [|func rest IH]; intros Hgate; [done|]. simpl.
  unfold fix_one_function at 1. rewrite Hgate by left. simpl.
  apply IH. intros f Hf. apply Hgate. by right.
Qed.

Lemma absent_literal_leaves_text_witness :
  identifier (lit "total") = true
  ∧ str_contains (lit "total" ++ lit " =") tight_assignments = false
  ∧ fix_variable_in_content tight_assignments (lit "total") = Some tight_assignments.
Proof.
  split; [reflexivity|]. split; [reflexivity|].
  apply absent_literal_leaves_text; reflexivity.
Defined.

(** ** [vars_to_fix]: the issues grouped by variable *)

Lemma dict_append_keys_eq (d : list (str * list str)) (k v : str) :
  (dict_append d k v).*1 = if bool_decide (k ∈ d.*1) then d.*1 else d.*1 ++ [k].
Proof.
  induction d as [|[k' v'] d IH]; [done|]. cbn [dict_append].
  destruct (decide (k' = k)) as [->|Hne].
  - rewrite (bool_decide_eq_true_2 (k = k)) by done.
    by rewrite bool_decide_eq_true_2 by left.
  - rewrite (bool_decide_eq_false_2 (k' = k)) by done.
    rewrite !fmap_cons, IH. cbn [fst].
    destruct (decide (k ∈ d.*1)) as [Hin|Hout].
    + rewrite (bool_decide_eq_true_2 (k ∈ d.*1)) by done.
      by rewrite bool_decide_eq_true_2 by by right.
    + rewrite (bool_decide_eq_false_2 (k ∈ d.*1)) by done.
      rewrite bool_decide_eq_false_2; [done|].
      intros [->|?]%elem_of_cons; done.
Qed.

Ltac decide_all :=
  repeat match goal with
         | |- context [bool_decide ?P] =>
             destruct (decide P);
             [rewrite (bool_decide_eq_true_2 P) by done
             |rewrite (bool_decide_eq_false_2 P) by done]
         end.

Lemma dict_get_append (d : list (str * list str)) (k x v : str) :
  dict_get (dict_append d k x) v
  = if bool_decide (k = v) then Some (default [] (dict_get d k) ++ [x])
    else dict_get d v.
Proof.
  induction d as [|[k' v'] d IH]; cbn [dict_append dict_get].
  - decide_all; done.
  - destruct (decide (k' = k)) as [->|Hne].
    + rewrite (bool_decide_eq_true_2 (k = k)) by done. cbn [dict_get].
      decide_all; done.
    + rewrite (bool_decide_eq_false_2 (k' = k)) by done. cbn [dict_get]. rewrite IH.
      decide_all; subst; done.
Qed.

Lemma unseen_names_ext (s1 s2 names : list str) :
  (∀ x, x ∈ s1 ↔ x ∈ s2) → unseen_names s1 names = unseen_names s2 names.
Proof.
  revert s1 s2. induction names as [|x names IH]; intros s1 s2 H; [done|]. simpl.
  rewrite (bool_decide_ext (x ∈ s1) (x ∈ s2)) by apply H.
  case_bool_decide; [by apply IH|]. f_equal. apply IH.
  intros y. rewrite !elem_of_cons. by rewrite H.
Qed.

Lemma unseen_names_spec (seen names : list str) :
  NoDup (unseen_names seen names)
  ∧ ∀ x, x ∈ unseen_names seen names ↔ x ∈ names ∧ x ∉ seen.
Proof.
  revert seen. induction names as [|y names IH]; intros seen; simpl.
  - split; [constructor|]. intros x. rewrite elem_of_nil. tauto.
  - case_bool_decide as E.
    + destruct (IH seen) as [Hnd Hin]. split; [done|].
      intros x. rewrite Hin, elem_of_cons. split; [tauto|].
      intros [[->|?] ?]; tauto.
    + destruct (IH (y :: seen)) as [Hnd Hin]. split.
      * constructor; [|done]. rewrite Hin, elem_of_cons. tauto.
      * intros x. rewrite !elem_of_cons, Hin, elem_of_cons.
        destruct (decide (x = y)) as [->|]; tauto.
Qed.

Lemma group_issues_fold (var_issues : list (str * str)) (d : list (str * list str)) :
  let d' := fold_left (fun d '(var_name, line_num) => dict_append d var_name line_num)
              var_issues d in
  d'.*1 = d.*1 ++ unseen_names d.*1 var_issues.*1
  ∧ ∀ v, dict_get d' v
         = match dict_get d v with
           | Some vs => Some (vs ++ lines_reported v var_issues)
           | None => if bool_decide (v ∈ var_issues.*1)
                     then Some (lines_reported v var_issues) else None
           end.
Proof.
  revert d. induction var_issues as [|[k x] rest IH]; intros d; simpl.
  - split; [by rewrite app_nil_r|]. intros v.
    destruct (dict_get d v); [by rewrite app_nil_r|done].
  - destruct (IH (dict_append d k x)) as [Hkeys Hget]. split.
    + rewrite Hkeys, dict_append_keys_eq. case_bool_decide as E; [done|].
      rewrite <- app_assoc. simpl. f_equal. f_equal.
      apply unseen_names_ext. intros y. rewrite elem_of_app, !elem_of_cons, elem_of_nil.
      tauto.
    + intros v. rewrite Hget, dict_get_append. unfold lines_reported.
      rewrite filter_cons. simpl.
      case_bool_decide as Ekv.
      * subst k. rewrite decide_True by done. simpl.
        destruct (dict_get d v) as [vs|]; simpl.
        -- by rewrite <- app_assoc.
        -- by rewrite bool_decide_eq_true_2 by left.
      * rewrite decide_False by done.
        destruct (dict_get d v) as [vs|]; [done|].
        decide_all; try done; exfalso;
          match goal with
          | H : ¬ _ ∈ _ :: _ |- _ => apply H; by right
          | H : _ ∈ _ :: _ |- _ => apply elem_of_cons in H as [->|?]; done
          end.
Qed.

(** X10: [vars_to_fix] holds every reported variable once, in the order
    of its first report, with the line numbers reported for it in the
    order of the report; a variable that was not reported is no key. *)
Theorem issues_grouped_by_variable (var_issues : list (str * str)) :
  (group_issues var_issues).*1 = unseen_names [] var_issues.*1
  ∧ NoDup (group_issues var_issues).*1
  ∧ (∀ v, v ∈ (group_issues var_issues).*1 ↔ v ∈ var_issues.*1)
  ∧ (∀ v, dict_get (group_issues var_issues) v
          = if bool_decide (v ∈ var_issues.*1)
            then Some (lines_reported v var_issues) else None).
Proof.
  destruct (group_issues_fold var_issues []) as [Hkeys Hget].
  destruct (unseen_names_spec [] var_issues.*1) as [Hnd Hin].
  unfold group_issues. simpl in Hkeys. rewrite Hkeys.
  split; [done|]. split; [done|]. split; [|exact Hget].
  intros v. rewrite Hin. split; [tauto|]. intros ?. split; [done|apply not_elem_of_nil].
Qed.

(** ** The orchestrator and the other files *)

Lemma fix_specific_file_issues_outcome (w : world) (filepath : string)
    (var_issues : list (str * str)) :
  let '(w', changed) := fix_specific_file_issues w filepath var_issues in
  (changed = true
   ∧ ∃ f data, files w !! filepath = Some f ∧ file_writable f = true
               ∧ files w'
                 = <[filepath := File data (file_readable f) true (file_room f)]> (files w)
               ∧ trace w' = trace w ++ [Wrote filepath data])
  ∨ (changed = false
     ∧ ∃ f data, files w !! filepath = Some f ∧ file_writable f = true
                 ∧ files w'
                   = <[filepath := File data (file_readable f) true (file_room f)]> (files w)
                 ∧ trace w' = trace w ++ [Truncated filepath data]
                                      ++ [PrintedError filepath OSError])
  ∨ (changed = false ∧ files w' = files w
     ∧ (trace w' = trace w ∨ ∃ e, trace w' = trace w ++ [PrintedError filepath e])).
Proof.
  unfold fix_specific_file_issues, try_fix_file, read_file.
  destruct (files w !! filepath) as [f|] eqn:Hf.
  2:{ right. right. repeat split; try done. right. by eexists. }
  destruct (file_readable f).
  2:{ right. right. repeat split; try done. right. by eexists. }
  destruct (fix_variables _ _) as [content|].
  2:{ right. right. repeat split; try done. right. by eexists. }
  case_bool_decide.
  { right. right. repeat split; try done. by left. }
  unfold write_file. rewrite Hf. destruct (file_writable f) eqn:Hw.
  - destruct (room_for f content).
    + left. split; [done|]. by exists f, content.
    + right. left. split; [done|]. exists f, (taken f content).
      simpl. by rewrite <- app_assoc.
  - right. right. repeat split; try done. right. by eexists.
Qed.

(** X11: a call of the orchestrator never touches another file than the
    one it is given, creates no file, and leaves the permissions of its
    file as they are. *)
Theorem other_files_untouched (w : world) (filepath : string)
    (var_issues : list (str * str)) :
  let w' := (fix_specific_file_issues w filepath var_issues).1 in
  (∀ other, other ≠ filepath → files w' !! other = files w !! other)
  ∧ (is_Some (files w' !! filepath) ↔ is_Some (files w !! filepath))
  ∧ file_readable <$> files w' !! filepath = file_readable <$> files w !! filepath
  ∧ file_writable <$> files w' !! filepath = file_writable <$> files w !! filepath.
Proof.
  pose proof (fix_specific_file_issues_outcome w filepath var_issues) as H.
  destruct (fix_specific_file_issues w filepath var_issues) as [w' changed]. simpl.
  assert (∀ f data, files w !! filepath = Some f → file_writable f = true →
            files w' = <[filepath := File data (file_readable f) true (file_room f)]>
                         (files w) →
            (∀ other, other ≠ filepath → files w' !! other = files w !! other)
            ∧ (is_Some (files w' !! filepath) ↔ is_Some (files w !! filepath))
            ∧ file_readable <$> files w' !! filepath = file_readable <$> files w !! filepath
            ∧ file_writable <$> files w' !! filepath
              = file_writable <$> files w !! filepath) as Hwritten.
  { intros f data Hf Hw ->. split; [|split; [|split]].
    - intros other Hne. by rewrite lookup_insert_ne.
    - rewrite lookup_insert_eq, Hf. split; eauto.
    - by rewrite lookup_insert_eq, Hf.
    - rewrite lookup_insert_eq, Hf. simpl. by rewrite Hw. }
  destruct H as [(_ & f & data & Hf & Hw & Hfiles & _)
                |[(_ & f & data & Hf & Hw & Hfiles & _)|(_ & -> & _)]]; [| |done].
  - by apply (Hwritten f data).
  - by apply (Hwritten f data).
Qed.

Lemma writes_in_snoc (events : list event) (e : event) :
  writes_in (events ++ [e]) = writes_in events + (if is_write e then 1 else 0).
Proof.
  unfold writes_in. rewrite List.filter_app, length_app. simpl. by destruct (is_write e).
Qed.

(** X12: the loop over the files.  The count it returns grows by the
    number of files written, which is the number of writes added to the
    trace and at most the number of files in the list; a file that is not
    in the list is left as it was. *)
Theorem batch_counts_writes (w : world) (todo : list (string * list (str * str)))
    (fixed_count : nat) :
  let result := fix_all_files w todo fixed_count in
  writes_in (trace result.1) + fixed_count = writes_in (trace w) + result.2
  ∧ fixed_count ≤ result.2 ≤ fixed_count + length todo
  ∧ (∀ other, other ∉ todo.*1 → files result.1 !! other = files w !! other).
Proof.
  revert w fixed_count. induction todo as [|[filepath issues] rest IH]; intros w n.
  { simpl. repeat split; lia. }
  cbn [fix_all_files].
  pose proof (fix_specific_file_issues_outcome w filepath issues) as H.
  destruct (fix_specific_file_issues w filepath issues) as [w' changed].
  assert (∀ other, other ≠ filepath → files w' !! other = files w !! other) as Hframe.
  { intros other Hne.
    destruct H as [(_ & f & data & _ & _ & -> & _)
                  |[(_ & f & data & _ & _ & -> & _)|(_ & -> & _)]]; [| |done];
      by rewrite lookup_insert_ne. }
  destruct (IH w' (if changed then S n else n)) as (Hcount & Hbound & Hother).
  assert (writes_in (trace w') = writes_in (trace w) + (if changed then 1 else 0)) as Hw.
  { destruct H as [(-> & f & data & _ & _ & _ & ->)
                  |[(-> & f & data & _ & _ & _ & ->)|(-> & _ & [->|[e ->]])]].
    - by rewrite writes_in_snoc.
    - rewrite app_assoc, !writes_in_snoc. simpl. lia.
    - lia.
    - rewrite writes_in_snoc. simpl. lia. }
  split; [|split].
  - destruct changed; lia.
  - simpl. destruct changed; lia.
  - intros other Hnot. rewrite fmap_cons in Hnot. apply not_elem_of_cons in Hnot as [Hne Hnot].
    rewrite Hother by done. by apply Hframe.
Qed.

(** ** The archived rewriter [process_function] *)

Lemma sub_unassigned_from_no_newline (old new : str) (prev : option ascii) (skip : nat) (s : str) :
  no_newline new → no_newline s → no_newline (sub_unassigned_from old new prev skip s).
Proof.
  unfold no_newline. intros Hnew. revert prev skip.
  induction s as [|c s IH]; intros prev skip Hs; [done|].
  assert (newline ∉ s) as Hs' by (intros ?; apply Hs; by right).
  assert (newline ≠ c) as Hc by (intros E; apply Hs; rewrite E; left).
  cbn [sub_unassigned_from]. destruct skip as [|k]; [|by apply IH].
  destruct (word_match_unassigned old prev (c :: s)).
  - rewrite elem_of_app. intros [?|?]; [done|]. by eapply IH.
  - rewrite elem_of_cons. intros [?|?]; [done|]. by eapply IH.
Qed.

Lemma Forall_insert_line (P : str → Prop) (lines : list str) (j : nat) (l : str) :
  Forall P lines → P l → Forall P (<[j := l]> lines).
Proof. intros. by apply Forall_insert. Qed.

Lemma update_references_archived_spec (var new : str) (used : list str) (idx : nat)
    (js : list nat) (lines : list str) :
  Forall (fun j => j < length lines) js →
  (0 < idx → idx - 1 < length used) →
  ∃ lines', update_references_archived var new used idx js lines = Some lines'
    ∧ length lines' = length lines
    ∧ (∀ j, j ∉ js → lines' !! j = lines !! j)
    ∧ (no_newline new → Forall no_newline lines → Forall no_newline lines').
Proof.
  intros Hlt Hused. revert lines Hlt. induction js as [|j js IH]; intros lines Hlt.
  { exists lines. repeat split; done. }
  apply Forall_cons in Hlt as [Hj Hlt].
  destruct (lookup_lt_is_Some_2 lines j Hj) as [line Hline].
  cbn [update_references_archived]. rewrite Hline. cbn [mbind option_bind].
  destruct (is_assignment_like var line).
  - destruct (IH lines Hlt) as (lines' & -> & Hlen & Hout & Hnl).
    exists lines'. repeat split; try done.
    intros j0 Hj0. apply not_elem_of_cons in Hj0 as [_ ?]. by apply Hout.
  - assert (∃ prev, (if 0 <? idx then used !! (idx - 1) else Some var) = Some prev)
      as [prev ->].
    { destruct (Nat.ltb_spec 0 idx); [|by eexists].
      apply lookup_lt_is_Some_2. by apply Hused. }
    cbn [mbind option_bind].
    destruct (IH (<[j := sub_unassigned prev new line]> lines)) as (lines' & -> & Hlen & Hout & Hnl).
    { by rewrite length_insert. }
    exists lines'. split; [done|]. rewrite length_insert in Hlen. split; [done|]. split.
    + intros j0 Hj0. apply not_elem_of_cons in Hj0 as [Hne ?].
      rewrite Hout by done. by rewrite list_lookup_insert_ne.
    + intros Hnew Hall. apply Hnl; [done|]. apply Forall_insert; [done|].
      apply sub_unassigned_from_no_newline; [done|].
      rewrite Forall_lookup in Hall. by eapply Hall.
Qed.

Lemma rename_assignments_archived_spec (var : str) (reps : list str) :
  ∀ (sites : list nat) (idx : nat) (lines used : list str),
  StronglySorted lt sites → Forall (fun a => a < length lines) sites →
  length used = idx →
  ∃ lines' used',
    rename_assignments_archived var reps idx sites lines used = Some (lines', used')
    ∧ length lines' = length lines
    ∧ used' = used ++ take (length sites) (drop idx reps)
    ∧ (∀ k a, sites !! k = Some a →
         lines' !! a
         = (fun l => match reps !! (idx + k) with
                     | Some n => sub_assignment var n l
                     | None => l
                     end) <$> lines !! a)
    ∧ (∀ j, (∀ a, a ∈ sites → j < a) → lines' !! j = lines !! j)
    ∧ (Forall (fun n => identifier n = true) reps →
       Forall no_newline lines → Forall no_newline lines').
Proof.
  induction sites as [|a rest IH]; intros idx lines used Hsort Hlt Hused.
  { exists lines, used. repeat split; try done. by rewrite app_nil_r. }
  apply StronglySorted_inv in Hsort as [Hsort Hrest].
  apply Forall_cons in Hlt as [Halt Hlt].
  rewrite Forall_forall in Hrest.
  cbn [rename_assignments_archived].
  destruct (length reps <=? idx) eqn:Hidx.
  { apply Nat.leb_le in Hidx. exists lines, used. repeat split; try done.
    - rewrite drop_ge by done. by rewrite take_nil, app_nil_r.
    - intros k a' Hk. rewrite (lookup_ge_None_2 reps (idx + k)) by lia.
      symmetry. exact (option_fmap_id _). }
  apply Nat.leb_gt in Hidx.
  destruct (lookup_lt_is_Some_2 reps idx Hidx) as [new Hnew].
  destruct (lookup_lt_is_Some_2 lines a Halt) as [line Hline].
  rewrite Hnew, Hline. cbn [mbind option_bind].
  set (lines1 := <[a := sub_assignment var new line]> lines).
  set (stop := match rest with next :: _ => next | [] => length lines1 end).
  assert (length lines1 = length lines) as Hlen1 by apply length_insert.
  assert (stop ≤ length lines) as Hstop.
  { unfold stop. destruct rest as [|next rest']; [lia|].
    apply Forall_cons in Hlt as [? _]. lia. }
  assert (∀ a', a' ∈ rest → stop ≤ a' ∧ a < a') as Hafter.
  { intros a' Ha'. split; [|by apply Hrest].
    unfold stop. destruct rest as [|next rest']; [by apply elem_of_nil in Ha'|].
    apply elem_of_cons in Ha' as [->|Ha']; [done|].
    apply StronglySorted_inv in Hsort as [_ Hnext].
    rewrite Forall_forall in Hnext. specialize (Hnext _ Ha'). lia. }
  destruct (update_references_archived_spec var new (used ++ [new]) idx
              (py_range (a + 1) stop) lines1)
    as (lines2 & -> & Hlen2 & Hout2 & Hnl2).
  { apply Forall_forall. intros j Hj%py_range_elem. lia. }
  { intros _. rewrite length_app. simpl. lia. }
  cbn [mbind option_bind].
  destruct (IH (S idx) lines2 (used ++ [new]))
    as (lines' & used' & -> & Hlen' & Hused' & Hsites' & Hbefore' & Hnl'); [done| | |].
  { eapply Forall_impl; [exact Hlt|]. simpl. intros. lia. }
  { rewrite length_app. simpl. lia. }
  exists lines', used'. split; [done|]. split; [lia|]. split; [|split; [|split]].
  - rewrite Hused', <- app_assoc. f_equal. simpl.
    by rewrite (drop_S _ _ _ Hnew).
  - intros k a' Hk. destruct k as [|k]; simpl in Hk.
    + injection Hk as <-. rewrite Hbefore'.
      2:{ intros a' Ha'. by apply Hafter. }
      rewrite Hout2. 2:{ rewrite py_range_elem. lia. }
      unfold lines1. rewrite list_lookup_insert_eq by done.
      by rewrite Nat.add_0_r, Hnew, Hline.
    + assert (a' ∈ rest) as Ha' by by eapply list_elem_of_lookup_2.
      destruct (Hafter _ Ha') as [? ?].
      rewrite (Hsites' _ _ Hk).
      rewrite Hout2. 2:{ rewrite py_range_elem. lia. }
      unfold lines1. rewrite list_lookup_insert_ne by lia.
      by replace (S idx + k) with (idx + S k) by lia.
  - intros j Hj.
    assert (j < a) as Hja by (apply Hj; left).
    rewrite Hbefore'. 2:{ intros a' Ha'. apply Hj. by right. }
    rewrite Hout2. 2:{ rewrite py_range_elem. lia. }
    unfold lines1. by rewrite list_lookup_insert_ne by lia.
  - intros Hreps Hall. apply Hnl'; [done|].
    assert (identifier new = true) as Hid.
    { rewrite Forall_forall in Hreps. apply Hreps. by eapply list_elem_of_lookup_2. }
    apply Hnl2; [by apply identifier_no_newline|].
    apply Forall_insert; [done|]. apply sub_assignment_no_newline; [done|].
    rewrite Forall_lookup in Hall. by eapply Hall.
Qed.

Lemma fix_final_references_archived_spec (var final : str) (indices : list nat)
    (lines : list str) :
  NoDup indices →
  Forall (fun i => i < length lines) indices →
  ∃ lines', fix_final_references_archived var final indices lines = Some lines'
    ∧ length lines' = length lines
    ∧ (∀ j, j ∉ indices → lines' !! j = lines !! j)
    ∧ (identifier var = true → identifier final = true →
       Forall no_newline lines → Forall no_newline lines')
    ∧ (∀ i, i ∈ indices →
         lines' !! i
         = (fun l => if has_word var l && negb (has_assignment var l)
                     then sub_word var final l else l) <$> lines !! i).
Proof.
  intros Hnd. revert lines. induction indices as [|i rest IH]; intros lines Hlt.
  { exists lines. repeat split; try done. by intros i ?%elem_of_nil. }
  apply NoDup_cons in Hnd as [Hi_rest Hnd]. specialize (IH Hnd).
  apply Forall_cons in Hlt as [Hi Hlt].
  destruct (lookup_lt_is_Some_2 lines i Hi) as [line Hline].
  cbn [fix_final_references_archived]. rewrite Hline. cbn [mbind option_bind].
  set (lines1 := if has_word var line && negb (has_assignment var line)
                 then <[i := sub_word var final line]> lines else lines).
  assert (length lines1 = length lines) as Hlen1.
  { unfold lines1. destruct (_ && _); [apply length_insert|done]. }
  assert (∀ j, j ≠ i → lines1 !! j = lines !! j) as Hne1.
  { intros j Hne. unfold lines1. destruct (_ && _); [|done].
    by rewrite list_lookup_insert_ne. }
  destruct (IH lines1) as (lines' & -> & Hlen & Hout & Hnl & Hin); [by rewrite Hlen1|].
  exists lines'. split; [done|]. split; [lia|]. split; [|split].
  - intros j Hj. apply not_elem_of_cons in Hj as [Hne Hj].
    rewrite Hout by done. by apply Hne1.
  - intros Hv Hf Hall. apply Hnl; try done. unfold lines1.
    destruct (_ && _); [|done]. apply Forall_insert; [done|].
    apply sub_word_no_newline; try done. rewrite Forall_lookup in Hall. by eapply Hall.
  - intros j [->|Hj]%elem_of_cons.
    + rewrite Hout by done. unfold lines1. rewrite Hline. simpl.
      destruct (_ && _); [|done]. by rewrite list_lookup_insert_eq.
    + rewrite (Hin _ Hj). rewrite Hne1; [done|]. by intros ->.
Qed.

Lemma py_getitem_last {A} (l : list A) : l ≠ [] → py_getitem l (-1) = last l.
Proof.
  intros Hl. unfold py_getitem.
  assert (0 < length l) by (destruct l; [done|simpl; lia]).
  destruct (Z.ltb_spec (-1) 0); [|lia].
  destruct (Z.ltb_spec (Z.of_nat (length l) + -1) 0); [lia|].
  rewrite last_lookup. f_equal. lia.
Qed.

Lemma py_range_down_to_elem (n last i : nat) :
  i ∈ py_range_down_to n last ↔ last < i < n.
Proof.
  unfold py_range_down_to.
  rewrite list_elem_of_In, <- in_rev, <- list_elem_of_In, py_range_elem. lia.
Qed.

(** The lines [process_function] returns when it goes through its loops. *)
Lemma process_function_lines (func var : str) (reps : list str) :
  let lines := split_lines func in
  let sites := find_assignment_lines var lines in
  str_contains (var ++ lit " =") func = true →
  1 < length sites →
  ∃ lines2,
    process_function func var reps = Some (join_lines lines2)
    ∧ length lines2 = length lines
    ∧ (∀ k a, sites !! k = Some a →
         lines2 !! a
         = (fun l => match reps !! k with
                     | Some n => sub_assignment var n l
                     | None => l
                     end) <$> lines !! a)
    ∧ (∀ j, (∀ a, a ∈ sites → j < a) → lines2 !! j = lines !! j)
    ∧ (identifier var = true → Forall (fun n => identifier n = true) reps →
       Forall no_newline lines2)
    ∧ (reps ≠ [] →
       ∃ final, final ∈ reps
         ∧ ∀ j l2, (∀ a, a ∈ sites → a < j) → lines2 !! j = Some l2 →
             ∃ l1, l2 = if has_word var l1 && negb (has_assignment var l1)
                        then sub_word var final l1 else l1).
Proof.
  intros lines sites Hgate Hlen. unfold process_function. rewrite Hgate.
  cbn [negb]. fold lines. fold sites.
  destruct (Nat.leb_spec (length sites) 1) as [|_]; [lia|].
  destruct (rename_assignments_archived_spec var reps sites 0 lines [])
    as (lines1 & used & -> & Hlen1 & Hused & Hsites & Hbefore & Hnl1).
  { apply scan_from_sorted. }
  { apply find_assignment_lines_bound. }
  { done. }
  cbn [Nat.add] in Hsites. cbn [mbind option_bind].
  rewrite app_nil_l, drop_0 in Hused.
  pose proof (split_lines_no_newline func) as Hnl0. fold lines in Hnl0.
  destruct used as [|u used'].
  { exists lines1. repeat split; try done; [intros _ Hreps; by apply Hnl1|].
    intros Hne. destruct reps as [|n reps']; [done|].
    destruct sites; [simpl in Hlen; lia|done]. }
  rewrite (py_getitem_last (u :: used')) by done.
  assert (is_Some (last (u :: used'))) as [final Hfinal] by by apply last_is_Some.
  rewrite Hfinal. cbn [mbind option_bind].
  assert (sites ≠ []) as Hne by (destruct sites; [simpl in Hlen; lia|done]).
  rewrite py_getitem_last by done.
  assert (is_Some (last sites)) as [last_site Hlast] by by apply last_is_Some.
  rewrite Hlast. cbn [mbind option_bind].
  destruct (fix_final_references_archived_spec var final
              (py_range_down_to (length lines1) last_site) lines1)
    as (lines2 & -> & Hlen2 & Hout2 & Hnl2 & Hin2).
  { unfold py_range_down_to, py_range. apply NoDup_ListNoDup, List.NoDup_rev, NoDup_ListNoDup, NoDup_seq. }
  { apply Forall_forall. intros i Hi%py_range_down_to_elem. lia. }
  cbn [mbind option_bind].
  assert (final ∈ reps) as Hfinal_in.
  { assert (final ∈ u :: used') as Hin.
    { apply last_Some in Hfinal as [front ->]. apply elem_of_app. right. left. }
    rewrite Hused in Hin.
    by apply elem_of_take in Hin as (? & ?%list_elem_of_lookup_2 & _). }
  assert (∀ a, a ∈ sites → a ≤ last_site) as Hmax.
  { intros a Ha. apply last_Some in Hlast as [front Hfront].
    pose proof (scan_from_sorted var lines 0) as Hsorted.
    fold (find_assignment_lines var lines) in Hsorted. fold sites in Hsorted.
    rewrite Hfront in Hsorted, Ha.
    apply elem_of_app in Ha as [Ha|Ha%list_elem_of_singleton]; [|lia].
    clear -Hsorted Ha. induction front as [|b front IH]; [by apply elem_of_nil in Ha|].
    simpl in Hsorted. apply StronglySorted_inv in Hsorted as [Hs Hb].
    apply elem_of_cons in Ha as [->|Ha]; [|by apply IH].
    rewrite Forall_forall in Hb. assert (b < last_site); [|lia].
    apply Hb. apply elem_of_app. right. left. }
  exists lines2. split; [done|]. split; [lia|]. split; [|split; [|split]].
  - intros k a Hk. rewrite <- (Hsites _ _ Hk). apply Hout2.
    rewrite py_range_down_to_elem.
    assert (a ≤ last_site) by (apply Hmax; by eapply list_elem_of_lookup_2). lia.
  - intros j Hj. rewrite <- (Hbefore _ Hj). apply Hout2.
    rewrite py_range_down_to_elem.
    assert (last_site ∈ sites) as H.
    { apply last_Some in Hlast as [front ->]. apply elem_of_app. right. left. }
    specialize (Hj last_site H). lia.
  - intros Hv Hreps. apply Hnl2; try done; [|by apply Hnl1].
    rewrite Forall_forall in Hreps. by apply Hreps.
  - intros _. exists final. split; [done|]. intros j l2 Hj Hl2.
    assert (last_site ∈ sites) as Hls.
    { apply last_Some in Hlast as [front ->]. apply elem_of_app. right. left. }
    assert (j < length lines1) by (rewrite <- Hlen2; by eapply lookup_lt_Some).
    specialize (Hj _ Hls).
    rewrite Hin2 in Hl2 by (apply py_range_down_to_elem; lia).
    apply fmap_Some in Hl2 as (l1 & _ & ->). by exists l1.
Qed.

Lemma process_function_few_sites (func var : str) (reps : list str) :
  length (find_assignment_lines var (split_lines func)) ≤ 1 →
  process_function func var reps = Some func.
Proof.
  intros H. unfold process_function.
  destruct (negb (str_contains (var ++ lit " =") func)); [done|].
  by destruct (Nat.leb_spec (length (find_assignment_lines var (split_lines func))) 1); [|lia].
Qed.

Lemma process_function_no_literal (func var : str) (reps : list str) :
  str_contains (var ++ lit " =") func = false →
  process_function func var reps = Some func.
Proof. intros H. unfold process_function. by rewrite H. Qed.

Lemma process_function_split (func var : str) (reps : list str) :
  let lines := split_lines func in
  let sites := find_assignment_lines var lines in
  identifier var = true → Forall (fun n => identifier n = true) reps →
  str_contains (var ++ lit " =") func = true →
  1 < length sites →
  ∃ lines2,
    process_function func var reps = Some (join_lines lines2)
    ∧ split_lines (join_lines lines2) = lines2
    ∧ length lines2 = length lines
    ∧ (∀ k a, sites !! k = Some a →
         lines2 !! a
         = (fun l => match reps !! k with
                     | Some n => sub_assignment var n l
                     | None => l
                     end) <$> lines !! a)
    ∧ (∀ j, (∀ a, a ∈ sites → j < a) → lines2 !! j = lines !! j)
    ∧ (reps ≠ [] →
       ∃ final, final ∈ reps
         ∧ ∀ j l2, (∀ a, a ∈ sites → a < j) → lines2 !! j = Some l2 →
             ∃ l1, l2 = if has_word var l1 && negb (has_assignment var l1)
                        then sub_word var final l1 else l1).
Proof.
  intros lines sites Hv Hreps Hgate Hlen.
  destruct (process_function_lines func var reps Hgate Hlen)
    as (lines2 & Hf & Hlen2 & Hs & Hb & Hnl & Htrail).
  exists lines2. repeat split; try done.
  apply split_join_lines; [|by apply Hnl].
  intros ->. pose proof (split_lines_nonempty func) as Hne.
  simpl in Hlen2. by destruct (split_lines func).
Qed.

(** X13: for an identifier and replacement names that are identifiers
    not starting with a digit, the archived rewriter [process_function]
    never fails with an index error, however many names it is given, and
    with no replacement name it returns the text of the region as it is
    (where [fix_function_variable] raises). *)
Theorem archived_rewriter_never_raises (func var : str) (reps : list str) :
  identifier var = true →
  Forall (fun name => plain_name name = true) reps →
  ∃ out, process_function func var reps = Some out ∧ (reps = [] → out = func).
Proof.
  intros _ _.
  destruct (str_contains (var ++ lit " =") func) eqn:Hgate.
  2:{ exists func. split; [by apply process_function_no_literal|done]. }
  destruct (decide (length (find_assignment_lines var (split_lines func)) ≤ 1)) as [Hle|Hgt].
  { exists func. split; [by apply process_function_few_sites|done]. }
  destruct (process_function_lines func var reps Hgate) as (lines2 & Hf & _); [lia|].
  exists (join_lines lines2). split; [done|]. intros ->.
  revert Hf. unfold process_function. rewrite Hgate. cbn [negb].
  destruct (Nat.leb_spec (length (find_assignment_lines var (split_lines func))) 1); [lia|].
  destruct (find_assignment_lines var (split_lines func)) as [|a rest]; [simpl in Hgt; lia|].
  cbn. rewrite join_split_lines. congruence.
Qed.

Lemma archived_rewriter_never_raises_witness :
  let var := lit "recommendations" in
  identifier var = true
  ∧ Forall (fun name => plain_name name = true) (generic_names_archived var)
  ∧ (∃ out, process_function scenario_A var (generic_names_archived var) = Some out
            ∧ (generic_names_archived var = [] → out = scenario_A))
  ∧ ∃ out, process_function scenario_A var [] = Some out
           ∧ (@nil str = [] → out = scenario_A).
Proof.
  assert (Forall (fun name => plain_name name = true)
            (generic_names_archived (lit "recommendations"))) as Hreps.
  { repeat constructor. }
  split; [reflexivity|]. split; [exact Hreps|]. split.
  - exact (archived_rewriter_never_raises scenario_A (lit "recommendations") _
             eq_refl Hreps).
  - exact (archived_rewriter_never_raises scenario_A (lit "recommendations") []
             eq_refl (Forall_nil_2 _)).
Defined.

(** X14: [process_function] keeps the number of lines and never changes a
    line above the first assignment site: its final pass only visits the
    lines below the last site. *)
Theorem archived_rewriter_keeps_lines_above (func var : str) (reps : list str) :
  identifier var = true → Forall (fun n => identifier n = true) reps →
  ∃ out,
    process_function func var reps = Some out
    ∧ length (split_lines out) = length (split_lines func)
    ∧ ∀ j, (∀ a, a ∈ find_assignment_lines var (split_lines func) → j < a) →
           split_lines out !! j = split_lines func !! j.
Proof.
  intros Hv Hreps.
  destruct (str_contains (var ++ lit " =") func) eqn:Hgate.
  2:{ exists func. split; [by apply process_function_no_literal|done]. }
  destruct (decide (length (find_assignment_lines var (split_lines func)) ≤ 1)) as [Hle|Hgt].
  { exists func. split; [by apply process_function_few_sites|done]. }
  destruct (process_function_split func var reps Hv Hreps Hgate)
    as (lines2 & Hf & Hsplit & Hlen2 & _ & Hb & _); [lia|].
  exists (join_lines lines2). rewrite Hsplit. done.
Qed.

Lemma archived_rewriter_keeps_lines_above_witness :
  let var := lit "alerts" in
  (identifier var = true ∧ Forall (fun n => identifier n = true) (generic_names_archived var))
  ∧ ∃ out,
      process_function piped_argument var (generic_names_archived var) = Some out
      ∧ length (split_lines out) = length (split_lines piped_argument)
      ∧ ∀ j, (∀ a, a ∈ find_assignment_lines var (split_lines piped_argument) → j < a) →
             split_lines out !! j = split_lines piped_argument !! j.
Proof.
  assert (identifier (lit "alerts") = true) as Hv by reflexivity.
  assert (Forall (fun n => identifier n = true) (generic_names_archived (lit "alerts")))
    as Hreps by (repeat constructor).
  split; [done|].
  exact (archived_rewriter_keeps_lines_above piped_argument _ _ Hv Hreps).
Defined.

(** X15: on a region that holds the literal [var =], the archived
    rewriter and [fix_function_variable] return the same number of lines
    and the same text on every assignment site. *)
Theorem rewriters_agree_on_assignments (func var : str) (reps : list str) :
  identifier var = true → names_ok var reps →
  str_contains (var ++ lit " =") func = true →
  ∃ out1 out2,
    fix_function_variable func var reps = Some out1
    ∧ process_function func var reps = Some out2
    ∧ length (split_lines out1) = length (split_lines out2)
    ∧ ∀ a, a ∈ find_assignment_lines var (split_lines func) →
           split_lines out1 !! a = split_lines out2 !! a.
Proof.
  intros Hv Hreps Hgate.
  destruct (decide (length (find_assignment_lines var (split_lines func)) ≤ 1)) as [Hle|Hgt].
  { exists func, func. split; [by apply few_sites_unchanged|].
    split; [by apply process_function_few_sites|done]. }
  destruct (fix_function_variable_split var reps Hv Hreps func)
    as (lines1 & Hf1 & Hsplit1 & Hlen1 & Hs1 & _); [lia|].
  destruct (process_function_split func var reps Hv (proj1 (proj2 Hreps)) Hgate)
    as (lines2 & Hf2 & Hsplit2 & Hlen2 & Hs2 & _ & _); [lia|].
  exists (join_lines lines1), (join_lines lines2).
  rewrite Hsplit1, Hsplit2. repeat split; try done; [congruence|].
  intros a (k & Hk)%list_elem_of_lookup.
  by rewrite (Hs1 _ _ Hk), (Hs2 _ _ Hk).
Qed.

Lemma rewriters_agree_on_assignments_witness :
  let var := lit "alerts" in
  (identifier var = true ∧ names_ok var (replacements_for var)
   ∧ str_contains (var ++ lit " =") piped_argument = true)
  ∧ ∃ out1 out2,
      fix_function_variable piped_argument var (replacements_for var) = Some out1
      ∧ process_function piped_argument var (replacements_for var) = Some out2
      ∧ length (split_lines out1) = length (split_lines out2)
      ∧ ∀ a, a ∈ find_assignment_lines var (split_lines piped_argument) →
             split_lines out1 !! a = split_lines out2 !! a.
Proof.
  assert (identifier (lit "alerts") = true) as Hv by reflexivity.
  assert (names_ok (lit "alerts") (replacements_for (lit "alerts"))) as Hreps.
  { apply (bool_decide_unpack _). vm_compute. exact I. }
  assert (str_contains (lit "alerts" ++ lit " =") piped_argument = true) as Hgate
    by reflexivity.
  split; [done|].
  exact (rewriters_agree_on_assignments piped_argument _ _ Hv Hreps Hgate).
Defined.

(** [has_word]: the name is one of the tokens of the line. *)
Section has_word.
Context (name : str) (Hname : identifier name = true).

Lemma word_match_at_nonword prev c s :
  is_word c = false → word_match_at name prev (c :: s) = false.
Proof.
  intros Hc. unfold word_match_at.
  destruct (strip_prefix name (c :: s)) as [r|] eqn:Es; [|done].
  apply strip_prefix_Some in Es.
  apply identifier_inv in Hname as (d & v & -> & Hd & _).
  injection Es as -> _. congruence.
Qed.

Lemma word_match_at_inside prev c s :
  word_opt prev = true → is_word c = true → word_match_at name prev (c :: s) = false.
Proof.
  intros Hp Hc. unfold word_match_at. destruct (strip_prefix name _); [|done].
  unfold boundary at 1. simpl. by rewrite Hp, Hc.
Qed.

Lemma word_match_at_run prev w r :
  word_opt prev = false → identifier w = true → head_is is_word r = false →
  word_match_at name prev (w ++ r) = bool_decide (w = name).
Proof.
  intros Hp Hw Hr. case_bool_decide as E.
  - subst w. unfold word_match_at. rewrite strip_prefix_app.
    pose proof Hname as (c & w' & Hn & Hc & _)%identifier_inv.
    apply andb_true_iff; split; unfold boundary.
    + rewrite Hn. simpl. by rewrite Hp, Hc.
    + rewrite (last_run_word _ Hname). destruct r as [|d r]; [done|].
      simpl in Hr. simpl. by rewrite Hr.
  - unfold word_match_at.
    destruct (strip_prefix name (w ++ r)) as [r'|] eqn:Es; [|done].
    apply strip_prefix_Some in Es.
    symmetry in Es. apply app_eq_app in Es as [x [[Ho Hx]|[Hx Ho]]].
    + destruct x as [|d x]; [by rewrite app_nil_r in Ho|].
      subst r. simpl in Hr.
      pose proof (identifier_forallb _ Hname) as Hall.
      rewrite Ho, forallb_app in Hall.
      apply andb_true_iff in Hall as [_ Hd]. simpl in Hd.
      apply andb_true_iff in Hd as [? _]. congruence.
    + destruct x as [|d x]; [by rewrite app_nil_r in Hx|].
      subst r'. simpl.
      assert (is_word d = true) as Hd.
      { apply identifier_forallb in Hw. rewrite Hx, forallb_app in Hw.
        apply andb_true_iff in Hw as [_ Hw]. simpl in Hw.
        by apply andb_true_iff in Hw as [? _]. }
      unfold boundary at 2. cbn [word_opt]. rewrite (last_run_word _ Hname), Hd.
      simpl. by rewrite andb_false_r.
Qed.

Lemma has_word_inside prev u r :
  word_opt prev = true → forallb is_word u = true →
  has_word_from name prev (u ++ r) = has_word_from name (last_or prev u) r.
Proof.
  revert prev. induction u as [|c u IH]; intros prev Hp Hu; [done|].
  simpl in Hu. apply andb_true_iff in Hu as [Hc Hu].
  change ((c :: u) ++ r) with (c :: (u ++ r)). cbn [has_word_from].
  rewrite word_match_at_inside by done. cbn [orb].
  rewrite IH by done. by rewrite last_or_cons.
Qed.

Lemma has_word_from_tokens s prev :
  word_opt prev = false ∨ head_is is_word s = false →
  has_word_from name prev s = bool_decide (name ∈ tokens s).
Proof.
  revert prev. induction s as [|c s Hc IH|w r Hw Hr IH] using token_ind; intros prev Hp.
  - cbn [has_word_from]. rewrite orb_false_r. unfold word_match_at.
    pose proof Hname as (d & v & -> & _)%identifier_inv. done.
  - cbn [has_word_from]. rewrite word_match_at_nonword by done. cbn [orb].
    rewrite IH by (left; done). rewrite tokens_nonword by done.
    apply bool_decide_ext. rewrite elem_of_cons. split; [tauto|].
    intros [->|?]; [|done]. simpl in Hname. by rewrite Hc in Hname.
  - destruct Hp as [Hp|Hp].
    2:{ apply identifier_inv in Hw as (c & w' & -> & Hc & _). simpl in Hp. congruence. }
    rewrite tokens_run by done.
    pose proof Hw as (c & w' & -> & Hc & Hw')%identifier_inv.
    change ((c :: w') ++ r) with (c :: (w' ++ r)). cbn [has_word_from].
    change (c :: w' ++ r) with ((c :: w') ++ r).
    rewrite word_match_at_run by done.
    rewrite has_word_inside by done.
    rewrite IH by (right; done).
    rewrite <- bool_decide_or. apply bool_decide_ext.
    rewrite elem_of_cons. split; intros [?|?]; auto.
Qed.

Lemma has_word_tokens s : has_word name s = bool_decide (name ∈ tokens s).
Proof. apply has_word_from_tokens. by left. Qed.
End has_word.

(** X16: when [process_function] rewrites a region, no line below the
    last assignment site still holds the variable as a whole word, unless
    the line holds the variable followed by optional whitespace and [=]:
    the final pass renames every such reference, not only the last one. *)
Theorem archived_rewriter_clears_trailing_references (func var : str) (reps : list str) :
  identifier var = true → names_ok var reps →
  str_contains (var ++ lit " =") func = true →
  1 < length (find_assignment_lines var (split_lines func)) →
  ∃ out,
    process_function func var reps = Some out
    ∧ ∀ j l, (∀ a, a ∈ find_assignment_lines var (split_lines func) → a < j) →
             split_lines out !! j = Some l →
             has_word var l = true → has_assignment var l = true.
Proof.
  intros Hv Hreps Hgate Hlen.
  destruct (process_function_split func var reps Hv (proj1 (proj2 Hreps)) Hgate Hlen)
    as (lines2 & Hf & Hsplit & _ & _ & _ & Htrail).
  destruct Htrail as (final & Hfinal & Htrail); [by destruct Hreps|].
  exists (join_lines lines2). split; [done|]. rewrite Hsplit.
  intros j l Hj Hl Hword.
  destruct (Htrail _ _ Hj Hl) as (l1 & ->).
  destruct (has_word var l1 && negb (has_assignment var l1)) eqn:Hcond.
  - exfalso. destruct (replacement_identifier var reps Hreps final Hfinal) as [Hfid Hfne].
    rewrite has_word_tokens in Hword by done.
    apply bool_decide_eq_true in Hword.
    rewrite tokens_sub_word in Hword by done.
    apply list_elem_of_fmap in Hword as (t & Ht & _).
    unfold rename_token in Ht. case_bool_decide; congruence.
  - rewrite Hword in Hcond. simpl in Hcond. by apply negb_false_iff in Hcond.
Qed.

Lemma archived_rewriter_clears_trailing_references_witness :
  let var := lit "alerts" in
  (identifier var = true ∧ names_ok var (generic_names_archived var)
   ∧ str_contains (var ++ lit " =") piped_argument = true
   ∧ 1 < length (find_assignment_lines var (split_lines piped_argument)))
  ∧ ∃ out,
      process_function piped_argument var (generic_names_archived var) = Some out
      ∧ ∀ j l, (∀ a, a ∈ find_assignment_lines var (split_lines piped_argument) → a < j) →
               split_lines out !! j = Some l →
               has_word var l = true → has_assignment var l = true.
Proof.
  assert (identifier (lit "alerts") = true) as Hv by reflexivity.
  assert (names_ok (lit "alerts") (generic_names_archived (lit "alerts"))) as Hreps.
  { apply (bool_decide_unpack _). vm_compute. exact I. }
  assert (str_contains (lit "alerts" ++ lit " =") piped_argument = true) as Hgate
    by reflexivity.
  assert (1 < length (find_assignment_lines (lit "alerts") (split_lines piped_argument)))
    as Hlen by (vm_compute; lia).
  split; [done|].
  exact (archived_rewriter_clears_trailing_references piped_argument _ _ Hv Hreps Hgate Hlen).
Defined.


(** ** The archived rewriter [fix_accumulator_pattern] *)

Lemma find_var_assignments_bound (var : str) (lines : list str) :
  Forall (fun a => a < length lines) (find_var_assignments var lines).
Proof.
  apply Forall_forall. intros j (l & Hl & _)%find_var_assignments_elem.
  by eapply lookup_lt_Some.
Qed.

Lemma replace_first_spec (old new s : str) :
  (str_contains old s = false ∧ replace_first old new s = s)
  ∨ ∃ a b, s = a ++ old ++ b ∧ replace_first old new s = a ++ new ++ b.
Proof.
  induction s as [|c s IH]; cbn [replace_first str_contains].
  - destruct (strip_prefix old []) as [r|] eqn:E.
    + right. apply strip_prefix_Some in E. exists [], r. split; [exact E|done].
    + left. split; [|done]. rewrite orb_false_r.
      destruct (starts_with old []) eqn:Es; [|done].
      apply starts_with_true in Es as [r Hr].
      apply strip_prefix_Some in Hr. congruence.
  - destruct (strip_prefix old (c :: s)) as [r|] eqn:E.
    + right. apply strip_prefix_Some in E. exists [], r. split; [exact E|done].
    + assert (starts_with old (c :: s) = false) as ->.
      { destruct (starts_with old (c :: s)) eqn:Es; [|done].
        apply starts_with_true in Es as [r Hr].
        apply strip_prefix_Some in Hr. congruence. }
      cbn [orb]. destruct IH as [[Hc ->]|(a & b & -> & ->)]; [by left|].
      right. by exists (c :: a), b.
Qed.

Lemma replace_first_absent (old new s : str) :
  str_contains old s = false → replace_first old new s = s.
Proof.
  intros H. destruct (replace_first_spec old new s) as [[_ ?]|(a & b & Hs & _)]; [done|].
  assert (str_contains old s = true) by (apply str_contains_true; eauto). congruence.
Qed.

Lemma no_newline_app (u v : str) : no_newline (u ++ v) ↔ no_newline u ∧ no_newline v.
Proof. unfold no_newline. rewrite elem_of_app. tauto. Qed.

Lemma replace_first_no_newline (old new s : str) :
  no_newline new → no_newline s → no_newline (replace_first old new s).
Proof.
  intros Hn Hs. destruct (replace_first_spec old new s) as [[_ ->]|(a & b & -> & ->)]; [done|].
  rewrite !no_newline_app in *. tauto.
Qed.

Lemma replace_assignment_no_newline (var new l : str) :
  identifier new = true → no_newline l → no_newline (replace_assignment var new l).
Proof.
  intros Hn Hl. apply replace_first_no_newline; [|done].
  apply no_newline_app. split; [by apply identifier_no_newline|].
  unfold no_newline. apply (bool_decide_unpack _). vm_compute. exact I.
Qed.

Lemma assignment_like_has_equals (var l : str) :
  identifier var = true → is_assignment_like var l = true →
  str_contains (lit "=") l = true.
Proof.
  intros Hv H. apply (is_assignment_like_true var l Hv) in H as (ws1 & ws2 & t & _ & _ & ->).
  apply str_contains_true. exists (ws1 ++ var ++ ws2), t. by rewrite <- !app_assoc.
Qed.

Lemma rename_assignments_accumulator_spec (var : str) (reps : list str) :
  ∀ (sites : list nat) (idx : nat) (lines : list str),
  StronglySorted lt sites → Forall (fun a => a < length lines) sites →
  ∃ lines',
    rename_assignments_accumulator var reps idx sites lines = Some lines'
    ∧ length lines' = length lines
    ∧ (∀ k a, sites !! k = Some a →
         lines' !! a
         = (fun l => match reps !! (idx + k) with
                     | Some n => replace_assignment var n l
                     | None => l
                     end) <$> lines !! a)
    ∧ (∀ k a j, sites !! k = Some a → a < j → (∀ b, b ∈ sites → b ≤ a ∨ j < b) →
         lines' !! j
         = (fun l => match reps !! (idx + k) with
                     | Some n => update_line var var n l
                     | None => l
                     end) <$> lines !! j)
    ∧ (∀ j, (∀ a, a ∈ sites → j < a) → lines' !! j = lines !! j)
    ∧ (identifier var = true → Forall (fun n => identifier n = true) reps →
       Forall no_newline lines → Forall no_newline lines').
Proof.
  induction sites as [|a rest IH]; intros idx lines Hsort Hlt.
  { exists lines. repeat split; try done. }
  apply StronglySorted_inv in Hsort as [Hsort Hrest].
  apply Forall_cons in Hlt as [Halt Hlt].
  rewrite Forall_forall in Hrest.
  cbn [rename_assignments_accumulator].
  destruct (Nat.ltb_spec idx (length reps)) as [Hidx|Hidx].
  2:{ destruct (IH (S idx) lines Hsort Hlt)
        as (lines' & -> & Hlen' & Hsites' & Hscope' & Hbefore' & Hnl').
      exists lines'. split; [done|]. split; [done|]. split; [|split; [|split]]; try done.
      - intros k a' Hk. assert (reps !! (idx + k) = None) as -> by (apply lookup_ge_None_2; lia).
        destruct k as [|k]; simpl in Hk.
        + injection Hk as <-. rewrite Hbefore' by (intros b Hb; by apply Hrest).
          symmetry. exact (option_fmap_id _).
        + rewrite (Hsites' _ _ Hk). assert (reps !! (S idx + k) = None) as -> by (apply lookup_ge_None_2; lia). done.
      - intros k a' j Hk Haj Hno. assert (reps !! (idx + k) = None) as -> by (apply lookup_ge_None_2; lia).
        destruct k as [|k]; simpl in Hk.
        + injection Hk as <-. rewrite Hbefore'; [symmetry; exact (option_fmap_id _)|].
          intros b Hb. destruct (Hno b) as [?|?]; [by right| |done].
          specialize (Hrest _ Hb). lia.
        + rewrite (Hscope' _ _ _ Hk Haj).
          * by assert (reps !! (S idx + k) = None) as -> by (apply lookup_ge_None_2; lia).
          * intros b Hb. apply Hno. by right.
      - intros j Hj. apply Hbefore'. intros b Hb. apply Hj. by right. }
  destruct (lookup_lt_is_Some_2 reps idx Hidx) as [new Hnew].
  destruct (lookup_lt_is_Some_2 lines a Halt) as [line Hline].
  rewrite Hnew, Hline. cbn [mbind option_bind].
  set (lines1 := <[a := replace_assignment var new line]> lines).
  set (stop := match rest with next :: _ => next | [] => length lines1 end).
  assert (length lines1 = length lines) as Hlen1 by apply length_insert.
  assert (stop ≤ length lines) as Hstop.
  { unfold stop. destruct rest as [|next rest']; [lia|].
    apply Forall_cons in Hlt as [? _]. lia. }
  assert (∀ a', a' ∈ rest → stop ≤ a' ∧ a < a') as Hafter.
  { intros a' Ha'. split; [|by apply Hrest].
    unfold stop. destruct rest as [|next rest']; [by apply elem_of_nil in Ha'|].
    apply elem_of_cons in Ha' as [->|Ha']; [done|].
    apply StronglySorted_inv in Hsort as [_ Hnext].
    rewrite Forall_forall in Hnext. specialize (Hnext _ Ha'). lia. }
  assert (∀ j, (∀ b, b ∈ rest → j < b) → j < length lines → j < stop) as Hbelow.
  { intros j Hj Hjlt. unfold stop. destruct rest as [|next rest']; [lia|].
    apply Hj. left. }
  destruct (update_references_spec var var new (py_range (a + 1) stop) lines1)
    as (lines2 & -> & Hlen2 & Hin2 & Hout2).
  { apply NoDup_seq. }
  { apply Forall_forall. intros j Hj%py_range_elem. lia. }
  cbn [mbind option_bind].
  destruct (IH (S idx) lines2 Hsort)
    as (lines' & -> & Hlen' & Hsites' & Hscope' & Hbefore' & Hnl').
  { eapply Forall_impl; [exact Hlt|]. simpl. intros. lia. }
  exists lines'. split; [done|]. split; [lia|]. split; [|split; [|split]].
  - intros k a' Hk. destruct k as [|k]; simpl in Hk.
    + injection Hk as <-. rewrite Hbefore'.
      2:{ intros a' Ha'. by apply Hafter. }
      rewrite Hout2. 2:{ rewrite py_range_elem. lia. }
      unfold lines1. rewrite list_lookup_insert_eq by done.
      by rewrite Nat.add_0_r, Hnew, Hline.
    + assert (a' ∈ rest) as Ha' by by eapply list_elem_of_lookup_2.
      destruct (Hafter _ Ha') as [? ?].
      rewrite (Hsites' _ _ Hk).
      rewrite Hout2. 2:{ rewrite py_range_elem. lia. }
      unfold lines1. rewrite list_lookup_insert_ne by lia.
      by replace (S idx + k) with (idx + S k) by lia.
  - intros k a' j Hk Haj Hno. destruct k as [|k]; simpl in Hk.
    + injection Hk as <-. rewrite Nat.add_0_r, Hnew.
      assert (∀ b, b ∈ rest → j < b) as Hjrest.
      { intros b Hb. destruct (Hno b) as [?|?]; [by right| |done].
        specialize (Hrest _ Hb). lia. }
      rewrite Hbefore' by done.
      destruct (decide (j < length lines)) as [Hjlt|Hjge].
      * rewrite Hin2. 2:{ rewrite py_range_elem. specialize (Hbelow _ Hjrest Hjlt). lia. }
        unfold lines1. by rewrite list_lookup_insert_ne by lia.
      * rewrite (lookup_ge_None_2 lines j) by lia.
        rewrite lookup_ge_None_2 by lia. done.
    + assert (a' ∈ rest) as Ha' by by eapply list_elem_of_lookup_2.
      destruct (Hafter _ Ha') as [? ?].
      rewrite (Hscope' _ _ _ Hk Haj). 2:{ intros b Hb. apply Hno. by right. }
      rewrite Hout2. 2:{ rewrite py_range_elem. lia. }
      unfold lines1. rewrite list_lookup_insert_ne by lia.
      by replace (S idx + k) with (idx + S k) by lia.
  - intros j Hj.
    assert (j < a) as Hja by (apply Hj; left).
    rewrite Hbefore'. 2:{ intros a' Ha'. apply Hj. by right. }
    rewrite Hout2. 2:{ rewrite py_range_elem. lia. }
    unfold lines1. by rewrite list_lookup_insert_ne by lia.
  - intros Hv Hreps Hall. apply Hnl'; [done..|].
    assert (identifier new = true) as Hid.
    { rewrite Forall_forall in Hreps. apply Hreps. by eapply list_elem_of_lookup_2. }
    assert (Forall no_newline lines1) as Hall1.
    { apply Forall_insert; [done|]. apply replace_assignment_no_newline; [done|].
      rewrite Forall_lookup in Hall. by eapply Hall. }
    apply Forall_lookup. intros j l2 Hl2.
    destruct (decide (j ∈ py_range (a + 1) stop)) as [Hj|Hj].
    + rewrite (Hin2 _ Hj) in Hl2. apply fmap_Some in Hl2 as (l1 & Hl1 & ->).
      assert (no_newline l1) by (rewrite Forall_lookup in Hall1; by eapply Hall1).
      unfold update_line. destruct (is_assignment_like var l1); [done|].
      by apply sub_word_no_newline.
    + rewrite (Hout2 _ Hj) in Hl2. rewrite Forall_lookup in Hall1. by eapply Hall1.
Qed.

Lemma rename_assignments_accumulator_nil (var : str) (sites : list nat) (idx : nat)
    (lines : list str) :
  rename_assignments_accumulator var [] idx sites lines = Some lines.
Proof. revert idx. induction sites as [|a rest IH]; intros idx; [done|]. simpl. apply IH. Qed.

Lemma py_getitem_nil {A} (i : Z) : py_getitem (@nil A) i = None.
Proof. unfold py_getitem. simpl. by repeat case_match. Qed.

(** The final loop stops at the last line that holds the variable and no
    [=]; the replacement name is looked up only there. *)
Lemma final_return_first_match (var : str) (reps : list str) (sites : list nat)
    (lines : list str) (k : nat) :
  k ≤ length lines → sites ≠ [] →
  (fix_final_return var reps sites (py_range_down k) lines = Some lines
   ∧ ∀ i l, i < k → lines !! i = Some l → is_return_line var l = false)
  ∨ (∃ i l, i < k ∧ lines !! i = Some l ∧ is_return_line var l = true
            ∧ fix_final_return var reps sites (py_range_down k) lines
              = (last_var ← py_getitem reps
                              (Z.min (Z.of_nat (length sites) - 1)
                                     (Z.of_nat (length reps) - 1));
                 Some (<[i := sub_word var last_var l]> lines))).
Proof.
  intros Hk Hne. induction k as [|k IH].
  - left. split; [done|]. intros i l Hi. lia.
  - rewrite py_range_down_S. cbn [fix_final_return].
    destruct (lookup_lt_is_Some_2 lines k) as [l Hl]; [lia|].
    rewrite Hl. cbn [mbind option_bind].
    destruct (is_return_line var l) eqn:E.
    + right. exists k, l. repeat split; try done; [lia|]. by destruct sites.
    + destruct IH as [[Hsame Hnone]|(i & li & Hi & Hli & Hfin & Hres)]; [lia| |].
      * left. split; [done|]. intros i li Hi Hli.
        destruct (decide (i = k)) as [->|]; [congruence|]. apply (Hnone i); [lia|done].
      * right. exists i, li. repeat split; try done. lia.
Qed.

Lemma sub_word_renamed_inert (var n last l : str) :
  identifier var = true → identifier n = true → n ≠ var →
  sub_word var last (sub_word var n l) = sub_word var n l.
Proof.
  intros Hv Hn Hne.
  rewrite (sub_word_tokens var last Hv), tokens_sub_word by done.
  rewrite (sub_word_tokens var n Hv). f_equal.
  rewrite <- list_fmap_compose. apply list_fmap_ext. intros _ t _. simpl.
  unfold rename_token. repeat case_bool_decide; congruence.
Qed.

(** The lines [fix_accumulator_pattern] returns. *)
Lemma fix_accumulator_pattern_lines (func var : str) (reps : list str) :
  let lines := split_lines func in
  let sites := find_var_assignments var lines in
  identifier var = true → names_ok var reps →
  1 < length sites →
  ∃ lines2,
    fix_accumulator_pattern func var reps = Some (join_lines lines2)
    ∧ split_lines (join_lines lines2) = lines2
    ∧ length lines2 = length lines
    ∧ (∀ k a, sites !! k = Some a →
         lines2 !! a
         = (fun l => match reps !! k with
                     | Some n => replace_assignment var n l
                     | None => l
                     end) <$> lines !! a)
    ∧ (∀ k a n j l, sites !! k = Some a → reps !! k = Some n → a < j →
         (∀ b, b ∈ sites → b ≤ a ∨ j < b) → lines !! j = Some l →
         lines2 !! j = Some (sub_word var n l)).
Proof.
  intros lines sites Hv Hreps Hlen. unfold fix_accumulator_pattern.
  fold lines. fold sites.
  destruct (Nat.leb_spec (length sites) 1) as [|_]; [lia|].
  destruct (rename_assignments_accumulator_spec var reps sites 0 lines)
    as (lines1 & -> & Hlen1 & Hsites & Hscope & _ & Hnl1).
  { apply scan_like_from_sorted. }
  { apply find_var_assignments_bound. }
  cbn [Nat.add] in Hsites, Hscope. cbn [mbind option_bind].
  assert (sites ≠ []) as Hne by (destruct sites; [simpl in Hlen; lia|done]).
  destruct Hreps as (Hrne & Hrid & Hrvar).
  assert (Forall no_newline lines1) as Hall1.
  { apply Hnl1; try done. apply split_lines_no_newline. }
  assert (lines1 ≠ []) as Hne1.
  { intros ->. pose proof (split_lines_nonempty func) as Hn. fold lines in Hn.
    simpl in Hlen1. by destruct lines. }
  (* what the loop made of the lines the theorem speaks of *)
  assert (∀ k a l1, sites !! k = Some a → lines1 !! a = Some l1 →
                    is_return_line var l1 = false) as Hsite_eq.
  { intros k a l1 Hk Hl1. rewrite (Hsites _ _ Hk) in Hl1.
    apply fmap_Some in Hl1 as (l & Hl & ->).
    assert (is_assignment_like var l = true) as Hlike.
    { assert (a ∈ sites) as Ha by by eapply list_elem_of_lookup_2.
      apply find_var_assignments_elem in Ha as (l0 & Hl0 & ?). congruence. }
    pose proof (assignment_like_has_equals _ _ Hv Hlike) as Heq.
    unfold is_return_line. apply andb_false_iff. right. apply negb_false_iff.
    destruct (reps !! k) as [n|]; [|done].
    unfold replace_assignment.
    destruct (replace_first_spec (var ++ lit " =") (n ++ lit " =") l)
      as [[_ ->]|(x & y & _ & ->)]; [done|].
    apply str_contains_true. exists (x ++ n ++ lit " "), y.
    rewrite <- !app_assoc. done. }
  assert (∀ k a n j l, sites !! k = Some a → reps !! k = Some n → a < j →
            (∀ b, b ∈ sites → b ≤ a ∨ j < b) → lines !! j = Some l →
            lines1 !! j = Some (sub_word var n l)) as Hscope1.
  { intros k a n j l Hk Hn Haj Hno Hl.
    rewrite (Hscope _ _ _ Hk Haj Hno), Hn, Hl. simpl. f_equal.
    unfold update_line.
    destruct (is_assignment_like var l) eqn:Hlike; [|done]. exfalso.
    assert (j ∈ sites) as Hj by (apply find_var_assignments_elem; eauto).
    destruct (Hno _ Hj); lia. }
  destruct (final_return_first_match var reps sites lines1 (length lines1))
    as [[-> _]|(i & li & Hi & Hli & Hret & ->)]; [done..| |].
  { cbn [mbind option_bind]. exists lines1.
    split; [done|]. split; [by apply split_join_lines|]. split; [done|].
    split; [done|]. done. }
  destruct (py_getitem_min reps (length sites) Hrne) as (final & -> & Hfinal); [lia|].
  cbn [mbind option_bind].
  assert (identifier final = true) as Hfid by (rewrite Forall_forall in Hrid; by apply Hrid).
  exists (<[i := sub_word var final li]> lines1).
  split; [done|]. split; [|split; [|split]].
  - apply split_join_lines.
    + intros E. apply (f_equal length) in E. rewrite length_insert in E.
      destruct lines1; [done|]. done.
    + apply Forall_insert; [done|]. apply sub_word_no_newline; try done.
      rewrite Forall_lookup in Hall1. by eapply Hall1.
  - by rewrite length_insert.
  - intros k a Hk. rewrite <- (Hsites _ _ Hk). apply list_lookup_insert_ne. intros ->.
    pose proof (Hsite_eq _ _ _ Hk Hli). congruence.
  - intros k a n j l Hk Hn Haj Hno Hl.
    pose proof (Hscope1 _ _ _ _ _ Hk Hn Haj Hno Hl) as Hl1.
    destruct (decide (i = j)) as [->|Hij].
    + rewrite list_lookup_insert_eq by done. f_equal.
      assert (li = sub_word var n l) as -> by congruence.
      apply sub_word_renamed_inert; try done.
      * rewrite Forall_forall in Hrid. apply Hrid. by eapply list_elem_of_lookup_2.
      * intros ->. apply Hrvar. by eapply list_elem_of_lookup_2.
    + by rewrite list_lookup_insert_ne.
Qed.

(** X17: for an identifier and replacement names that are identifiers,
    [fix_accumulator_pattern] fails with an index error exactly when it
    is given no replacement name for a region with at least two
    assignment sites in which some line holds the variable and no [=]:
    the name is looked up only when the final loop finds such a line. *)
Theorem accumulator_raises_without_names (func var : str) (reps : list str) :
  identifier var = true →
  Forall (fun name => identifier name = true) reps →
  fix_accumulator_pattern func var reps = None ↔
  reps = [] ∧ 1 < length (find_var_assignments var (split_lines func))
  ∧ ∃ l, l ∈ split_lines func ∧ is_return_line var l = true.
Proof.
  intros _ _. unfold fix_accumulator_pattern.
  set (lines := split_lines func). set (sites := find_var_assignments var lines).
  destruct (Nat.leb_spec (length sites) 1) as [Hle|Hgt].
  { split; [done|]. intros (_ & ? & _). lia. }
  assert (sites ≠ []) as Hne by (destruct sites; [simpl in Hgt; lia|done]).
  destruct reps as [|n reps].
  - rewrite rename_assignments_accumulator_nil. cbn [mbind option_bind].
    destruct (final_return_first_match var [] sites lines (length lines))
      as [[-> Hnone]|(i & li & Hi & Hli & Hret & ->)]; [done..| |].
    + split; [done|]. intros (_ & _ & l & (i & Hl)%list_elem_of_lookup & Hret).
      rewrite (Hnone i l) in Hret; [done| |done]. by eapply lookup_lt_Some.
    + rewrite py_getitem_nil. split; [|done]. intros _.
      split; [done|]. split; [done|]. exists li. split; [|done].
      by eapply list_elem_of_lookup_2.
  - split; [|by intros (? & _)]. intros Hnone. exfalso.
    destruct (rename_assignments_accumulator_spec var (n :: reps) sites 0 lines)
      as (lines1 & Hr & _).
    { apply scan_like_from_sorted. }
    { apply find_var_assignments_bound. }
    rewrite Hr in Hnone. cbn [mbind option_bind] in Hnone.
    destruct (final_return_first_match var (n :: reps) sites lines1 (length lines1))
      as [[Hf _]|(i & li & _ & _ & _ & Hf)]; [done..| |]; rewrite Hf in Hnone.
    + done.
    + destruct (py_getitem_min (n :: reps) (length sites)) as (final & Hg & _); [done|lia|].
      by rewrite Hg in Hnone.
Qed.

Lemma accumulator_raises_without_names_witness :
  let var := lit "alerts" in
  identifier var = true
  ∧ Forall (fun name => identifier name = true) alerts_names_accumulator
  ∧ fix_accumulator_pattern piped_argument var [] = None
  ∧ fix_accumulator_pattern piped_argument var alerts_names_accumulator ≠ None.
Proof.
  assert (Forall (fun name => identifier name = true) alerts_names_accumulator) as Hreps.
  { repeat constructor. }
  split; [reflexivity|]. split; [exact Hreps|]. split.
  - apply (accumulator_raises_without_names piped_argument (lit "alerts") []
             eq_refl (Forall_nil_2 _)).
    split; [reflexivity|]. split; [vm_compute; lia|].
    exists (lit "  alerts"). split; [|reflexivity].
    by apply (list_elem_of_lookup_2 _ 1).
  - intros Hnone.
    apply (accumulator_raises_without_names piped_argument (lit "alerts") _
             eq_refl Hreps) in Hnone as [Hnil _].
    vm_compute in Hnil. discriminate.
Defined.

(** X18: with at least two assignment sites, [fix_accumulator_pattern]
    keeps the number of lines, and the site of rank [k] is its line with
    the first occurrence of the literal [var =] replaced by the [k]-th
    name and [ =]; a site beyond the names is returned as it is. *)
Theorem accumulator_site_lines (func var : str) (reps : list str) :
  identifier var = true → names_ok var reps →
  1 < length (find_var_assignments var (split_lines func)) →
  ∃ out,
    fix_accumulator_pattern func var reps = Some out
    ∧ length (split_lines out) = length (split_lines func)
    ∧ ∀ k a, find_var_assignments var (split_lines func) !! k = Some a →
        split_lines out !! a
        = (fun l => match reps !! k with
                    | Some n => replace_assignment var n l
                    | None => l
                    end) <$> split_lines func !! a.
Proof.
  intros Hv Hreps Hlen.
  destruct (fix_accumulator_pattern_lines func var reps Hv Hreps Hlen)
    as (lines2 & Hf & Hsplit & Hlen2 & Hs & _).
  exists (join_lines lines2). by rewrite Hsplit.
Qed.

Lemma accumulator_site_lines_witness :
  let var := lit "alerts" in
  (identifier var = true ∧ names_ok var alerts_names_accumulator
   ∧ 1 < length (find_var_assignments var (split_lines piped_argument)))
  ∧ ∃ out,
      fix_accumulator_pattern piped_argument var alerts_names_accumulator = Some out
      ∧ length (split_lines out) = length (split_lines piped_argument)
      ∧ ∀ k a, find_var_assignments var (split_lines piped_argument) !! k = Some a →
          split_lines out !! a
          = (fun l => match alerts_names_accumulator !! k with
                      | Some n => replace_assignment var n l
                      | None => l
                      end) <$> split_lines piped_argument !! a.
Proof.
  assert (identifier (lit "alerts") = true) as Hv by reflexivity.
  assert (names_ok (lit "alerts") alerts_names_accumulator) as Hreps.
  { apply (bool_decide_unpack _). vm_compute. exact I. }
  assert (1 < length (find_var_assignments (lit "alerts") (split_lines piped_argument)))
    as Hlen by (vm_compute; lia).
  split; [done|].
  exact (accumulator_site_lines piped_argument _ _ Hv Hreps Hlen).
Defined.

(** X19: in the result of [fix_accumulator_pattern], a line between a
    renamed assignment site and the next site (or the end of the region)
    has every whole-word occurrence of the variable replaced by the name
    of that site, and nothing else changed. *)
Theorem accumulator_scope_lines (func var : str) (reps : list str) :
  identifier var = true → names_ok var reps →
  1 < length (find_var_assignments var (split_lines func)) →
  ∃ out,
    fix_accumulator_pattern func var reps = Some out
    ∧ ∀ k a n j l,
        find_var_assignments var (split_lines func) !! k = Some a →
        reps !! k = Some n →
        a < j →
        (∀ b, b ∈ find_var_assignments var (split_lines func) → b ≤ a ∨ j < b) →
        split_lines func !! j = Some l →
        split_lines out !! j = Some (sub_word var n l).
Proof.
  intros Hv Hreps Hlen.
  destruct (fix_accumulator_pattern_lines func var reps Hv Hreps Hlen)
    as (lines2 & Hf & Hsplit & _ & _ & Hscope).
  exists (join_lines lines2). by rewrite Hsplit.
Qed.

Lemma accumulator_scope_lines_witness :
  let var := lit "alerts" in
  (identifier var = true ∧ names_ok var alerts_names_accumulator
   ∧ 1 < length (find_var_assignments var (split_lines piped_argument)))
  ∧ ∃ out,
      fix_accumulator_pattern piped_argument var alerts_names_accumulator = Some out
      ∧ ∀ k a n j l,
          find_var_assignments var (split_lines piped_argument) !! k = Some a →
          alerts_names_accumulator !! k = Some n →
          a < j →
          (∀ b, b ∈ find_var_assignments var (split_lines piped_argument) → b ≤ a ∨ j < b) →
          split_lines piped_argument !! j = Some l →
          split_lines out !! j = Some (sub_word var n l).
Proof.
  assert (identifier (lit "alerts") = true) as Hv by reflexivity.
  assert (names_ok (lit "alerts") alerts_names_accumulator) as Hreps.
  { apply (bool_decide_unpack _). vm_compute. exact I. }
  assert (1 < length (find_var_assignments (lit "alerts") (split_lines piped_argument)))
    as Hlen by (vm_compute; lia).
  split; [done|].
  exact (accumulator_scope_lines piped_argument _ _ Hv Hreps Hlen).
Defined.

(** X20: an assignment site whose line does not hold the literal [var =]
    (the variable and [=] not separated by exactly one space) keeps the
    variable's name in the result of [fix_accumulator_pattern], whatever
    its rank. *)
Theorem accumulator_keeps_unspaced_assignment (func var : str) (reps : list str) :
  identifier var = true → names_ok var reps →
  1 < length (find_var_assignments var (split_lines func)) →
  ∃ out,
    fix_accumulator_pattern func var reps = Some out
    ∧ ∀ a l, a ∈ find_var_assignments var (split_lines func) →
             split_lines func !! a = Some l →
             str_contains (var ++ lit " =") l = false →
             split_lines out !! a = Some l.
Proof.
  intros Hv Hreps Hlen.
  destruct (fix_accumulator_pattern_lines func var reps Hv Hreps Hlen)
    as (lines2 & Hf & Hsplit & _ & Hs & _).
  exists (join_lines lines2). rewrite Hsplit. split; [done|].
  intros a l (k & Hk)%list_elem_of_lookup Hl Habsent.
  rewrite (Hs _ _ Hk), Hl. simpl. f_equal.
  destruct (reps !! k); [|done]. by apply replace_first_absent.
Qed.

Lemma accumulator_keeps_unspaced_assignment_witness :
  let var := lit "total" in
  (identifier var = true ∧ names_ok var (generic_names var)
   ∧ 1 < length (find_var_assignments var (split_lines tight_assignments)))
  ∧ ∃ out,
      fix_accumulator_pattern tight_assignments var (generic_names var) = Some out
      ∧ ∀ a l, a ∈ find_var_assignments var (split_lines tight_assignments) →
               split_lines tight_assignments !! a = Some l →
               str_contains (var ++ lit " =") l = false →
               split_lines out !! a = Some l.
Proof.
  assert (identifier (lit "total") = true) as Hv by reflexivity.
  assert (names_ok (lit "total") (generic_names (lit "total"))) as Hreps.
  { apply (bool_decide_unpack _). vm_compute. exact I. }
  assert (1 < length (find_var_assignments (lit "total") (split_lines tight_assignments)))
    as Hlen by (vm_compute; lia).
  split; [done|].
  exact (accumulator_keeps_unspaced_assignment tight_assignments _ _ Hv Hreps Hlen).
Defined.


(** ** The archived driver [fix_variable_redeclarations] *)

Lemma not_brace (P : ascii → bool) (u : str) :
  P "}"%char = false → forallb P u = true → "}"%char ∉ u.
Proof.
  intros HP Hu Hin. rewrite forallb_forall in Hu.
  apply list_elem_of_In in Hin. specialize (Hu _ Hin). congruence.
Qed.

Lemma def_keyword_brace (s r : str) :
  def_keyword s = Some r → ∃ h, s = lit "def" ++ h ++ r ∧ "}"%char ∉ h.
Proof.
  rewrite def_keyword_unfold.
  destruct (strip_prefix (lit "def") s) as [r0|] eqn:E; [|done].
  apply strip_prefix_Some in E as ->.
  destruct r0 as [|c t]; [intros [= <-]; exists []; split; [done|apply not_elem_of_nil]|].
  destruct (Ascii.eqb c "p"%char) eqn:Ec; intros [= <-].
  - apply ascii_eqb_true in Ec as ->. exists ["p"%char]. split; [done|].
    apply (bool_decide_unpack _). vm_compute. exact I.
  - exists []. split; [done|apply not_elem_of_nil].
Qed.

Lemma end_marker_spec (s rest : str) :
  end_marker s = Some rest →
  ∃ ws, forallb is_space ws = true ∧ s = newline :: ws ++ lit "end" ++ rest.
Proof.
  destruct s as [|c r]; [done|]. unfold end_marker.
  destruct (Ascii.eqb c newline) eqn:Ec; [|done].
  apply ascii_eqb_true in Ec as ->. intros Hs%strip_prefix_Some.
  exists (take_ws r). split; [apply take_ws_spaces|].
  by rewrite <- Hs, take_skip_ws.
Qed.

Lemma body_to_end_spec (s rest : str) :
  body_to_end s = Some rest →
  ∃ body ws, s = body ++ newline :: ws ++ lit "end" ++ rest
             ∧ ("}"%char ∉ body) ∧ forallb is_space ws = true.
Proof.
  induction s as [|c s IH]; [done|]. cbn [body_to_end].
  destruct (Ascii.eqb c "}"%char) eqn:Ec; [done|].
  assert (c ≠ "}"%char) as Hc by (intros ->; by vm_compute in Ec).
  destruct (end_marker s) as [rest'|] eqn:Em.
  - intros [= <-]. apply end_marker_spec in Em as (ws & Hws & ->).
    exists [c], ws. split; [done|]. split; [|done].
    intros [?|?%elem_of_nil]%elem_of_cons; [congruence|done].
  - intros (body & ws & -> & Hb & Hws)%IH.
    exists (c :: body), ws. split; [done|]. split; [|done].
    intros [?|?]%elem_of_cons; [congruence|done].
Qed.

Lemma space_list_no_brace (ws : str) : forallb is_space ws = true → "}"%char ∉ ws.
Proof. by apply not_brace. Qed.

Lemma word_list_no_brace (w : str) : forallb is_word w = true → "}"%char ∉ w.
Proof. by apply not_brace. Qed.

Lemma accumulator_match_spec (s m : str) :
  accumulator_match s = Some m →
  ∃ rest pre ws,
    s = m ++ rest
    ∧ m = lit "def" ++ pre ++ newline :: ws ++ lit "end"
    ∧ forallb is_space ws = true
    ∧ "}"%char ∉ m.
Proof.
  unfold accumulator_match.
  destruct (def_keyword s) as [r|] eqn:E; [|done]. cbn [mbind option_bind].
  destruct (head_is is_space r && head_is is_word (skip_ws r)); [|done].
  apply def_keyword_brace in E as (h & -> & Hh).
  pose proof (take_skip_ws r) as Hr.
  pose proof (take_skip_word (skip_ws r)) as Hw.
  pose proof (space_list_no_brace _ (take_ws_spaces r)) as Hsp.
  pose proof (word_list_no_brace _ (take_word_all (skip_ws r))) as Hwd.
  set (name := take_word (skip_ws r)) in *.
  set (after := skip_word (skip_ws r)) in *.
  assert (∀ rest ws body,
            after = body ++ newline :: ws ++ lit "end" ++ rest →
            "}"%char ∉ body → forallb is_space ws = true →
            ∃ rest0 pre ws0,
              lit "def" ++ h ++ r
              = take (length (lit "def" ++ h ++ r) - length rest) (lit "def" ++ h ++ r) ++ rest0
              ∧ take (length (lit "def" ++ h ++ r) - length rest) (lit "def" ++ h ++ r)
                = lit "def" ++ pre ++ newline :: ws0 ++ lit "end"
              ∧ forallb is_space ws0 = true
              ∧ "}"%char ∉ take (length (lit "def" ++ h ++ r) - length rest)
                                  (lit "def" ++ h ++ r)) as Hshape.
  { intros rest ws body Hafter Hbody Hws.
    assert (lit "def" ++ h ++ r
            = (lit "def" ++ (h ++ take_ws r ++ name ++ body) ++ newline :: ws ++ lit "end")
              ++ rest) as Heq.
    { rewrite <- Hr at 1. rewrite <- Hw at 1. rewrite Hafter.
      rewrite <- !app_assoc. simpl. by rewrite <- !app_assoc. }
    rewrite Heq.
    replace (length ((lit "def" ++ (h ++ take_ws r ++ name ++ body)
                      ++ newline :: ws ++ lit "end") ++ rest) - length rest)
      with (length (lit "def" ++ (h ++ take_ws r ++ name ++ body)
                    ++ newline :: ws ++ lit "end"))
      by (rewrite (length_app _ rest); lia).
    rewrite take_app_length.
    exists rest, (h ++ take_ws r ++ name ++ body), ws.
    split; [done|]. split; [done|]. split; [done|].
    rewrite !elem_of_app, elem_of_cons, !elem_of_app.
    pose proof (space_list_no_brace _ Hws).
    assert ("}"%char ∉ lit "def") by (apply (bool_decide_unpack _); vm_compute; exact I).
    assert ("}"%char ∉ lit "end") by (apply (bool_decide_unpack _); vm_compute; exact I).
    assert ("}"%char ≠ newline) by (by vm_compute).
    tauto. }
  destruct (body_to_end after) as [rest|] eqn:Eb.
  - intros [= <-]. apply body_to_end_spec in Eb as (body & ws & Hafter & Hb & Hws).
    by eapply Hshape.
  - destruct (2 <=? length name); [|done].
    destruct (end_marker after) as [rest|] eqn:Em; [|done]. cbn [mbind option_bind].
    intros [= <-]. apply end_marker_spec in Em as (ws & Hws & Hafter).
    apply (Hshape rest ws []); [done|apply not_elem_of_nil|done].
Qed.

Lemma findall_from_elem (skip : nat) (s region : str) :
  region ∈ findall_from skip s →
  ∃ pre s', s = pre ++ s' ∧ accumulator_match s' = Some region.
Proof.
  revert skip. induction s as [|c s IH]; intros skip; [by intros ?%elem_of_nil|].
  assert (∀ k, region ∈ findall_from k s →
               ∃ pre s', c :: s = pre ++ s' ∧ accumulator_match s' = Some region) as IH'.
  { intros k (pre & s' & -> & ?)%IH. by exists (c :: pre), s'. }
  cbn [findall_from]. destruct skip as [|k]; [|apply IH'].
  destruct (accumulator_match (c :: s)) as [m|] eqn:E; [|apply IH'].
  intros [->|?]%elem_of_cons; [|by eapply IH'].
  by exists [], (c :: s).
Qed.

(** X21: every function the archived driver finds is a stretch of the
    text that starts with [def], ends with a line break, whitespace and
    [end], and holds no closing brace: a function is cut at, or skipped
    because of, the first map or tuple literal in its body. *)
Theorem accumulator_regions_shape (content region : str) :
  region ∈ find_functions_accumulator content →
  (∃ a b, content = a ++ region ++ b)
  ∧ ("}"%char ∉ region)
  ∧ ∃ pre ws, region = lit "def" ++ pre ++ newline :: ws ++ lit "end"
              ∧ forallb is_space ws = true.
Proof.
  intros (a & s & -> & Hm)%findall_from_elem.
  apply accumulator_match_spec in Hm as (rest & pre & ws & -> & Hshape & Hws & Hbrace).
  split; [by exists a, rest|]. split; [done|]. by exists pre, ws.
Qed.

Lemma accumulator_regions_shape_witness :
  let region := text [ "def g do"; "  1"; "end" ]%string in
  region ∈ find_functions_accumulator tuple_function
  ∧ (∃ a b, tuple_function = a ++ region ++ b)
  ∧ ("}"%char ∉ region)
  ∧ ∃ pre ws, region = lit "def" ++ pre ++ newline :: ws ++ lit "end"
              ∧ forallb is_space ws = true.
Proof.
  assert (text [ "def g do"; "  1"; "end" ]%string
          ∈ find_functions_accumulator tuple_function) as Hin.
  { apply (bool_decide_unpack _). vm_compute. exact I. }
  split; [done|].
  exact (accumulator_regions_shape tuple_function _ Hin).
Defined.

Lemma fix_accumulator_pattern_total (func var : str) (reps : list str) :
  reps ≠ [] → ∃ out, fix_accumulator_pattern func var reps = Some out.
Proof.
  intros Hne. unfold fix_accumulator_pattern.
  set (lines := split_lines func). set (sites := find_var_assignments var lines).
  destruct (Nat.leb_spec (length sites) 1) as [Hle|Hgt]; [by eexists|].
  destruct (rename_assignments_accumulator_spec var reps sites 0 lines)
    as (lines1 & -> & _).
  { apply scan_like_from_sorted. }
  { apply find_var_assignments_bound. }
  cbn [mbind option_bind].
  destruct (final_return_first_match var reps sites lines1 (length lines1))
    as [[-> _]|(i & li & _ & _ & _ & ->)]; [done| |by eexists|].
  { destruct sites; [simpl in Hgt; lia|done]. }
  destruct (py_getitem_min reps (length sites) Hne) as (final & -> & _); [lia|].
  by eexists.
Qed.

Lemma fix_targets_in_total (targets : list (str * list str)) (func content : str) :
  Forall (fun t => t.2 ≠ []) targets →
  ∃ out, fix_targets_in targets func content = Some out.
Proof.
  intros Hall. revert content.
  induction Hall as [|[var names] rest Hne _ IH]; intros content; [by eexists|].
  cbn [fix_targets_in]. unfold fix_accumulator_in.
  destruct (_ && _); cbn [mbind option_bind]; [|apply IH].
  destruct (fix_accumulator_pattern_total func var names Hne) as [new_func ->].
  cbn [mbind option_bind]. apply IH.
Qed.

Lemma fix_pattern_total (targets : list (str * list str)) (content : str) :
  Forall (fun t => t.2 ≠ []) targets →
  ∃ out, fix_pattern targets content = Some out.
Proof.
  intros Hall. unfold fix_pattern. generalize (find_functions_accumulator content).
  intros functions. revert content.
  induction functions as [|func rest IH]; intros content; [by eexists|].
  cbn [fix_functions_accumulator].
  destruct (fix_targets_in_total targets func content Hall) as [content' ->].
  cbn [mbind option_bind]. apply IH.
Qed.

Lemma fix_targets_in_absent (targets : list (str * list str)) (func content : str) :
  Forall (fun t => str_contains (t.1 ++ lit " =") func = false) targets →
  fix_targets_in targets func content = Some content.
Proof.
  induction 1 as [|[var names] rest Habs _ IH]; [done|].
  cbn [fix_targets_in]. unfold fix_accumulator_in. cbn [fst] in Habs. rewrite Habs.
  cbn [andb mbind option_bind]. apply IH.
Qed.

Lemma str_contains_within (sub a s b : str) :
  str_contains sub (a ++ s ++ b) = false → str_contains sub s = false.
Proof.
  intros H. destruct (str_contains sub s) eqn:E; [|done].
  apply str_contains_true in E as (a' & b' & ->).
  assert (str_contains sub (a ++ (a' ++ sub ++ b') ++ b) = true) as Hc; [|congruence].
  apply str_contains_true. exists (a ++ a'), (b' ++ b). by rewrite <- !app_assoc.
Qed.

Lemma fix_pattern_absent (targets : list (str * list str)) (content : str) :
  Forall (fun t => str_contains (t.1 ++ lit " =") content = false) targets →
  fix_pattern targets content = Some content.
Proof.
  intros Hall. unfold fix_pattern.
  assert (∀ func, func ∈ find_functions_accumulator content →
            Forall (fun t => str_contains (t.1 ++ lit " =") func = false) targets) as Hfunc.
  { intros func (a & s & -> & Hm)%findall_from_elem.
    apply accumulator_match_spec in Hm as (rest & _ & _ & -> & _).
    eapply Forall_impl; [exact Hall|]. intros t Ht. cbv beta in *.
    exact (str_contains_within _ _ _ _ Ht). }
  revert Hfunc. generalize (find_functions_accumulator content).
  induction l as [|func rest IH]; intros Hfunc; [done|].
  cbn [fix_functions_accumulator].
  rewrite fix_targets_in_absent by (apply Hfunc; left).
  cbn [mbind option_bind]. apply IH. intros f Hf. apply Hfunc. by right.
Qed.

Ltac pattern_step lem :=
  match goal with
  | |- context [fix_pattern ?targets ?c] =>
      let H := fresh in
      destruct (lem targets c) as [? H]; [repeat constructor; done|];
      rewrite H; cbn [mbind option_bind]
  end.

Lemma fix_variable_redeclarations_total (content : str) :
  ∃ out, fix_variable_redeclarations content = Some out.
Proof.
  unfold fix_variable_redeclarations, fix_recommendations_pattern, fix_factors_pattern,
    fix_alerts_pattern, fix_warnings_pattern, fix_risks_pattern, fix_gaps_pattern,
    fix_anomalies_pattern, fix_suggestions_pattern, fix_actions_pattern,
    fix_improvements_pattern.
  do 9 pattern_step fix_pattern_total.
  apply fix_pattern_total. repeat constructor; done.
Qed.

Lemma fix_variable_redeclarations_absent (content : str) :
  (∀ v, v ∈ accumulator_variables → str_contains (v ++ lit " =") content = false) →
  fix_variable_redeclarations content = Some content.
Proof.
  intros Habs.
  unfold fix_variable_redeclarations, fix_recommendations_pattern, fix_factors_pattern,
    fix_alerts_pattern, fix_warnings_pattern, fix_risks_pattern, fix_gaps_pattern,
    fix_anomalies_pattern, fix_suggestions_pattern, fix_actions_pattern,
    fix_improvements_pattern.
  repeat (rewrite fix_pattern_absent;
          [cbn [mbind option_bind]
          |repeat constructor; apply Habs; apply (bool_decide_unpack _); vm_compute; exact I]).
  done.
Qed.

(** X22: the archived driver [fix_variable_redeclarations] never fails,
    and it returns as it is a text that holds none of its eleven
    variables followed by one space and [=]. *)
Theorem accumulator_driver_never_raises (content : str) :
  ∃ out,
    fix_variable_redeclarations content = Some out
    ∧ ((∀ v, v ∈ accumulator_variables → str_contains (v ++ lit " =") content = false) →
       out = content).
Proof.
  destruct (fix_variable_redeclarations_total content) as [out Hout].
  exists out. split; [done|]. intros Habs.
  rewrite (fix_variable_redeclarations_absent content Habs) in Hout. congruence.
Qed.

(** X23: [process_file] never raises, and what it does is fixed by the
    file.  A file that is missing or cannot be read: the error is
    printed, the world stays as it is, the result is [False].  Otherwise
    [fix_variable_redeclarations] gives a final text for the text read.
    If that is the text read: nothing is printed or written, the result
    is [False].  If it differs and the file cannot be opened for writing:
    the error is printed, the world stays as it is, the result is
    [False].  If it differs and the write completes: the file holds the
    final text, the write is the one event, [Fixed] is printed, the
    result is [True].  If it differs and the write fails after the file
    was opened: the file holds what was taken of the final text, the
    error is printed, the result is [False].  So the result is [True]
    exactly when [Fixed] is printed, which is exactly when the final text
    was written to the file; and the only error reported is a failed read
    or write, the rewrite itself never failing. *)
Theorem process_file_outcome (w : world) (filepath : string) :
  ∃ w' out changed,
    process_file w filepath = (w', out, changed)
    ∧ match files w !! filepath with
      | Some f =>
          if file_readable f then
            let original := universal_newlines (file_data f) in
            ∃ final,
              fix_variable_redeclarations original = Some final
              ∧ if bool_decide (final = original) then
                  changed = false ∧ out = [] ∧ w' = w
                else if file_writable f then
                  if room_for f final then
                    changed = true ∧ out = [Fixed filepath]
                    ∧ files w'
                      = <[filepath := File final true true (file_room f)]> (files w)
                    ∧ trace w' = trace w ++ [Wrote filepath final]
                  else
                    changed = false ∧ out = [ErrorProcessing filepath OSError]
                    ∧ files w'
                      = <[filepath := File (taken f final) true true (file_room f)]>
                          (files w)
                    ∧ trace w' = trace w ++ [Truncated filepath (taken f final)]
                else
                  changed = false ∧ out = [ErrorProcessing filepath OSError] ∧ w' = w
          else changed = false ∧ out = [ErrorProcessing filepath OSError] ∧ w' = w
      | None => changed = false ∧ out = [ErrorProcessing filepath OSError] ∧ w' = w
      end
    ∧ (changed = true ↔ out = [Fixed filepath])
    ∧ (changed = true
       ↔ ∃ final, trace w' = trace w ++ [Wrote filepath final]
                  ∧ file_data <$> files w' !! filepath = Some final
                  ∧ read_file w filepath ≠ inr final)
    ∧ (∀ e, ErrorProcessing filepath e ∈ out → e = OSError).
Proof.
  assert (∀ x : event, trace w ≠ trace w ++ [x]) as Hsame.
  { intros x H. apply (f_equal length) in H. rewrite length_app in H. simpl in H. lia. }
  assert (∀ e, ErrorProcessing filepath e ∈ [ErrorProcessing filepath OSError] →
               e = OSError) as Herr.
  { intros e [[= <-]|?%elem_of_nil]%elem_of_cons; done. }
  unfold process_file, read_file.
  destruct (files w !! filepath) as [f|] eqn:Hf.
  2:{ exists w, [ErrorProcessing filepath OSError], false.
      split; [done|]. split; [done|]. split; [done|]. split; [|done].
      split; [done|]. intros (final & H & _). by apply Hsame in H. }
  destruct (file_readable f) eqn:Hr.
  2:{ exists w, [ErrorProcessing filepath OSError], false.
      split; [done|]. split; [done|]. split; [done|]. split; [|done].
      split; [done|]. intros (final & H & _). by apply Hsame in H. }
  destruct (fix_variable_redeclarations_total (universal_newlines (file_data f)))
    as [final Hfinal].
  rewrite Hfinal. cbv zeta. case_bool_decide as Heq.
  { exists w, [], false. split; [done|]. split; [|split; [done|split]].
    - exists final. split; [done|]. by rewrite bool_decide_eq_true_2.
    - split; [done|]. intros (data & H & _). by apply Hsame in H.
    - by intros e ?%elem_of_nil. }
  unfold write_file. rewrite Hf.
  destruct (file_writable f) eqn:Hw.
  2:{ exists w, [ErrorProcessing filepath OSError], false.
      split; [done|]. split; [|split; [done|split; [|done]]].
      - exists final. split; [done|]. by rewrite bool_decide_eq_false_2.
      - split; [done|]. intros (data & H & _). by apply Hsame in H. }
  destruct (room_for f final) eqn:Hroom.
  - eexists _, [Fixed filepath], true. split; [done|]. simpl.
    split; [|split; [done|split]].
    + exists final. split; [done|]. rewrite bool_decide_eq_false_2 by done.
      by rewrite Hroom, Hr.
    + split; [|done]. intros _. exists final. split; [done|].
      rewrite lookup_insert_eq. split; [done|]. congruence.
    + intros e [[=]|?%elem_of_nil]%elem_of_cons. done.
  - eexists _, [ErrorProcessing filepath OSError], false. split; [done|]. simpl.
    split; [|split; [done|split; [|done]]].
    + exists final. split; [done|]. rewrite bool_decide_eq_false_2 by done.
      by rewrite Hroom, Hr.
    + split; [done|]. intros (data & H & _). apply app_inv_head in H. congruence.
Qed.

(** The two example texts: the function without a brace is rewritten, the
    one with a tuple in its body is not found and stays as it is. *)
Example driver_rewrites_alerts :
  fix_variable_redeclarations alerts_function
  = Some (text [ "def f do"; "  initial_alerts = []"; "  base_alerts = [1 | alerts]";
                 "  base_alerts"; "end" ]%string).
Proof. vm_compute. reflexivity. Qed.

Example driver_skips_tuple_function :
  find_functions_accumulator tuple_function = [text [ "def g do"; "  1"; "end" ]%string]
  ∧ fix_variable_redeclarations tuple_function = Some tuple_function.
Proof. split; vm_compute; reflexivity. Qed.


(** ** The archived driver [fix_all_occurrences_of_variable] *)

Lemma skip_params_suffix (s : str) : ∃ p, s = p ++ skip_params s.
Proof.
  unfold skip_params. destruct s as [|c t]; [by exists []|].
  destruct (Ascii.eqb c "("%char); [|by exists []].
  destruct (after_close t) as [r|] eqn:E; [|by exists []].
  assert (∃ q, t = q ++ r) as [q ->].
  { clear c. revert E. induction t as [|d t IH]; [done|]. simpl.
    destruct (Ascii.eqb d ")"%char).
    - intros [= ->]. by exists [d].
    - intros [q ->]%IH. by exists (d :: q). }
  by exists (c :: q).
Qed.

Lemma lazy_to_end_spec (s rest : str) :
  lazy_to_end s = Some rest →
  ∃ body ws, s = body ++ newline :: ws ++ lit "end" ++ rest
             ∧ forallb is_space ws = true.
Proof.
  induction s as [|c s IH]; cbn [lazy_to_end].
  - destruct (end_marker []) as [r|] eqn:E; [|done].
    intros [= <-]. apply end_marker_spec in E as (ws & Hws & Hs). by exists [], ws.
  - destruct (end_marker (c :: s)) as [r|] eqn:E.
    + intros [= <-]. apply end_marker_spec in E as (ws & Hws & Hs). by exists [], ws.
    + destruct (function_header (c :: s)); [done|].
      intros (body & ws & -> & Hws)%IH. by exists (c :: body), ws.
Qed.

Lemma body_after_do_spec (s rest : str) :
  body_after_do s = Some rest →
  ∃ body ws, s = body ++ newline :: ws ++ lit "end" ++ rest
             ∧ forallb is_space ws = true.
Proof.
  unfold body_after_do.
  destruct (lazy_to_end (skip_ws s)) as [r|] eqn:E.
  - intros [= <-]. apply lazy_to_end_spec in E as (body & ws & Hs & Hws).
    exists (take_ws s ++ body), ws. split; [|done].
    rewrite <- app_assoc, <- Hs. by rewrite take_skip_ws.
  - destruct (existsb (Ascii.eqb newline) (take_ws s)) eqn:Ex; [|done].
    intros Hend%strip_prefix_Some.
    apply existsb_exists in Ex as (x & Hin & Hx).
    apply ascii_eqb_true in Hx as <-.
    apply list_elem_of_In, list_elem_of_split in Hin as (a & b & Hab).
    exists a, b. split.
    + rewrite <- (take_skip_ws s) at 1. rewrite Hab, Hend.
      rewrite <- !app_assoc. done.
    + pose proof (take_ws_spaces s) as Hsp. rewrite Hab, forallb_app in Hsp.
      apply andb_true_iff in Hsp as [_ Hsp]. cbn [forallb] in Hsp.
      by apply andb_true_iff in Hsp as [_ ?].
Qed.

Lemma first_match_spec (candidates : list str) (rest : str) :
  first_match candidates = Some rest →
  ∃ c, c ∈ candidates ∧ body_after_do c = Some rest.
Proof.
  induction candidates as [|c cs IH]; [done|]. cbn [first_match].
  destruct (body_after_do c) as [r|] eqn:E.
  - intros [= <-]. exists c. split; [left|done].
  - intros (c' & ? & ?)%IH. exists c'. split; [by right|done].
Qed.

Lemma archived_match_spec (s m : str) :
  archived_match s = Some m →
  ∃ rest x body ws,
    s = m ++ rest
    ∧ m = lit "def" ++ x ++ lit "do" ++ body ++ newline :: ws ++ lit "end"
    ∧ forallb is_space ws = true.
Proof.
  unfold archived_match.
  destruct (def_keyword s) as [r|] eqn:E; [|done]. cbn [mbind option_bind].
  destruct (head_is is_space r && head_is is_word (skip_ws r)); [|done].
  apply def_keyword_shape in E as (h & ->).
  set (name := take_word (skip_ws r)). set (after := skip_word (skip_ws r)).
  destruct (first_match _) as [rest|] eqn:Ef; [|done]. cbn [mbind option_bind].
  intros Hm. apply (inj Some) in Hm.
  apply first_match_spec in Ef as (c & Hc & Hbody).
  apply body_after_do_spec in Hbody as (body & ws & -> & Hws).
  assert (∃ x, name ++ after = x ++ lit "do" ++ body ++ newline :: ws ++ lit "end" ++ rest)
    as [x Hx].
  { apply elem_of_app in Hc as [Hc|Hc].
    - destruct (strip_prefix (lit "do") (skip_ws (skip_params after))) as [c|] eqn:Es;
        [|by apply elem_of_nil in Hc].
      apply list_elem_of_singleton in Hc as <-.
      apply strip_prefix_Some in Es.
      destruct (skip_params_suffix after) as [p Hp].
      exists (name ++ p ++ take_ws (skip_params after)).
      rewrite Hp at 1. rewrite <- (take_skip_ws (skip_params after)) at 1.
      rewrite Es. by rewrite <- !app_assoc.
    - unfold do_inside in Hc. apply list_elem_of_omap in Hc as (i & _ & Hi).
      apply strip_prefix_Some in Hi. exists (take i name).
      rewrite <- Hi, app_assoc. by rewrite take_drop. }
  assert (lit "def" ++ h ++ r
          = (lit "def" ++ (h ++ take_ws r ++ x) ++ lit "do" ++ body
             ++ newline :: ws ++ lit "end") ++ rest) as Heq.
  { rewrite <- (take_skip_ws r) at 1.
    rewrite <- (take_skip_word (skip_ws r)) at 1. fold name after.
    rewrite Hx. rewrite <- !app_assoc. simpl. by rewrite <- !app_assoc. }
  rewrite Heq in Hm |- *.
  set (m0 := lit "def" ++ (h ++ take_ws r ++ x) ++ lit "do" ++ body
             ++ newline :: ws ++ lit "end") in *.
  replace (length (m0 ++ rest) - length rest) with (length m0) in Hm
    by (rewrite length_app; lia).
  rewrite take_app_length in Hm. subst m.
  by exists rest, (h ++ take_ws r ++ x), body, ws.
Qed.

Lemma archived_functions_from_skip (k : nat) (s : str) :
  archived_functions_from k s = archived_functions_from 0 (drop k s).
Proof.
  revert k. induction s as [|c s IH]; intros k; [by destruct k|].
  destruct k as [|k]; [done|]. simpl. apply IH.
Qed.

Lemma sub_functions_from_skip (f : str → option str) (k : nat) (s : str) :
  sub_functions_from f k s = sub_functions_from f 0 (drop k s).
Proof.
  revert k. induction s as [|c s IH]; intros k; [by destruct k|].
  destruct k as [|k]; [done|]. simpl. apply IH.
Qed.

Lemma archived_functions_from_elem (skip : nat) (s region : str) :
  region ∈ archived_functions_from skip s →
  ∃ pre s', s = pre ++ s' ∧ archived_match s' = Some region.
Proof.
  revert skip. induction s as [|c s IH]; intros skip; [by intros ?%elem_of_nil|].
  assert (∀ k, region ∈ archived_functions_from k s →
               ∃ pre s', c :: s = pre ++ s' ∧ archived_match s' = Some region) as IH'.
  { intros k (pre & s' & -> & ?)%IH. by exists (c :: pre), s'. }
  cbn [archived_functions_from]. destruct skip as [|k]; [|apply IH'].
  destruct (archived_match (c :: s)) as [m|] eqn:E; [|apply IH'].
  intros [->|?]%elem_of_cons; [|by eapply IH'].
  by exists [], (c :: s).
Qed.

(** [re.sub] rewrites the matches and keeps the stretches between them. *)
Lemma sub_functions_weave (f : str → option str) (s : str) :
  (∀ m, is_Some (f m)) →
  ∃ gaps outs,
    length gaps = S (length (archived_functions_from 0 s))
    ∧ s = weave gaps (archived_functions_from 0 s)
    ∧ Forall2 (fun m o => f m = Some o) (archived_functions_from 0 s) outs
    ∧ sub_functions_from f 0 s = Some (weave gaps outs).
Proof.
  intros Hf. remember (length s) as n eqn:Hn. revert s Hn.
  induction n as [n IH] using lt_wf_ind. intros s ->.
  destruct s as [|c s]; [by exists [[]], []|].
  cbn [archived_functions_from sub_functions_from].
  destruct (archived_match (c :: s)) as [m|] eqn:E.
  - destruct (archived_match_spec _ _ E) as (post & x & body & ws & Hs & Hm & _).
    assert (m ≠ []) as Hne by (rewrite Hm; done).
    rewrite archived_functions_from_skip, sub_functions_from_skip.
    assert (drop (length m - 1) s = post) as ->.
    { destruct m as [|c' m]; [done|]. injection Hs as -> ->.
      simpl. rewrite Nat.sub_0_r. by rewrite drop_app_length. }
    destruct (IH (length post)) with (s := post) as (gaps & outs & Hlen & Hpost & Hall & Hsub);
      [|done|].
    { rewrite Hs, length_app. destruct m; [done|]. simpl. lia. }
    destruct (Hf m) as [o Ho]. rewrite Ho, Hsub. cbn [mbind option_bind].
    exists ([] :: gaps), (o :: outs). split; [simpl; lia|]. split; [|split].
    + by rewrite weave_cons_region, <- Hpost.
    + by constructor.
    + by rewrite weave_cons_region.
  - destruct (IH (length s)) with (s := s) as (gaps & outs & Hlen & Hs & Hall & Hsub);
      [simpl; lia|done|].
    rewrite Hsub. cbn [mbind option_bind].
    destruct gaps as [|g gaps]; [done|].
    exists ((c :: g) :: gaps), outs. split; [done|]. split; [|split; [done|]].
    + by rewrite weave_cons_gap, <- Hs.
    + by rewrite weave_cons_gap.
Qed.

Lemma process_function_total (func var : str) (reps : list str) :
  is_Some (process_function func var reps).
Proof.
  destruct (str_contains (var ++ lit " =") func) eqn:Hgate.
  2:{ rewrite process_function_no_literal by done. by eexists. }
  destruct (decide (length (find_assignment_lines var (split_lines func)) ≤ 1)) as [Hle|Hgt].
  { rewrite process_function_few_sites by done. by eexists. }
  destruct (process_function_lines func var reps Hgate) as (lines2 & -> & _); [lia|].
  by eexists.
Qed.

(** X24: for an identifier, [fix_all_occurrences_of_variable] never
    fails, rewrites the functions its pattern finds and nothing else: the
    text is a stretch, the first function, a stretch, and so on, and the
    result is the same stretches with each function replaced by what
    [process_function] returns for it. *)
Theorem archived_driver_rewrites_functions_only (content var : str) :
  identifier var = true →
  ∃ gaps outs,
    length gaps = S (length (archived_functions content))
    ∧ content = weave gaps (archived_functions content)
    ∧ Forall2 (fun m o => process_function m var (replacements_archived var) = Some o)
        (archived_functions content) outs
    ∧ fix_all_occurrences_of_variable content var = Some (weave gaps outs).
Proof.
  intros _.
  apply (sub_functions_weave
           (fun m => process_function m var (replacements_archived var))).
  intros m. apply process_function_total.
Qed.

Lemma archived_driver_rewrites_functions_only_witness :
  let var := lit "factors" in
  identifier var = true
  ∧ archived_functions factors_function ≠ []
  ∧ fix_all_occurrences_of_variable factors_function var ≠ Some factors_function
  ∧ ∃ gaps outs,
      length gaps = S (length (archived_functions factors_function))
      ∧ factors_function = weave gaps (archived_functions factors_function)
      ∧ Forall2 (fun m o => process_function m var (replacements_archived var) = Some o)
          (archived_functions factors_function) outs
      ∧ fix_all_occurrences_of_variable factors_function var = Some (weave gaps outs).
Proof.
  split; [reflexivity|]. split; [vm_compute; discriminate|].
  split; [vm_compute; discriminate|].
  exact (archived_driver_rewrites_functions_only factors_function (lit "factors") eq_refl).
Defined.

(** X25: every function the archived pattern finds starts with [def],
    holds [do], and ends with a line break, whitespace and [end]. *)
Theorem archived_functions_shape (content region : str) :
  region ∈ archived_functions content →
  (∃ a b, content = a ++ region ++ b)
  ∧ ∃ x body ws,
      region = lit "def" ++ x ++ lit "do" ++ body ++ newline :: ws ++ lit "end"
      ∧ forallb is_space ws = true.
Proof.
  intros (a & s & -> & Hm)%archived_functions_from_elem.
  apply archived_match_spec in Hm as (rest & x & body & ws & -> & Hshape & Hws).
  split; [by exists a, rest|]. by exists x, body, ws.
Qed.

Lemma archived_functions_shape_witness :
  alerts_function ∈ archived_functions (alerts_function ++ [newline])
  ∧ (∃ a b, alerts_function ++ [newline] = a ++ alerts_function ++ b)
  ∧ ∃ x body ws,
      alerts_function = lit "def" ++ x ++ lit "do" ++ body ++ newline :: ws ++ lit "end"
      ∧ forallb is_space ws = true.
Proof.
  assert (alerts_function ∈ archived_functions (alerts_function ++ [newline])) as Hin.
  { apply (bool_decide_unpack _). vm_compute. exact I. }
  split; [done|].
  exact (archived_functions_shape _ _ Hin).
Defined.

Lemma weave_same (gaps regions outs : list str) :
  Forall2 (fun m o => o = m) regions outs → weave gaps outs = weave gaps regions.
Proof.
  intros H. assert (outs = regions) as ->; [|done].
  induction H as [|m o ?? -> _ IH]; [done|]. by rewrite IH.
Qed.

(** X26: a text that nowhere holds the variable followed by one space
    and [=] is returned as it is by [fix_all_occurrences_of_variable]. *)
Theorem archived_driver_absent_literal (content var : str) :
  str_contains (var ++ lit " =") content = false →
  fix_all_occurrences_of_variable content var = Some content.
Proof.
  intros Habs.
  destruct (sub_functions_weave
              (fun m => process_function m var (replacements_archived var)) content)
    as (gaps & outs & _ & Hcontent & Hall & Hsub).
  { intros m. apply process_function_total. }
  unfold fix_all_occurrences_of_variable. rewrite Hsub. f_equal.
  rewrite Hcontent at 1. apply weave_same.
  assert (∀ m, m ∈ archived_functions_from 0 content →
               str_contains (var ++ lit " =") m = false) as Hm.
  { intros m (a & s & -> & Hmatch)%archived_functions_from_elem.
    apply archived_match_spec in Hmatch as (rest & _ & _ & _ & -> & _).
    by eapply str_contains_within. }
  revert Hall Hm. generalize (archived_functions_from 0 content). clear.
  intros regions Hall. induction Hall as [|m o ms os Hmo _ IH]; intros Hm; [done|].
  constructor.
  - rewrite process_function_no_literal in Hmo by (apply Hm; left). congruence.
  - apply IH. intros m' ?. apply Hm. by right.
Qed.

Lemma archived_driver_absent_literal_witness :
  str_contains (lit "total" ++ lit " =") tight_assignments = false
  ∧ fix_all_occurrences_of_variable tight_assignments (lit "total") = Some tight_assignments.
Proof.
  split; [reflexivity|].
  apply archived_driver_absent_literal. reflexivity.
Defined.

(** ** [fix_file_variable_redeclarations] *)

Lemma fix_all_occurrences_total (content var : str) :
  ∃ out, fix_all_occurrences_of_variable content var = Some out.
Proof.
  destruct (sub_functions_weave
              (fun m => process_function m var (replacements_archived var)) content)
    as (gaps & outs & _ & _ & _ & Hsub).
  { intros m. apply process_function_total. }
  by eexists.
Qed.

Lemma fix_variables_archived_total (order : list str) (content : str) :
  ∃ out, fix_variables_archived order content = Some out.
Proof.
  revert content. induction order as [|v rest IH]; intros content; [by eexists|].
  cbn [fix_variables_archived].
  destruct (fix_all_occurrences_total content v) as [content' ->].
  cbn [mbind option_bind]. apply IH.
Qed.

(** X27: for identifiers, whatever the order in which they are visited,
    [fix_file_variable_redeclarations] never raises, and what it does is
    fixed by the file.  A file that is missing or cannot be read: the
    error is printed, no file changes, the result is [False].  Otherwise
    the loop over the variables gives a final text for the text read, the
    rewrite itself never failing.  If that is the text read: nothing is
    printed or written, the result is [False].  If it differs and the
    file cannot be opened for writing: the error is printed, no file
    changes, the result is [False].  If it differs and the write
    completes: the file holds the final text, the write is the one event,
    the result is [True].  If it differs and the write fails after the
    file was opened: the file holds what was taken of the final text, the
    error is printed, the result is [False].  So the result is [True]
    exactly when the final text was written to the file. *)
Theorem archived_file_fix_outcome (w : world) (filepath : string) (order : list str) :
  Forall (fun var => identifier var = true) order →
  ∃ w' changed,
    fix_file_variable_redeclarations w filepath order = (w', changed)
    ∧ match files w !! filepath with
      | Some f =>
          if file_readable f then
            let original := universal_newlines (file_data f) in
            ∃ final,
              fix_variables_archived order original = Some final
              ∧ if bool_decide (final = original) then
                  changed = false ∧ w' = w
                else if file_writable f then
                  if room_for f final then
                    changed = true
                    ∧ files w'
                      = <[filepath := File final true true (file_room f)]> (files w)
                    ∧ trace w' = trace w ++ [Wrote filepath final]
                  else
                    changed = false
                    ∧ files w'
                      = <[filepath := File (taken f final) true true (file_room f)]>
                          (files w)
                    ∧ trace w' = trace w ++ [ Truncated filepath (taken f final);
                                              PrintedError filepath OSError ]
                else
                  changed = false ∧ files w' = files w
                  ∧ trace w' = trace w ++ [PrintedError filepath OSError]
          else
            changed = false ∧ files w' = files w
            ∧ trace w' = trace w ++ [PrintedError filepath OSError]
      | None =>
          changed = false ∧ files w' = files w
          ∧ trace w' = trace w ++ [PrintedError filepath OSError]
      end
    ∧ (changed = true
       ↔ ∃ final, trace w' = trace w ++ [Wrote filepath final]
                  ∧ file_data <$> files w' !! filepath = Some final
                  ∧ read_file w filepath ≠ inr final).
Proof.
  intros _.
  assert (∀ x : event, trace w ≠ trace w ++ [x]) as Hsame.
  { intros x H. apply (f_equal length) in H. rewrite length_app in H. simpl in H. lia. }
  assert (∀ (x y : event) l, x ≠ y → trace w ++ [x] ≠ trace w ++ y :: l) as Hother.
  { intros x y l Hxy H. apply app_inv_head in H. congruence. }
  unfold fix_file_variable_redeclarations, try_fix_file_archived, read_file.
  destruct (files w !! filepath) as [f|] eqn:Hf.
  2:{ eexists _, false. split; [done|]. simpl. split; [done|].
      split; [done|]. intros (final & H & _). symmetry in H. by apply Hother in H. }
  destruct (file_readable f) eqn:Hr.
  2:{ eexists _, false. split; [done|]. simpl. split; [done|].
      split; [done|]. intros (final & H & _). symmetry in H. by apply Hother in H. }
  destruct (fix_variables_archived_total order (universal_newlines (file_data f)))
    as [final Hfinal].
  rewrite Hfinal. cbv zeta. case_bool_decide as Heq.
  { exists w, false. split; [done|]. split.
    - exists final. split; [done|]. by rewrite bool_decide_eq_true_2.
    - split; [done|]. intros (data & H & _). by apply Hsame in H. }
  unfold write_file. rewrite Hf.
  destruct (file_writable f) eqn:Hw.
  2:{ eexists _, false. split; [done|]. simpl. split.
      - exists final. split; [done|]. by rewrite bool_decide_eq_false_2.
      - split; [done|]. intros (data & H & _). symmetry in H. by apply Hother in H. }
  destruct (room_for f final) eqn:Hroom.
  - eexists _, true. split; [done|]. simpl. split.
    + exists final. split; [done|]. rewrite bool_decide_eq_false_2 by done.
      by rewrite Hroom, Hr.
    + split; [|done]. intros _. exists final. split; [done|].
      rewrite lookup_insert_eq. split; [done|]. congruence.
  - eexists _, false. split; [done|]. simpl. split.
    + exists final. split; [done|]. rewrite bool_decide_eq_false_2 by done.
      by rewrite Hroom, Hr, <- app_assoc.
    + split; [done|]. intros (data & H & _). rewrite <- app_assoc in H.
      symmetry in H. by apply Hother in H.
Qed.

Lemma archived_file_fix_outcome_witness :
  let w := one_file "lib/f.ex" factors_function in
  let order := [lit "factors"; lit "risk_factors"] in
  Forall (fun var => identifier var = true) order
  ∧ (fix_file_variable_redeclarations w "lib/f.ex" order).2 = true
  ∧ ∃ w' changed,
      fix_file_variable_redeclarations w "lib/f.ex" order = (w', changed)
      ∧ (changed = true
         ↔ ∃ final, trace w' = trace w ++ [Wrote "lib/f.ex" final]
                    ∧ file_data <$> files w' !! "lib/f.ex"%string = Some final
                    ∧ read_file w "lib/f.ex" ≠ inr final).
Proof.
  assert (Forall (fun var => identifier var = true) [lit "factors"; lit "risk_factors"])
    as Horder.
  { repeat constructor. }
  split; [exact Horder|]. split; [vm_compute; reflexivity|].
  destruct (archived_file_fix_outcome (one_file "lib/f.ex" factors_function)
              "lib/f.ex" [lit "factors"; lit "risk_factors"] Horder)
    as (w' & changed & H1 & _ & H2).
  exists w', changed. split; [exact H1|exact H2].
Defined.

(** X28: the passes for two variables do not commute, so the result of
    the loop over [set(variables)] depends on the order of iteration:
    there are a text and two orders of the same variables for which the
    loop returns different texts. *)
Theorem variable_order_matters :
  ∃ content variables order1 order2 out1 out2,
    iteration_order variables order1
    ∧ iteration_order variables order2
    ∧ fix_variables_archived order1 content = Some out1
    ∧ fix_variables_archived order2 content = Some out2
    ∧ out1 ≠ out2.
Proof.
  exists factors_function, [lit "factors"; lit "risk_factors"],
    [lit "factors"; lit "risk_factors"], [lit "risk_factors"; lit "factors"],
    (text [ "def f do"; "  initial_factors = 1"; "  base_factors = 2";
            "  initial_risk_factors = 3"; "  behavioral_risk_factors = 0";
            "  behavioral_risk_factors"; "end" ]%string),
    (text [ "def f do"; "  initial_factors = 1"; "  base_factors = 2";
            "  risk_factors = 3"; "  risk_factors = 0"; "  risk_factors"; "end" ]%string).
  split; [|split; [|split; [|split]]].
  - split; [|done]. apply (bool_decide_unpack _). vm_compute. exact I.
  - split.
    + apply (bool_decide_unpack _). vm_compute. exact I.
    + intros v. rewrite !elem_of_cons, !elem_of_nil. tauto.
  - vm_compute. reflexivity.
  - vm_compute. reflexivity.
  - apply (bool_decide_unpack _). vm_compute. exact I.
Qed.
